(** * A lexer and a recursive-descent calculator, after [src/main.py]

    The development embeds the two stages of [main.py]:

    - [Lexer]: the class [Lexer] with its mutable fields, as a state
      record threaded through a state-and-exception monad;
    - [calculate]: the closure-based evaluator, whose shared cursor
      [pos] is the state of the same monad.

    Python strings are modelled as [string]; a "character" is, as in
    Python, a string of length one (and [peek] answers the empty string
    at the end of the input).  The characters are those of code points
    below 256, with [str.isspace], [str.isalpha], [str.isdigit] and
    [str.isalnum] given by the Unicode database on that range.  Python's
    [int] is [Z], its [float] is the primitive binary64 [float].  The
    bound that the interpreter sets to the depth of calls is not
    modelled: the statements about the evaluator are about evaluations
    that stay within it. *)

From Stdlib Require Import ZArith NArith Bool List Lia.
From Stdlib Require Import Ascii String.
From Stdlib Require Import PrimFloat SpecFloat FloatOps.
Import ListNotations.

Local Open Scope Z_scope.
Local Open Scope string_scope.

(** ** Token kinds and tokens *)

Inductive TokenType : Set :=
  (* Keywords *)
  | FUNCTION | EXTERN | IF | THEN | ELSE | FOR | IN
  (* Literals *)
  | INTEGER | FLOAT | IDENTIFIER
  (* Operators *)
  | PLUS | MINUS | MULTIPLY | DIVIDE | MODULO | POWER
  (* Comparison operators *)
  | LESS | GREATER | EQUAL | NOT_EQUAL
  (* Punctuation *)
  | LEFT_PAREN | RIGHT_PAREN | COMMA | SEMICOLON
  (* Special *)
  | EOF | UNKNOWN.

Definition TokenType_eqb (a b : TokenType) : bool :=
  match a, b with
  | FUNCTION, FUNCTION | EXTERN, EXTERN | IF, IF | THEN, THEN | ELSE, ELSE
  | FOR, FOR | IN, IN | INTEGER, INTEGER | FLOAT, FLOAT
  | IDENTIFIER, IDENTIFIER | PLUS, PLUS | MINUS, MINUS
  | MULTIPLY, MULTIPLY | DIVIDE, DIVIDE | MODULO, MODULO | POWER, POWER
  | LESS, LESS | GREATER, GREATER | EQUAL, EQUAL | NOT_EQUAL, NOT_EQUAL
  | LEFT_PAREN, LEFT_PAREN | RIGHT_PAREN, RIGHT_PAREN | COMMA, COMMA
  | SEMICOLON, SEMICOLON | EOF, EOF | UNKNOWN, UNKNOWN => true
  | _, _ => false
  end.

(** [token_type.name] *)
Definition name (t : TokenType) : string :=
  match t with
  | FUNCTION => "FUNCTION" | EXTERN => "EXTERN" | IF => "IF"
  | THEN => "THEN" | ELSE => "ELSE" | FOR => "FOR" | IN => "IN"
  | INTEGER => "INTEGER" | FLOAT => "FLOAT" | IDENTIFIER => "IDENTIFIER"
  | PLUS => "PLUS" | MINUS => "MINUS" | MULTIPLY => "MULTIPLY"
  | DIVIDE => "DIVIDE" | MODULO => "MODULO" | POWER => "POWER"
  | LESS => "LESS" | GREATER => "GREATER" | EQUAL => "EQUAL"
  | NOT_EQUAL => "NOT_EQUAL" | LEFT_PAREN => "LEFT_PAREN"
  | RIGHT_PAREN => "RIGHT_PAREN" | COMMA => "COMMA"
  | SEMICOLON => "SEMICOLON" | EOF => "EOF" | UNKNOWN => "UNKNOWN"
  end.

Module Token.
Record t : Set := mk
  { type : TokenType; value : string; line : Z; column : Z }.
End Token.
Abbreviation Token := Token.t.

(** ** Python strings *)

(** The line feed, ['\n']. *)
Definition NL : string := String "010"%char EmptyString.

(** [s[i]] for [0 <= i]; [None] stands for the [IndexError]. *)
Definition index (s : string) (i : nat) : option string :=
  match String.get i s with
  | Some c => Some (String c EmptyString)
  | None => None
  end.

(** [s[a:b]] for [0 <= a <= b]. *)
Definition slice (s : string) (a b : nat) : string :=
  String.substring a (b - a) s.

Definition between (lo hi n : N) : bool := ((lo <=? n) && (n <=? hi))%N.

Definition isspace_char (c : ascii) : bool :=
  let n := N_of_ascii c in
  between 9 13 n || between 28 32 n || (n =? 133)%N || (n =? 160)%N.

Definition isalpha_char (c : ascii) : bool :=
  let n := N_of_ascii c in
  between 65 90 n || between 97 122 n || (n =? 170)%N || (n =? 181)%N
  || (n =? 186)%N || between 192 214 n || between 216 246 n
  || between 248 255 n.

Definition isdigit_char (c : ascii) : bool :=
  let n := N_of_ascii c in
  between 48 57 n || (n =? 178)%N || (n =? 179)%N || (n =? 185)%N.

Definition isnumeric_char (c : ascii) : bool :=
  isdigit_char c || between 188 190 (N_of_ascii c).

Definition isalnum_char (c : ascii) : bool :=
  isalpha_char c || isdigit_char c || isnumeric_char c.

Fixpoint all_chars (p : ascii -> bool) (s : string) : bool :=
  match s with
  | EmptyString => true
  | String c s' => p c && all_chars p s'
  end.

(** A [str] predicate holds of a string when the string is not empty
    and each of its characters satisfies it. *)
Definition str_pred (p : ascii -> bool) (s : string) : bool :=
  match s with
  | EmptyString => false
  | _ => all_chars p s
  end.

Definition isspace : string -> bool := str_pred isspace_char.
Definition isalpha : string -> bool := str_pred isalpha_char.
Definition isdigit : string -> bool := str_pred isdigit_char.
Definition isalnum : string -> bool := str_pred isalnum_char.

(** A [dict] with string keys, read only: [k in d] and [d[k]]. *)
Fixpoint lookup {A : Type} (k : string) (d : list (string * A)) : option A :=
  match d with
  | [] => None
  | (k', v) :: d' => if k =? k' then Some v else lookup k d'
  end.

(** ** State, exceptions and loops *)

Inductive exn : Set :=
  | IndexError | ValueError | ZeroDivisionError | OverflowError | TypeError.

(** The outcome of running a piece of code from a state: a value, a
    raised exception, or the loop budget of the model used up (which
    the totality lemmas below exclude). *)
Inductive outcome (St A : Type) : Type :=
  | Ok (a : A) (s : St)
  | Raise (e : exn) (s : St)
  | NoFuel.
Arguments Ok {St A} a s.
Arguments Raise {St A} e s.
Arguments NoFuel {St A}.

Definition M (St A : Type) : Type := St -> outcome St A.

Definition ret {St A} (a : A) : M St A := fun s => Ok a s.
Definition raise {St A} (e : exn) : M St A := fun s => Raise e s.
Definition bind {St A B} (m : M St A) (k : A -> M St B) : M St B :=
  fun s =>
    match m s with
    | Ok a s' => k a s'
    | Raise e s' => Raise e s'
    | NoFuel => NoFuel
    end.
Definition gets {St A} (f : St -> A) : M St A := fun s => Ok (f s) s.
Definition modify {St} (f : St -> St) : M St unit := fun s => Ok tt (f s).

Declare Scope monad_scope.
Delimit Scope monad_scope with monad.
Notation "x <- m ;; k" := (bind m (fun x => k))
  (at level 61, m at next level, right associativity) : monad_scope.
Notation "m ;; k" := (bind m (fun _ => k))
  (at level 61, right associativity) : monad_scope.
Local Open Scope monad_scope.

(** ** The lexer *)

Module Lexer.

Record t : Set := mk
  { source : string;
    position : nat;
    line : Z;
    column : Z;
    tokens : list Token }.

(** [__init__] *)
Definition init (source : string) : t := mk source 0 1 1 [].

Definition keywords : list (string * TokenType) :=
  [ ("def", FUNCTION); ("extern", EXTERN); ("if", IF); ("then", THEN);
    ("else", ELSE); ("for", FOR); ("in", IN) ].

Definition built_in_functions : list string :=
  [ "sin"; "cos"; "tan"; "sqrt"; "ln"; "exp" ].

Definition single_char_tokens : list (string * TokenType) :=
  [ ("+", PLUS); ("-", MINUS); ("*", MULTIPLY); ("/", DIVIDE);
    ("%", MODULO); ("^", POWER); ("<", LESS); (">", GREATER);
    ("=", EQUAL); ("(", LEFT_PAREN); (")", RIGHT_PAREN); (",", COMMA);
    (";", SEMICOLON) ].

Definition is_at_end (self : t) : bool :=
  (String.length (source self) <=? position self)%nat.

Definition advance : M t string :=
  fun self =>
    match index (source self) (position self) with
    | None => Raise IndexError self
    | Some char =>
        let self1 :=
          mk (source self) (position self + 1) (line self)
             (column self + 1) (tokens self) in
        let self2 :=
          if char =? NL
          then mk (source self1) (position self1) (line self1 + 1) 1
                  (tokens self1)
          else self1 in
        Ok char self2
    end.

Definition peek (self : t) : string :=
  if is_at_end self then ""
  else match index (source self) (position self) with
       | Some c => c
       | None => ""
       end.

Definition peek_next (self : t) : string :=
  if (String.length (source self) <=? position self + 1)%nat then ""
  else match index (source self) (position self + 1) with
       | Some c => c
       | None => ""
       end.

(** [match]: a reserved word here, hence the underscore. *)
Definition match_ (expected : string) : M t bool :=
  fun self =>
    if is_at_end self
       || negb (match index (source self) (position self) with
                | Some c => c =? expected
                | None => false
                end)
    then Ok false self
    else Ok true (mk (source self) (position self + 1) (line self)
                     (column self + 1) (tokens self)).

Definition add_token (token_type : TokenType) (value : string) : M t unit :=
  fun self =>
    let value := if value =? "" then name token_type else value in
    Ok tt (mk (source self) (position self) (line self) (column self)
              (tokens self
               ++ [Token.mk token_type value (line self)
                     (column self - Z.of_nat (String.length value))])).

(** The loop budget: each loop below consumes one character per
    iteration, so one more than the length of the source is enough
    ([LexerFacts.budget_enough]). *)
Definition budget (self : t) : nat := S (String.length (source self)).

(** [while self.peek() != '\n' and not self.is_at_end(): self.advance()] *)
Fixpoint comment_loop (fuel : nat) : M t unit :=
  match fuel with
  | O => fun _ => NoFuel
  | S fuel' =>
      fun self =>
        if negb (peek self =? NL) && negb (is_at_end self)
        then (advance ;; comment_loop fuel') self
        else Ok tt self
  end.

(** The loop of [identifier]. *)
Fixpoint identifier_loop (fuel : nat) : M t unit :=
  match fuel with
  | O => fun _ => NoFuel
  | S fuel' =>
      fun self =>
        if negb (is_at_end self)
           && (isalnum (peek self) || (peek self =? "_"))
        then (advance ;; identifier_loop fuel') self
        else Ok tt self
  end.

Definition identifier : M t unit :=
  start_position <- gets (fun self => (position self - 1)%nat) ;;
  fuel <- gets budget ;;
  identifier_loop fuel ;;
  identifier <- gets (fun self =>
                        slice (source self) start_position (position self)) ;;
  match lookup identifier keywords with
  | Some kw => add_token kw identifier
  | None => add_token IDENTIFIER identifier
  end.

(** The loop of [number]; the local [has_decimal] is threaded through
    and returned. *)
Fixpoint number_loop (fuel : nat) (has_decimal : bool) : M t bool :=
  match fuel with
  | O => fun _ => NoFuel
  | S fuel' =>
      fun self =>
        if negb (is_at_end self)
           && (isdigit (peek self)
               || ((peek self =? ".") && negb has_decimal))
        then
          let has_decimal :=
            if peek self =? "." then true else has_decimal in
          (advance ;; number_loop fuel' has_decimal) self
        else Ok has_decimal self
  end.

Definition number (first_char : string) : M t unit :=
  start_position <- gets (fun self => (position self - 1)%nat) ;;
  fuel <- gets budget ;;
  has_decimal <- number_loop fuel (first_char =? ".") ;;
  number_str <- gets (fun self =>
                        slice (source self) start_position (position self)) ;;
  if has_decimal : bool
  then add_token FLOAT number_str
  else add_token INTEGER number_str.

Definition scan_token : M t unit :=
  char <- advance ;;
  if isspace char then ret tt
  else if char =? "#" then
    fuel <- gets budget ;; comment_loop fuel
  else match lookup char single_char_tokens with
  | Some ty =>
      is_ne <- (if char =? "!" then match_ "=" else ret false) ;;
      if is_ne : bool then add_token NOT_EQUAL "!="
      else add_token ty char
  | None =>
      if isalpha char || (char =? "_") then identifier
      else
        next <- gets peek ;;
        if isdigit char || ((char =? ".") && isdigit next)
        then number char
        else add_token UNKNOWN char
  end.

Fixpoint scan_loop (fuel : nat) : M t unit :=
  match fuel with
  | O => fun _ => NoFuel
  | S fuel' =>
      fun self =>
        if negb (is_at_end self)
        then (scan_token ;; scan_loop fuel') self
        else Ok tt self
  end.

Definition scan_tokens : M t (list Token) :=
  fuel <- gets budget ;;
  scan_loop fuel ;;
  add_token EOF "" ;;
  gets tokens.

End Lexer.

(** [Lexer(source).scan_tokens()] *)
Definition tokenize (source : string) : outcome Lexer.t (list Token) :=
  Lexer.scan_tokens (Lexer.init source).

(** [tokens[:-1]], as [main] strips the end marker before evaluating. *)
Definition strip_last (tokens : list Token) : list Token := removelast tokens.

(** ** Python numbers *)

Inductive value : Set :=
  | VInt (z : Z)
  | VFloat (f : float)
  | VComplex (re im : float).

(** A computation without state that returns or raises. *)
Inductive result (A : Type) : Type :=
  | Val (a : A)
  | Exc (e : exn).
Arguments Val {A} a.
Arguments Exc {A} e.

Definition lift {St A} (r : result A) : M St A :=
  fun s => match r with Val a => Ok a s | Exc e => Raise e s end.

Definition rbind {A B} (r : result A) (k : A -> result B) : result B :=
  match r with Val a => k a | Exc e => Exc e end.

Inductive binop : Set := Add | Sub | Mul | Div | Mod | Pow.

(** What the evaluator takes from the interpreter and the C library and
    this development does not define: the interpreter's limit on the
    digits of an integer literal ([sys.get_int_max_str_digits()], 0 for
    none), [float(str)], the library's sine and cosine, the float
    remainder and power, and arithmetic with a complex operand (which a
    power of a negative base can produce). *)
Record Runtime : Type :=
  { int_max_str_digits : nat;
    float_of_str : string -> result float;
    libm_sin : float -> float;
    libm_cos : float -> float;
    float_mod : float -> float -> float;
    float_pow : float -> float -> result value;
    complex_op : binop -> value -> value -> result value }.

(** *** [int(str)] *)

(** White space that [int] skips around the digits. *)
Definition int_space (c : ascii) : bool :=
  let n := N_of_ascii c in
  between 9 13 n || (n =? 32)%N || (n =? 133)%N || (n =? 160)%N.

Definition digit_of (c : ascii) : option Z :=
  let n := N_of_ascii c in
  if between 48 57 n then Some (Z.of_N n - 48) else None.

Fixpoint lstrip (s : string) : string :=
  match s with
  | String c s' => if int_space c then lstrip s' else s
  | EmptyString => s
  end.

(** The digits after the first one: single underscores between digits,
    then white space to the end. *)
Fixpoint int_digits (acc : Z) (s : string) : option Z :=
  match s with
  | EmptyString => Some acc
  | String c s' =>
      if Ascii.eqb c "_"%char then
        match s' with
        | String d s'' =>
            match digit_of d with
            | Some v => int_digits (10 * acc + v) s''
            | None => None
            end
        | EmptyString => None
        end
      else if int_space c then
        if all_chars int_space s' then Some acc else None
      else
        match digit_of c with
        | Some v => int_digits (10 * acc + v) s'
        | None => None
        end
  end.

Definition int_unsigned (s : string) : option Z :=
  match s with
  | String c s' =>
      match digit_of c with
      | Some v => int_digits v s'
      | None => None
      end
  | EmptyString => None
  end.

Fixpoint count_digits (s : string) : nat :=
  match s with
  | EmptyString => O
  | String c s' =>
      match digit_of c with
      | Some _ => S (count_digits s')
      | None => count_digits s'
      end
  end.

(** [int(s)] in base ten; a malformed literal is a [ValueError], and so
    is one of more than 640 digits that exceeds the interpreter's
    limit. *)
Definition py_int (max_str_digits : nat) (s : string) : result Z :=
  let s := lstrip s in
  let r :=
    match s with
    | String c s' =>
        if Ascii.eqb c "-"%char then option_map Z.opp (int_unsigned s')
        else if Ascii.eqb c "+"%char then int_unsigned s'
        else int_unsigned s
    | EmptyString => None
    end in
  let digits := count_digits s in
  match r with
  | Some z =>
      if ((640 <? digits) && (0 <? max_str_digits)
          && (max_str_digits <? digits))%nat
      then Exc ValueError
      else Val z
  | None => Exc ValueError
  end.

(** *** Conversions and arithmetic *)

(** The nearest double, ties to even. *)
Definition round_to_float (m e : Z) (negative_zero : bool) : float :=
  SF2Prim (binary_normalize prec emax m e negative_zero).

(** [float(z)] for an [int]: [OverflowError] past the largest double. *)
Definition float_of_int (z : Z) : result float :=
  let f := round_to_float z 0 false in
  if is_infinity f then Exc OverflowError else Val f.

(** [a / b] for two [int]s, [b] not zero: the correctly rounded
    quotient.  The quotient is computed with at least 56 bits and a
    sticky bit, then rounded once. *)
Definition int_true_divide (a b : Z) : result float :=
  let negate := xorb (a <? 0)%Z (b <? 0)%Z in
  let k := 56 - (Z.log2 (Z.abs a) - Z.log2 (Z.abs b)) in
  let num := if (0 <=? k)%Z then Z.abs a * 2 ^ k else Z.abs a in
  let den := if (0 <=? k)%Z then Z.abs b else Z.abs b * 2 ^ (- k) in
  let q := num / den in
  let sticky := if (num mod den =? 0)%Z then 0 else 1 in
  let m := 2 * q + sticky in
  let f := round_to_float (if negate then - m else m) (- k - 1) negate in
  if is_infinity f then Exc OverflowError else Val f.

Definition as_float (v : value) : result float :=
  match v with
  | VInt z => float_of_int z
  | VFloat f => Val f
  | VComplex _ _ => Exc TypeError
  end.

Section Arith.
Variable rt : Runtime.

Definition float_arith (op : binop) (x y : float) : result value :=
  match op with
  | Add => Val (VFloat (x + y))
  | Sub => Val (VFloat (x - y))
  | Mul => Val (VFloat (x * y))
  | Div =>
      if (y =? 0)%float then Exc ZeroDivisionError
      else Val (VFloat (x / y))
  | Mod =>
      if (y =? 0)%float then Exc ZeroDivisionError
      else Val (VFloat (float_mod rt x y))
  | Pow => float_pow rt x y
  end.

Definition int_arith (op : binop) (a b : Z) : result value :=
  match op with
  | Add => Val (VInt (a + b))
  | Sub => Val (VInt (a - b))
  | Mul => Val (VInt (a * b))
  | Div =>
      if (b =? 0)%Z then Exc ZeroDivisionError
      else rbind (int_true_divide a b) (fun f => Val (VFloat f))
  | Mod =>
      if (b =? 0)%Z then Exc ZeroDivisionError
      else Val (VInt (a mod b))
  | Pow =>
      if (b <? 0)%Z
      then rbind (float_of_int a) (fun x =>
           rbind (float_of_int b) (fun y => float_pow rt x y))
      else Val (VInt (a ^ b))
  end.

(** [left op right] for the operators of the evaluator. *)
Definition arith (op : binop) (left right : value) : result value :=
  match left, right with
  | VInt a, VInt b => int_arith op a b
  | VComplex _ _, _ | _, VComplex _ _ => complex_op rt op left right
  | _, _ =>
      rbind (as_float left) (fun x =>
      rbind (as_float right) (fun y => float_arith op x y))
  end.

(** [math.sin] and [math.cos]: the argument as a double, the library
    function, and a [ValueError] for a result outside its domain. *)
Definition math_1 (func : float -> float) (arg : value) : result value :=
  rbind (as_float arg) (fun x =>
    let r := func x in
    if is_nan r && negb (is_nan x) then Exc ValueError
    else if is_infinity r && is_finite x then Exc ValueError
    else Val (VFloat r)).

Definition math_sin : value -> result value := math_1 (libm_sin rt).
Definition math_cos : value -> result value := math_1 (libm_cos rt).

End Arith.

(** ** The evaluator *)

Section Calculate.
Variable rt : Runtime.
Variable tokens : list Token.

(** [tokens[pos]]: an [IndexError] outside the list. *)
Definition tokens_at_pos : M nat Token :=
  fun pos =>
    match nth_error tokens pos with
    | Some token => Ok token pos
    | None => Raise IndexError pos
    end.

Definition type_in (token : Token) (types : list TokenType) : bool :=
  existsb (TokenType_eqb (Token.type token)) types.

(** [pos < len(tokens) and tokens[pos].type in types] *)
Definition next_type_in (types : list TokenType) : M nat bool :=
  fun pos =>
    if (pos <? List.length tokens)%nat
    then (token <- tokens_at_pos ;; ret (type_in token types)) pos
    else Ok false pos.

Definition pos_increment : M nat unit := modify (fun pos => (pos + 1)%nat).

(** The nested functions of [calculate].  Every call spends one unit
    of [fuel]; [term_loop] and [factor_loop] are the two [while]
    loops, with the local [left] as their argument. *)
Fixpoint expression (fuel : nat) : M nat value :=
  match fuel with
  | O => fun _ => NoFuel
  | S fuel => term fuel
  end

with term (fuel : nat) : M nat value :=
  match fuel with
  | O => fun _ => NoFuel
  | S fuel =>
      left <- factor fuel ;;
      term_loop fuel left
  end

with term_loop (fuel : nat) (left : value) : M nat value :=
  match fuel with
  | O => fun _ => NoFuel
  | S fuel =>
      continue <- next_type_in [PLUS; MINUS] ;;
      if continue : bool then
        op <- tokens_at_pos ;;
        pos_increment ;;
        right <- factor fuel ;;
        left <- lift (match Token.type op with
                      | PLUS => arith rt Add left right
                      | MINUS => arith rt Sub left right
                      | _ => Val left
                      end) ;;
        term_loop fuel left
      else ret left
  end

with factor (fuel : nat) : M nat value :=
  match fuel with
  | O => fun _ => NoFuel
  | S fuel =>
      left <- power fuel ;;
      factor_loop fuel left
  end

with factor_loop (fuel : nat) (left : value) : M nat value :=
  match fuel with
  | O => fun _ => NoFuel
  | S fuel =>
      continue <- next_type_in [MULTIPLY; DIVIDE; MODULO] ;;
      if continue : bool then
        op <- tokens_at_pos ;;
        pos_increment ;;
        right <- power fuel ;;
        left <- lift (match Token.type op with
                      | MULTIPLY => arith rt Mul left right
                      | DIVIDE => arith rt Div left right
                      | MODULO => arith rt Mod left right
                      | _ => Val left
                      end) ;;
        factor_loop fuel left
      else ret left
  end

with power (fuel : nat) : M nat value :=
  match fuel with
  | O => fun _ => NoFuel
  | S fuel =>
      left <- primary fuel ;;
      is_power <- next_type_in [POWER] ;;
      if is_power : bool then
        pos_increment ;;
        right <- power fuel ;;
        lift (arith rt Pow left right)
      else ret left
  end

with primary (fuel : nat) : M nat value :=
  match fuel with
  | O => fun _ => NoFuel
  | S fuel =>
      (* a built-in applied to a parenthesized argument *)
      let call (func : value -> result value) : M nat value :=
        is_open <- next_type_in [LEFT_PAREN] ;;
        if is_open : bool then
          pos_increment ;;
          arg <- expression fuel ;;
          is_close <- next_type_in [RIGHT_PAREN] ;;
          if is_close : bool then
            pos_increment ;;
            lift (func arg)
          else ret (VInt 0)
        else ret (VInt 0) in
      token <- tokens_at_pos ;;
      pos_increment ;;
      match Token.type token with
      | INTEGER =>
          lift (rbind (py_int (int_max_str_digits rt) (Token.value token))
                      (fun z => Val (VInt z)))
      | FLOAT =>
          lift (rbind (float_of_str rt (Token.value token))
                      (fun f => Val (VFloat f)))
      | IDENTIFIER =>
          if Token.value token =? "sin" then call (math_sin rt)
          else if Token.value token =? "cos" then call (math_cos rt)
          else ret (VInt 0)
      | LEFT_PAREN =>
          result <- expression fuel ;;
          is_close <- next_type_in [RIGHT_PAREN] ;;
          if is_close : bool then
            pos_increment ;;
            ret result
          else ret (VInt 0)
      | _ => ret (VInt 0)
      end
  end.

(** Five calls separate one consumed token from the next, so this
    budget is never used up ([calculate_total]). *)
Definition calculate_fuel : nat := (5 * List.length tokens + 5)%nat.

(** [calculate(tokens)]: the cursor starts at 0; the outcome carries
    the value returned (or the exception raised) and the final
    cursor. *)
Definition calculate : outcome nat value := expression calculate_fuel 0%nat.

End Calculate.

(** The demonstration of [main]: scan, drop the end marker, evaluate. *)
Definition evaluate (rt : Runtime) (source : string) : outcome nat value :=
  match tokenize source with
  | Ok tokens _ => calculate rt (strip_last tokens)
  | Raise e _ => Raise e 0%nat
  | NoFuel => NoFuel
  end.

(** ** The content of a source text, as the specification words it *)

(** The characters of the source that are neither white space nor part
    of a comment, in order; a comment runs from [#] to the end of its
    line.  [in_comment] tells whether the character read lies in one. *)
Fixpoint strip (in_comment : bool) (s : string) : string :=
  match s with
  | EmptyString => EmptyString
  | String c s' =>
      if in_comment then
        if Ascii.eqb c "010"%char then strip false s' else strip true s'
      else if Ascii.eqb c "#"%char then strip true s'
      else if isspace_char c then strip false s'
      else String c (strip false s')
  end.

Definition content (source : string) : string := strip false source.

(** The lexemes of a token sequence, concatenated. *)
Fixpoint lexemes (tokens : list Token) : string :=
  match tokens with
  | [] => EmptyString
  | token :: tokens' => Token.value token ++ lexemes tokens'
  end.

(** A runtime for the closed examples below, none of which reaches the
    floating-point library: the default limit on integer literals, no
    float literal, and library functions that answer [nan]. *)
Definition bare_runtime : Runtime :=
  {| int_max_str_digits := 4300;
     float_of_str := fun _ => Exc ValueError;
     libm_sin := fun _ => nan;
     libm_cos := fun _ => nan;
     float_mod := fun _ _ => nan;
     float_pow := fun _ _ => Exc OverflowError;
     complex_op := fun _ _ _ => Exc TypeError |}.

(** * Properties *)

(** ** Strings *)

(** The suffix [s[n:]]. *)
Fixpoint drop (n : nat) (s : string) : string :=
  match n, s with
  | O, _ => s
  | S n', String _ s' => drop n' s'
  | S _, EmptyString => EmptyString
  end.

Lemma append_nil_r (s : string) : s ++ "" = s.
Proof. induction s; simpl; congruence. Qed.

Lemma append_assoc (a b c : string) : (a ++ b) ++ c = a ++ (b ++ c).
Proof. induction a; simpl; congruence. Qed.

Lemma length_append (a b : string) :
  String.length (a ++ b) = (String.length a + String.length b)%nat.
Proof. induction a; simpl; congruence. Qed.

Lemma drop_all (n : nat) (s : string) :
  (String.length s <= n)%nat -> drop n s = "".
Proof.
  revert s; induction n; intros [|c s] H; simpl in *; auto; try lia.
  apply IHn; lia.
Qed.

Lemma drop_get (n : nat) (s : string) (c : ascii) :
  String.get n s = Some c -> drop n s = String c (drop (S n) s).
Proof.
  revert s; induction n; intros [|a s] H; simpl in *; try discriminate.
  - congruence.
  - now apply IHn.
Qed.

Lemma get_some (n : nat) (s : string) :
  (n < String.length s)%nat -> exists c, String.get n s = Some c.
Proof.
  revert s; induction n; intros [|a s] H; simpl in *; try lia; eauto.
  apply IHn; lia.
Qed.

Lemma substring_app (w r : string) :
  String.substring 0 (String.length w) (w ++ r) = w.
Proof. induction w; simpl; [destruct r; auto | congruence]. Qed.

(** A slice is the text between two suffixes. *)
Lemma slice_drop (s w r : string) (a b : nat) :
  drop a s = w ++ r -> (b - a)%nat = String.length w ->
  (a <= String.length s)%nat -> slice s a b = w.
Proof.
  unfold slice; intros H ->; revert s H.
  induction a; intros s H Ha; simpl in H.
  - subst s; apply substring_app.
  - destruct s as [|c s]; simpl in *; [lia|].
    apply IHa; auto; lia.
Qed.

Lemma length_drop (n : nat) (s : string) :
  String.length (drop n s) = (String.length s - n)%nat.
Proof.
  revert s; induction n; intros [|a s]; simpl; auto.
Qed.

(** ** Characters *)

Definition all_ascii : list ascii := map ascii_of_nat (seq 0 256).

Lemma ascii_forall (P : ascii -> bool) :
  forallb P all_ascii = true -> forall c, P c = true.
Proof.
  intros H c.
  rewrite forallb_forall in H; apply H.
  rewrite <- (ascii_nat_embedding c).
  apply in_map, in_seq.
  pose proof (nat_ascii_bounded c); lia.
Qed.

(** What [strip] keeps outside a comment. *)
Definition kept (c : ascii) : bool :=
  negb (isspace_char c) && negb (Ascii.eqb c "#"%char).

Lemma alnum_kept (c : ascii) :
  isalnum_char c || Ascii.eqb c "_"%char = true -> kept c = true.
Proof.
  revert c.
  assert (H : forall c, implb (isalnum_char c || Ascii.eqb c "_"%char)
                              (kept c) = true)
    by (apply ascii_forall; vm_compute; reflexivity).
  intros c Hc; specialize (H c); rewrite Hc in H; exact H.
Qed.

Lemma digit_kept (c : ascii) :
  isdigit_char c || Ascii.eqb c "."%char = true -> kept c = true.
Proof.
  revert c.
  assert (H : forall c, implb (isdigit_char c || Ascii.eqb c "."%char)
                              (kept c) = true)
    by (apply ascii_forall; vm_compute; reflexivity).
  intros c Hc; specialize (H c); rewrite Hc in H; exact H.
Qed.

Lemma strip_kept (w r : string) :
  all_chars kept w = true -> strip false (w ++ r) = w ++ strip false r.
Proof.
  induction w as [|c w IH]; simpl; auto.
  unfold kept at 1; intros H.
  apply andb_prop in H as [Hc Hw]; apply andb_prop in Hc as [H1 H2].
  apply negb_true_iff in H1, H2.
  rewrite H2, H1, IH; auto.
Qed.

Definition not_nl (c : ascii) : bool := negb (Ascii.eqb c "010"%char).

(** Inside a comment nothing is kept up to the line feed. *)
Lemma strip_comment (w r : string) :
  all_chars not_nl w = true ->
  strip true (w ++ r) = strip true r.
Proof.
  induction w as [|c w IH]; simpl; auto.
  intros H; apply andb_prop in H as [Hc Hw].
  unfold not_nl in Hc; apply negb_true_iff in Hc; rewrite Hc; auto.
Qed.

Lemma space_not_hash (c : ascii) :
  isspace_char c = true -> Ascii.eqb c "#"%char = false.
Proof.
  intros H; destruct (Ascii.eqb c "#"%char) eqn:E; auto.
  apply Ascii.eqb_eq in E; subst c; discriminate H.
Qed.

Lemma strip_comment_end (r : string) :
  r = "" \/ (exists r', r = String "010"%char r') ->
  strip true r = strip false r.
Proof. intros [-> | [r' ->]]; reflexivity. Qed.

Lemma lexemes_app (a b : list Token) :
  lexemes (a ++ b)%list = lexemes a ++ lexemes b.
Proof.
  induction a; simpl; auto. now rewrite IHa, append_assoc.
Qed.

(** ** The lexer *)

Module LexerFacts.
Import Lexer.

(** The part of the source that is still to be read. *)
Definition rest (self : t) : string := drop (position self) (source self).

(** [self'] is [self] after reading [w] and emitting [new]. *)
Definition extends (self self' : t) (w : string) (new : list Token) : Prop :=
  source self' = source self
  /\ position self' = (position self + String.length w)%nat
  /\ tokens self' = (tokens self ++ new)%list
  /\ rest self = w ++ rest self'.

Lemma extends_refl (self : t) : extends self self "" [].
Proof.
  unfold extends; simpl; rewrite app_nil_r, Nat.add_0_r; auto.
Qed.

Lemma extends_trans (a b c : t) (w1 w2 : string) (n1 n2 : list Token) :
  extends a b w1 n1 -> extends b c w2 n2 ->
  extends a c (w1 ++ w2) (n1 ++ n2)%list.
Proof.
  intros (S1 & P1 & T1 & R1) (S2 & P2 & T2 & R2); unfold extends.
  rewrite S2, S1, P2, P1, T2, T1, R1, R2, length_append, app_assoc,
    append_assoc.
  repeat split; lia.
Qed.
Arguments extends_trans {a b c w1 w2 n1 n2} _ _.

Lemma rest_bound (self : t) :
  rest self <> "" -> (position self < String.length (source self))%nat.
Proof.
  intros H. destruct (Nat.lt_ge_cases (position self)
                        (String.length (source self))); auto.
  exfalso; apply H; now apply drop_all.
Qed.

Lemma is_at_end_rest (self : t) :
  is_at_end self = match rest self with "" => true | _ => false end.
Proof.
  unfold is_at_end.
  destruct (rest self) eqn:E.
  - apply Nat.leb_le.
    pose proof (length_drop (position self) (source self)) as L.
    fold (rest self) in L; rewrite E in L; simpl in L; lia.
  - apply Nat.leb_gt, rest_bound; rewrite E; discriminate.
Qed.

Lemma index_rest (self : t) (c : ascii) (r : string) :
  rest self = String c r ->
  index (source self) (position self) = Some (String c "")
  /\ drop (S (position self)) (source self) = r.
Proof.
  intros E.
  assert (B : (position self < String.length (source self))%nat)
    by (apply rest_bound; rewrite E; discriminate).
  destruct (get_some _ _ B) as [c' G].
  pose proof (drop_get _ _ _ G) as D.
  unfold rest in E; rewrite E in D; inversion D; subst.
  unfold index; rewrite G; auto.
Qed.

Lemma peek_rest (self : t) :
  peek self = match rest self with "" => "" | String c _ => String c "" end.
Proof.
  unfold peek; rewrite is_at_end_rest.
  destruct (rest self) eqn:E; auto.
  apply index_rest in E as [-> _]; auto.
Qed.

Lemma advance_rest (self : t) (c : ascii) (r : string) :
  rest self = String c r ->
  exists self',
    advance self = Ok (String c "") self'
    /\ extends self self' (String c "") [] /\ rest self' = r.
Proof.
  intros E; pose proof (index_rest _ _ _ E) as [I D].
  unfold advance; rewrite I.
  eexists; split; [reflexivity|].
  assert (R : forall l k, rest (mk (source self) (position self + 1) l k
                                    (tokens self)) = r)
    by (intros; unfold rest; simpl; now rewrite Nat.add_1_r).
  destruct (String c "" =? NL); simpl; unfold extends; simpl;
    rewrite R, app_nil_r, E; auto.
Qed.

Lemma add_token_extends (ty : TokenType) (v : string) (self : t) :
  v <> "" ->
  exists self',
    add_token ty v self = Ok tt self'
    /\ extends self self' ""
         [Token.mk ty v (line self)
            (column self - Z.of_nat (String.length v))]
    /\ rest self' = rest self.
Proof.
  intros Hv; unfold add_token.
  apply String.eqb_neq in Hv; rewrite Hv.
  eexists; split; [reflexivity|].
  unfold extends, rest; simpl; rewrite Nat.add_0_r; auto.
Qed.

Lemma str_pred_char (p : ascii -> bool) (c : ascii) :
  str_pred p (String c "") = p c.
Proof. simpl; apply andb_true_r. Qed.

Lemma char_eqb (c d : ascii) :
  (String c "" =? String d "") = Ascii.eqb c d.
Proof. simpl; destruct (Ascii.eqb c d); reflexivity. Qed.

Ltac look E :=
  rewrite ?peek_rest, ?is_at_end_rest, ?E; unfold NL;
  unfold isalnum, isdigit, isalpha, isspace;
  rewrite ?str_pred_char, ?char_eqb; cbn [negb andb orb].

Ltac step_advance E self1 A X R :=
  destruct (advance_rest _ _ _ E) as (self1 & A & X & R);
  unfold bind at 1; rewrite A.

Lemma comment_loop_spec (fuel : nat) (self : t) :
  (String.length (rest self) < fuel)%nat ->
  exists self' w,
    comment_loop fuel self = Ok tt self'
    /\ extends self self' w []
    /\ all_chars not_nl w = true
    /\ (rest self' = "" \/ exists r, rest self' = String "010"%char r).
Proof.
  revert self; induction fuel as [|fuel IH]; intros self H; [lia|].
  cbn [comment_loop].
  destruct (rest self) as [|c r] eqn:E; look E.
  - exists self, ""; split; [reflexivity|].
    split; [apply extends_refl|]; auto.
  - destruct (Ascii.eqb c "010"%char) eqn:Hc; cbn [negb andb].
    + apply Ascii.eqb_eq in Hc; subst c.
      exists self, ""; split; [reflexivity|].
      split; [apply extends_refl|]; eauto.
    + step_advance E self1 A X R.
      destruct (IH self1) as (self' & w & L & X' & W & T).
      { rewrite R; simpl in H; lia. }
      exists self', (String c w); split; [exact L|].
      split; [apply (extends_trans X X')|].
      split; [|exact T].
      simpl; unfold not_nl at 1; now rewrite Hc.
Qed.

Lemma identifier_loop_spec (fuel : nat) (self : t) :
  (String.length (rest self) < fuel)%nat ->
  exists self' w,
    identifier_loop fuel self = Ok tt self'
    /\ extends self self' w [] /\ all_chars kept w = true.
Proof.
  revert self; induction fuel as [|fuel IH]; intros self H; [lia|].
  cbn [identifier_loop].
  destruct (rest self) as [|c r] eqn:E; look E.
  - exists self, ""; split; [reflexivity|].
    split; [apply extends_refl|]; auto.
  - destruct (isalnum_char c || Ascii.eqb c "_"%char) eqn:Hc.
    + step_advance E self1 A X R.
      destruct (IH self1) as (self' & w & L & X' & W).
      { rewrite R; simpl in H; lia. }
      exists self', (String c w); split; [exact L|].
      split; [apply (extends_trans X X')|].
      simpl; now rewrite (alnum_kept _ Hc).
    + exists self, ""; split; [reflexivity|].
      split; [apply extends_refl|]; auto.
Qed.

Lemma number_loop_spec (fuel : nat) (has_decimal : bool) (self : t) :
  (String.length (rest self) < fuel)%nat ->
  exists self' w d,
    number_loop fuel has_decimal self = Ok d self'
    /\ extends self self' w [] /\ all_chars kept w = true.
Proof.
  revert self has_decimal; induction fuel as [|fuel IH];
    intros self has_decimal H; [lia|].
  cbn [number_loop].
  destruct (rest self) as [|c r] eqn:E; look E.
  - exists self, "", has_decimal; split; [reflexivity|].
    split; [apply extends_refl|]; auto.
  - destruct (isdigit_char c || Ascii.eqb c "."%char && negb has_decimal)
      eqn:Hc.
    + step_advance E self1 A X R.
      destruct (IH self1 (if Ascii.eqb c "."%char then true else has_decimal))
        as (self' & w & d & L & X' & W).
      { rewrite R; simpl in H; lia. }
      exists self', (String c w), d; split; [exact L|].
      split; [apply (extends_trans X X')|].
      simpl; rewrite digit_kept; auto.
      destruct (isdigit_char c), (Ascii.eqb c "."%char); auto.
    + exists self, "", has_decimal; split; [reflexivity|].
      split; [apply extends_refl|]; auto.
Qed.

(** The kinds [scan_token] emits. *)
Definition scanned (tok : Token) : Prop :=
  Token.type tok <> EOF /\ Token.type tok <> NOT_EQUAL.

Lemma keywords_scanned (k : string) (ty : TokenType) :
  lookup k keywords = Some ty -> ty <> EOF /\ ty <> NOT_EQUAL.
Proof.
  unfold keywords; cbn [lookup].
  repeat (match goal with
          | |- context [if k =? ?x then _ else _] =>
              destruct (k =? x); [intros [= <-]; split; discriminate|]
          end).
  discriminate.
Qed.

Lemma single_char_scanned (k : string) (ty : TokenType) :
  lookup k single_char_tokens = Some ty ->
  ty <> EOF /\ ty <> NOT_EQUAL /\ (k =? "!") = false.
Proof.
  unfold single_char_tokens; cbn [lookup].
  repeat (match goal with
          | |- context [if k =? ?x then _ else _] =>
              let H := fresh in
              destruct (k =? x) eqn:H;
              [ intros [= <-]; apply String.eqb_eq in H; subst k;
                repeat split; (discriminate || reflexivity) |]
          end).
  discriminate.
Qed.

Lemma budget_enough (self : t) :
  (String.length (rest self) < budget self)%nat.
Proof.
  unfold budget, rest; rewrite length_drop; lia.
Qed.

(** The lexeme of a token that starts one character back: the slice
    from there to the cursor. *)
Lemma lexeme_slice (self self' : t) (p0 : nat) (c0 : ascii) (w : string) :
  position self = S p0 ->
  drop p0 (source self) = String c0 (rest self) ->
  extends self self' w [] ->
  slice (source self') (position self - 1) (position self') = String c0 w.
Proof.
  intros P D (S1 & P1 & _ & R1).
  rewrite S1, P1, P; apply slice_drop with (r := rest self').
  - replace (S p0 - 1)%nat with p0 by lia.
    rewrite D, R1; reflexivity.
  - cbn [String.length]; lia.
  - replace (S p0 - 1)%nat with p0 by lia.
    destruct (Nat.le_gt_cases p0 (String.length (source self))); auto.
    rewrite drop_all in D by lia; discriminate.
Qed.

Lemma identifier_spec (self : t) (p0 : nat) (c0 : ascii) :
  position self = S p0 ->
  drop p0 (source self) = String c0 (rest self) ->
  exists self' w tok,
    identifier self = Ok tt self' /\ extends self self' w [tok]
    /\ Token.value tok = String c0 w /\ all_chars kept w = true
    /\ scanned tok.
Proof.
  intros P D; unfold identifier, bind, gets.
  destruct (identifier_loop_spec _ _ (budget_enough self))
    as (self1 & w & L & X & W); rewrite L.
  rewrite (lexeme_slice _ _ _ _ _ P D X).
  assert (N : String c0 w <> "") by discriminate.
  destruct (lookup (String c0 w) keywords) as [kw|] eqn:K.
  - destruct (add_token_extends kw _ self1 N) as (self' & T & X' & _).
    exists self', w, (Token.mk kw (String c0 w) (line self1)
                  (column self1 - Z.of_nat (String.length (String c0 w)))).
    split; [exact T|]; split.
    + generalize (extends_trans X X'); now rewrite append_nil_r.
    + repeat split; auto; apply (keywords_scanned _ _ K).
  - destruct (add_token_extends IDENTIFIER _ self1 N) as (self' & T & X' & _).
    exists self', w, (Token.mk IDENTIFIER (String c0 w) (line self1)
                  (column self1 - Z.of_nat (String.length (String c0 w)))).
    split; [exact T|]; split.
    + generalize (extends_trans X X'); now rewrite append_nil_r.
    + repeat split; auto; discriminate.
Qed.

Lemma number_spec (first_char : string) (self : t) (p0 : nat) (c0 : ascii) :
  position self = S p0 ->
  drop p0 (source self) = String c0 (rest self) ->
  exists self' w tok,
    number first_char self = Ok tt self' /\ extends self self' w [tok]
    /\ Token.value tok = String c0 w /\ all_chars kept w = true
    /\ scanned tok.
Proof.
  intros P D; unfold number, bind, gets.
  destruct (number_loop_spec _ (first_char =? ".") _ (budget_enough self))
    as (self1 & w & d & L & X & W); rewrite L.
  rewrite (lexeme_slice _ _ _ _ _ P D X).
  assert (N : String c0 w <> "") by discriminate.
  destruct d.
  - destruct (add_token_extends FLOAT _ self1 N) as (self' & T & X' & _).
    exists self', w, (Token.mk FLOAT (String c0 w) (line self1)
                  (column self1 - Z.of_nat (String.length (String c0 w)))).
    split; [exact T|]; split.
    + generalize (extends_trans X X'); now rewrite append_nil_r.
    + repeat split; auto; discriminate.
  - destruct (add_token_extends INTEGER _ self1 N) as (self' & T & X' & _).
    exists self', w, (Token.mk INTEGER (String c0 w) (line self1)
                  (column self1 - Z.of_nat (String.length (String c0 w)))).
    split; [exact T|]; split.
    + generalize (extends_trans X X'); now rewrite append_nil_r.
    + repeat split; auto; discriminate.
Qed.

Lemma token_case (self self1 self' : t) (c : ascii) (w : string)
      (tok : Token) :
  extends self self1 (String c "") [] ->
  extends self1 self' w [tok] ->
  Token.value tok = String c w ->
  kept c = true -> all_chars kept w = true -> scanned tok ->
  extends self self' (String c w) [tok]
  /\ Forall scanned [tok]
  /\ strip false (rest self) = lexemes [tok] ++ strip false (rest self').
Proof.
  intros X X' V Kc Kw Sc.
  pose proof (extends_trans X X') as XX; cbn [append app] in XX.
  split; [exact XX|]; split; [auto|].
  destruct XX as (_ & _ & _ & ->).
  cbn [lexemes]; rewrite V, append_nil_r.
  apply strip_kept; simpl; now rewrite Kc.
Qed.

(** One scanning step reads at least one character, emits tokens of
    the scanned kinds only, and their lexemes are the content of what
    it read. *)
Lemma scan_token_spec (self : t) (c : ascii) (r : string) :
  rest self = String c r ->
  exists self' w new,
    scan_token self = Ok tt self'
    /\ extends self self' (String c w) new
    /\ Forall scanned new
    /\ strip false (rest self) = lexemes new ++ strip false (rest self').
Proof.
  intros E; unfold scan_token.
  step_advance E self1 A X R.
  unfold isspace; rewrite str_pred_char.
  destruct (isspace_char c) eqn:Hs.
  { exists self1, "", []; split; [reflexivity|].
    split; [exact X|]; split; [constructor|].
    rewrite E, R; simpl.
    now rewrite (space_not_hash _ Hs), Hs. }
  change "#" with (String "#"%char ""); rewrite char_eqb.
  destruct (Ascii.eqb c "#"%char) eqn:Hh.
  { unfold bind, gets.
    destruct (comment_loop_spec _ _ (budget_enough self1))
      as (self' & w & L & X' & W & T); rewrite L.
    exists self', w, []; split; [reflexivity|].
    split; [exact (extends_trans X X')|]; split; [constructor|].
    rewrite E; simpl; rewrite Hh.
    destruct X' as (_ & _ & _ & R'); rewrite R in R'; rewrite R'.
    rewrite strip_comment by exact W.
    now apply strip_comment_end. }
  assert (Kc : kept c = true) by (unfold kept; now rewrite Hs, Hh).
  assert (P : position self1 = S (position self))
    by (destruct X as (_ & -> & _); simpl; lia).
  assert (D : drop (position self) (source self1) = String c (rest self1)).
  { destruct X as (-> & _); fold (rest self); now rewrite E, R. }
  assert (N : String c "" <> "") by discriminate.
  destruct (lookup (String c "") single_char_tokens) as [ty|] eqn:K.
  { destruct (single_char_scanned _ _ K) as (N1 & N2 & N3).
    rewrite N3; unfold bind, ret.
    destruct (add_token_extends ty _ self1 N) as (self' & T & X' & _).
    rewrite T; eexists self', "", _; split; [reflexivity|].
    eapply token_case; eauto. split; auto. }
  unfold isalpha; rewrite str_pred_char.
  change "_" with (String "_"%char ""); rewrite char_eqb.
  destruct (isalpha_char c || Ascii.eqb c "_"%char).
  { destruct (identifier_spec _ _ _ P D)
      as (self' & w & tok & I & X' & V & W & Sc).
    rewrite I; exists self', w, [tok]; split; [reflexivity|].
    eapply token_case; eauto. }
  unfold bind at 1, gets at 1.
  destruct (isdigit (String c "")
            || (String c "" =? ".") && isdigit (peek self1)).
  { destruct (number_spec (String c "") _ _ _ P D)
      as (self' & w & tok & I & X' & V & W & Sc).
    rewrite I; exists self', w, [tok]; split; [reflexivity|].
    eapply token_case; eauto. }
  destruct (add_token_extends UNKNOWN _ self1 N) as (self' & T & X' & _).
  rewrite T; eexists self', "", _; split; [reflexivity|].
  eapply token_case; eauto. split; discriminate.
Qed.

Lemma scan_loop_spec (fuel : nat) (self : t) :
  (String.length (rest self) < fuel)%nat ->
  exists self' new,
    scan_loop fuel self = Ok tt self'
    /\ source self' = source self
    /\ tokens self' = (tokens self ++ new)%list
    /\ Forall scanned new
    /\ strip false (rest self) = lexemes new.
Proof.
  revert self; induction fuel as [|fuel IH]; intros self H; [lia|].
  cbn [scan_loop]; rewrite is_at_end_rest.
  destruct (rest self) as [|c r] eqn:E; cbn [negb].
  - exists self, []; rewrite app_nil_r; repeat split; auto.
  - destruct (scan_token_spec _ _ _ E)
      as (self1 & w & new1 & T & (S1 & P1 & T1 & R1) & F1 & C1).
    unfold bind; rewrite T.
    destruct (IH self1) as (self' & new & L & S2 & T2 & F2 & C2).
    { rewrite E in R1; pose proof (f_equal String.length R1) as Q.
      rewrite length_append in Q; simpl in Q, H; lia. }
    exists self', (new1 ++ new)%list; split; [exact L|].
    rewrite S2, T2, T1, app_assoc, lexemes_app, <- C2, <- E.
    repeat split; auto using Forall_app.
    apply Forall_app; auto.
Qed.

(** The whole scan: the scanned tokens, then the end marker, whose
    column is the final column less the three characters of its
    name. *)
Lemma scan_tokens_spec (src : string) :
  exists new l k final,
    tokenize src = Ok (new ++ [Token.mk EOF "EOF" l (k - 3)])%list final
    /\ Forall scanned new
    /\ lexemes new = content src.
Proof.
  unfold tokenize, scan_tokens, bind, gets.
  destruct (scan_loop_spec _ _ (budget_enough (init src)))
    as (self' & new & L & S1 & T1 & F & C).
  rewrite L; cbn.
  eexists new, _, _, _; split; [rewrite T1; reflexivity|]; split; auto.
Qed.

End LexerFacts.

(** ** The evaluator *)

Section CalculateFacts.
Variable rt : Runtime.
Variable tokens : list Token.

(** *** The equations of the nested functions *)

Lemma expression_S (fuel : nat) :
  expression rt tokens (S fuel) = term rt tokens fuel.
Proof. reflexivity. Qed.

Lemma term_S (fuel : nat) :
  term rt tokens (S fuel)
  = (left <- factor rt tokens fuel ;; term_loop rt tokens fuel left).
Proof. reflexivity. Qed.

Lemma term_loop_S (fuel : nat) (left : value) :
  term_loop rt tokens (S fuel) left
  = (continue <- next_type_in tokens [PLUS; MINUS] ;;
     if continue : bool then
       op <- tokens_at_pos tokens ;;
       pos_increment ;;
       right <- factor rt tokens fuel ;;
       left <- lift (match Token.type op with
                     | PLUS => arith rt Add left right
                     | MINUS => arith rt Sub left right
                     | _ => Val left
                     end) ;;
       term_loop rt tokens fuel left
     else ret left).
Proof. reflexivity. Qed.

Lemma factor_S (fuel : nat) :
  factor rt tokens (S fuel)
  = (left <- power rt tokens fuel ;; factor_loop rt tokens fuel left).
Proof. reflexivity. Qed.

Lemma factor_loop_S (fuel : nat) (left : value) :
  factor_loop rt tokens (S fuel) left
  = (continue <- next_type_in tokens [MULTIPLY; DIVIDE; MODULO] ;;
     if continue : bool then
       op <- tokens_at_pos tokens ;;
       pos_increment ;;
       right <- power rt tokens fuel ;;
       left <- lift (match Token.type op with
                     | MULTIPLY => arith rt Mul left right
                     | DIVIDE => arith rt Div left right
                     | MODULO => arith rt Mod left right
                     | _ => Val left
                     end) ;;
       factor_loop rt tokens fuel left
     else ret left).
Proof. reflexivity. Qed.

Lemma power_S (fuel : nat) :
  power rt tokens (S fuel)
  = (left <- primary rt tokens fuel ;;
     is_power <- next_type_in tokens [POWER] ;;
     if is_power : bool then
       pos_increment ;;
       right <- power rt tokens fuel ;;
       lift (arith rt Pow left right)
     else ret left).
Proof. reflexivity. Qed.

(** The call of a built-in in [primary], after its name. *)
Definition call (fuel : nat) (func : value -> result value) : M nat value :=
  is_open <- next_type_in tokens [LEFT_PAREN] ;;
  if is_open : bool then
    pos_increment ;;
    arg <- expression rt tokens fuel ;;
    is_close <- next_type_in tokens [RIGHT_PAREN] ;;
    if is_close : bool then
      pos_increment ;;
      lift (func arg)
    else ret (VInt 0)
  else ret (VInt 0).

Lemma primary_S (fuel : nat) :
  primary rt tokens (S fuel)
  = (token <- tokens_at_pos tokens ;;
     pos_increment ;;
     match Token.type token with
     | INTEGER =>
         lift (rbind (py_int (int_max_str_digits rt) (Token.value token))
                     (fun z => Val (VInt z)))
     | FLOAT =>
         lift (rbind (float_of_str rt (Token.value token))
                     (fun f => Val (VFloat f)))
     | IDENTIFIER =>
         if Token.value token =? "sin" then call fuel (math_sin rt)
         else if Token.value token =? "cos" then call fuel (math_cos rt)
         else ret (VInt 0)
     | LEFT_PAREN =>
         result <- expression rt tokens fuel ;;
         is_close <- next_type_in tokens [RIGHT_PAREN] ;;
         if is_close : bool then
           pos_increment ;;
           ret result
         else ret (VInt 0)
     | _ => ret (VInt 0)
     end).
Proof. reflexivity. Qed.

Lemma next_type_in_eq (types : list TokenType) (pos : nat) :
  next_type_in tokens types pos
  = Ok (match nth_error tokens pos with
        | Some token => type_in token types
        | None => false
        end) pos.
Proof.
  unfold next_type_in, bind, tokens_at_pos, ret.
  destruct (pos <? List.length tokens)%nat eqn:E.
  - apply Nat.ltb_lt, nth_error_Some in E.
    destruct (nth_error tokens pos); congruence.
  - apply Nat.ltb_ge, nth_error_None in E; now rewrite E.
Qed.

Definition peek_in (types : list TokenType) (pos : nat) : bool :=
  match nth_error tokens pos with
  | Some token => type_in token types
  | None => false
  end.

Lemma read_eq {B : Type} (k : Token -> M nat B) (pos : nat) :
  (token <- tokens_at_pos tokens ;; pos_increment ;; k token) pos
  = match nth_error tokens pos with
    | Some token => k token (pos + 1)%nat
    | None => Raise IndexError pos
    end.
Proof.
  unfold bind, tokens_at_pos, pos_increment, modify.
  now destruct (nth_error tokens pos).
Qed.

Lemma next_inc_eq {B : Type} (types : list TokenType) (k1 k2 : M nat B)
      (pos : nat) :
  (c <- next_type_in tokens types ;;
   if c : bool then pos_increment ;; k1 else k2) pos
  = if peek_in types pos then k1 (pos + 1)%nat else k2 pos.
Proof.
  unfold bind at 1; rewrite next_type_in_eq; fold (peek_in types pos).
  now destruct (peek_in types pos).
Qed.

Lemma next_read_eq {B : Type} (types : list TokenType)
      (k1 : Token -> M nat B) (k2 : M nat B) (pos : nat) :
  (c <- next_type_in tokens types ;;
   if c : bool
   then token <- tokens_at_pos tokens ;; pos_increment ;; k1 token
   else k2) pos
  = match nth_error tokens pos with
    | Some token =>
        if type_in token types then k1 token (pos + 1)%nat else k2 pos
    | None => k2 pos
    end.
Proof.
  unfold bind at 1; rewrite next_type_in_eq.
  destruct (nth_error tokens pos) as [token|] eqn:E; auto.
  destruct (type_in token types); auto.
  now rewrite read_eq, E.
Qed.

(** *** The cursor stays within the tokens, and the fuel suffices *)

(** [m], started with at most [n] tokens ahead of the cursor, ends
    with the cursor between where it started and the end of the
    tokens, and within its fuel. *)
Definition safe {A : Type} (n : nat) (m : M nat A) : Prop :=
  forall pos : nat,
    (pos <= List.length tokens)%nat ->
    (List.length tokens - pos <= n)%nat ->
    match m pos with
    | Ok _ p | Raise _ p => (pos <= p <= List.length tokens)%nat
    | NoFuel => False
    end.

Lemma safe_ret {A : Type} (n : nat) (a : A) : safe n (ret a).
Proof. intros pos H1 H2; simpl; lia. Qed.

Lemma safe_lift {A : Type} (n : nat) (r : result A) : safe n (lift r).
Proof. intros pos H1 H2; destruct r; simpl; lia. Qed.

Lemma safe_next (n : nat) (types : list TokenType) :
  safe n (next_type_in tokens types).
Proof. intros pos H1 H2; rewrite next_type_in_eq; lia. Qed.

Lemma safe_bind {A B : Type} (n : nat) (m : M nat A) (k : A -> M nat B) :
  safe n m -> (forall a, safe n (k a)) -> safe n (bind m k).
Proof.
  intros Hm Hk pos H1 H2; unfold bind.
  specialize (Hm pos H1 H2); destruct (m pos) as [a p|e p|]; auto.
  specialize (Hk a p); destruct (k a p); lia.
Qed.

(** Reading the token under the cursor and stepping over it. *)
Lemma safe_read {B : Type} (n : nat) (k : Token -> M nat B) :
  (forall n', n = S n' -> forall token, safe n' (k token)) ->
  safe n (token <- tokens_at_pos tokens ;; pos_increment ;; k token).
Proof.
  intros Hk pos H1 H2; unfold bind, tokens_at_pos, pos_increment, modify.
  destruct (nth_error tokens pos) as [token|] eqn:E; [|lia].
  assert (pos < List.length tokens)%nat
    by (apply nth_error_Some; congruence).
  destruct n as [|n']; [lia|].
  specialize (Hk n' eq_refl token (pos + 1)%nat).
  destruct (k token (pos + 1)%nat); lia.
Qed.

(** Stepping over the token under the cursor once its kind is seen. *)
Lemma safe_next_inc {B : Type} (n : nat) (types : list TokenType)
      (k1 k2 : M nat B) :
  (forall n', n = S n' -> safe n' k1) -> safe n k2 ->
  safe n (c <- next_type_in tokens types ;;
          if c : bool then pos_increment ;; k1 else k2).
Proof.
  intros H1 H2 pos B1 B2; unfold bind at 1; rewrite next_type_in_eq.
  destruct (nth_error tokens pos) as [token|] eqn:E; [|now apply H2].
  destruct (type_in token types); [|now apply H2].
  assert (pos < List.length tokens)%nat
    by (apply nth_error_Some; congruence).
  unfold bind, pos_increment, modify.
  destruct n as [|n']; [lia|].
  specialize (H1 n' eq_refl (pos + 1)%nat).
  destruct (k1 (pos + 1)%nat); lia.
Qed.

Ltac safe_step :=
  first
    [ apply safe_ret
    | apply safe_lift
    | apply safe_read; intros ? ? ?
    | apply safe_next_inc; [intros ? ?|]
    | apply safe_bind; [apply safe_next|intros [|]]
    | apply safe_bind; [|intros ?]
    | match goal with
      | |- safe _ (if ?c then _ else _) => destruct c
      | |- safe _ (match Token.type ?t with _ => _ end) =>
          destruct (Token.type t)
      end ].

Lemma calc_safe (fuel : nat) :
  forall n : nat,
    ((5 * n + 5 <= fuel)%nat -> safe n (expression rt tokens fuel))
    /\ ((5 * n + 4 <= fuel)%nat -> safe n (term rt tokens fuel))
    /\ ((5 * n + 1 <= fuel)%nat ->
        forall left, safe n (term_loop rt tokens fuel left))
    /\ ((5 * n + 3 <= fuel)%nat -> safe n (factor rt tokens fuel))
    /\ ((5 * n + 1 <= fuel)%nat ->
        forall left, safe n (factor_loop rt tokens fuel left))
    /\ ((5 * n + 2 <= fuel)%nat -> safe n (power rt tokens fuel))
    /\ ((5 * n + 1 <= fuel)%nat -> safe n (primary rt tokens fuel)).
Proof.
  induction fuel as [|fuel IH]; intros n.
  { repeat split; intros; lia. }
  assert (IHe : forall n, (5 * n + 5 <= fuel)%nat ->
                          safe n (expression rt tokens fuel))
    by (intros; now apply IH).
  assert (IHt : forall n, (5 * n + 4 <= fuel)%nat ->
                          safe n (term rt tokens fuel))
    by (intros; now apply IH).
  assert (IHtl : forall n left, (5 * n + 1 <= fuel)%nat ->
                          safe n (term_loop rt tokens fuel left))
    by (intros; now apply IH).
  assert (IHf : forall n, (5 * n + 3 <= fuel)%nat ->
                          safe n (factor rt tokens fuel))
    by (intros; now apply IH).
  assert (IHfl : forall n left, (5 * n + 1 <= fuel)%nat ->
                          safe n (factor_loop rt tokens fuel left))
    by (intros; now apply IH).
  assert (IHp : forall n, (5 * n + 2 <= fuel)%nat ->
                          safe n (power rt tokens fuel))
    by (intros; now apply IH).
  assert (IHpr : forall n, (5 * n + 1 <= fuel)%nat ->
                          safe n (primary rt tokens fuel))
    by (intros; now apply IH).
  clear IH.
  repeat split; intros H; intros;
    rewrite ?expression_S, ?term_S, ?term_loop_S, ?factor_S,
      ?factor_loop_S, ?power_S, ?primary_S; unfold call;
    repeat first
      [ apply IHe; lia | apply IHt; lia | apply IHtl; lia
      | apply IHf; lia | apply IHfl; lia | apply IHp; lia
      | apply IHpr; lia | safe_step ].
Qed.

(** [calculate] returns or raises, with its cursor within the
    tokens. *)
Lemma calculate_total :
  match calculate rt tokens with
  | Ok _ p | Raise _ p => (p <= List.length tokens)%nat
  | NoFuel => False
  end.
Proof.
  unfold calculate, calculate_fuel.
  pose proof (calc_safe (5 * List.length tokens + 5) (List.length tokens))
    as (H & _).
  specialize (H (Nat.le_refl _) 0%nat).
  destruct (expression rt tokens _ 0%nat); lia.
Qed.

(** *** Every rule leaves the cursor between its start and the end *)

(** The outcome [o] of a run started at [pos] has its cursor at or after
    [pos] and not past the tokens. *)
Definition ends_within {A : Type} (pos : nat) (o : outcome nat A) : Prop :=
  match o with
  | Ok _ p | Raise _ p => (pos <= p <= List.length tokens)%nat
  | NoFuel => True
  end.

Definition within {A : Type} (m : M nat A) : Prop :=
  forall pos : nat, (pos <= List.length tokens)%nat -> ends_within pos (m pos).

Lemma within_ret {A : Type} (a : A) : within (ret a).
Proof. intros pos H; simpl; lia. Qed.

Lemma within_lift {A : Type} (r : result A) : within (lift r).
Proof. intros pos H; destruct r; simpl; lia. Qed.

Lemma within_next (types : list TokenType) :
  within (next_type_in tokens types).
Proof. intros pos H; rewrite next_type_in_eq; simpl; lia. Qed.

Lemma within_bind {A B : Type} (m : M nat A) (k : A -> M nat B) :
  within m -> (forall a, within (k a)) -> within (bind m k).
Proof.
  intros Hm Hk pos H; unfold bind.
  specialize (Hm pos H); destruct (m pos) as [a p|e p|]; simpl in *; auto.
  specialize (Hk a p); destruct (k a p); simpl in *; auto; lia.
Qed.

Lemma within_read {B : Type} (k : Token -> M nat B) :
  (forall token, within (k token)) ->
  within (token <- tokens_at_pos tokens ;; pos_increment ;; k token).
Proof.
  intros Hk pos H; rewrite read_eq.
  destruct (nth_error tokens pos) as [token|] eqn:E; [|simpl; lia].
  assert (pos < List.length tokens)%nat
    by (apply nth_error_Some; congruence).
  specialize (Hk token (pos + 1)%nat).
  destruct (k token (pos + 1)%nat); simpl in *; auto; lia.
Qed.

Lemma within_next_inc {B : Type} (types : list TokenType) (k1 k2 : M nat B) :
  within k1 -> within k2 ->
  within (c <- next_type_in tokens types ;;
          if c : bool then pos_increment ;; k1 else k2).
Proof.
  intros H1 H2 pos H; rewrite next_inc_eq; unfold peek_in.
  destruct (nth_error tokens pos) as [token|] eqn:E; [|now apply H2].
  destruct (type_in token types); [|now apply H2].
  assert (pos < List.length tokens)%nat
    by (apply nth_error_Some; congruence).
  specialize (H1 (pos + 1)%nat).
  destruct (k1 (pos + 1)%nat); simpl in *; auto; lia.
Qed.

Ltac within_step :=
  first
    [ apply within_ret
    | apply within_lift
    | apply within_read; intros ?
    | apply within_next_inc
    | apply within_bind; [apply within_next|intros [|]]
    | apply within_bind; [|intros ?]
    | match goal with
      | |- within (if ?c then _ else _) => destruct c
      | |- within (match Token.type ?t with _ => _ end) =>
          destruct (Token.type t)
      end ].

Lemma calc_within (fuel : nat) :
  within (expression rt tokens fuel)
  /\ within (term rt tokens fuel)
  /\ (forall left, within (term_loop rt tokens fuel left))
  /\ within (factor rt tokens fuel)
  /\ (forall left, within (factor_loop rt tokens fuel left))
  /\ within (power rt tokens fuel)
  /\ within (primary rt tokens fuel).
Proof.
  induction fuel as [|fuel (IHe & IHt & IHtl & IHf & IHfl & IHp & IHpr)].
  { repeat split; intros; intros pos H; exact I. }
  repeat split; intros;
    rewrite ?expression_S, ?term_S, ?term_loop_S, ?factor_S,
      ?factor_loop_S, ?power_S, ?primary_S; unfold call;
    repeat first
      [ apply IHe | apply IHt | apply IHtl | apply IHf | apply IHfl
      | apply IHp | apply IHpr | within_step ].
Qed.

(** *** More fuel does not change an outcome *)

Definition refines {A : Type} (m m' : M nat A) : Prop :=
  forall pos : nat, m pos <> NoFuel -> m' pos = m pos.

Lemma refines_refl {A : Type} (m : M nat A) : refines m m.
Proof. intros pos _; reflexivity. Qed.

Lemma refines_trans {A : Type} (a b c : M nat A) :
  refines a b -> refines b c -> refines a c.
Proof.
  intros H1 H2 pos H; rewrite <- (H1 pos H); apply H2.
  now rewrite (H1 pos H).
Qed.

Lemma refines_nofuel {A : Type} (m : M nat A) :
  refines (fun _ => NoFuel) m.
Proof. intros pos H; now contradiction H. Qed.

Lemma refines_bind {A B : Type} (m m' : M nat A) (k k' : A -> M nat B) :
  refines m m' -> (forall a, refines (k a) (k' a)) ->
  refines (bind m k) (bind m' k').
Proof.
  intros Hm Hk pos; unfold bind; intros H.
  rewrite (Hm pos) by (intros E; now rewrite E in H).
  destruct (m pos); auto.
  now apply Hk.
Qed.

Ltac refines_step :=
  first
    [ apply refines_refl
    | apply refines_bind; [|intros ?]
    | match goal with
      | |- refines (if ?c then _ else _) _ => destruct c
      | |- refines (match Token.type ?t with _ => _ end) _ =>
          destruct (Token.type t)
      end ].

Lemma fuel_step (fuel : nat) :
  refines (expression rt tokens fuel) (expression rt tokens (S fuel))
  /\ refines (term rt tokens fuel) (term rt tokens (S fuel))
  /\ (forall left, refines (term_loop rt tokens fuel left)
                           (term_loop rt tokens (S fuel) left))
  /\ refines (factor rt tokens fuel) (factor rt tokens (S fuel))
  /\ (forall left, refines (factor_loop rt tokens fuel left)
                           (factor_loop rt tokens (S fuel) left))
  /\ refines (power rt tokens fuel) (power rt tokens (S fuel))
  /\ refines (primary rt tokens fuel) (primary rt tokens (S fuel)).
Proof.
  induction fuel as [|fuel (IHe & IHt & IHtl & IHf & IHfl & IHp & IHpr)].
  { repeat split; intros; apply refines_nofuel. }
  repeat split; intros;
    rewrite ?expression_S, ?term_S, ?term_loop_S, ?factor_S,
      ?factor_loop_S, ?power_S, ?primary_S; unfold call;
    repeat first
      [ apply IHe | apply IHt | apply IHtl | apply IHf | apply IHfl
      | apply IHp | apply IHpr | refines_step ].
Qed.

Lemma fuel_mono (fuel fuel' : nat) :
  (fuel <= fuel')%nat ->
  refines (expression rt tokens fuel) (expression rt tokens fuel').
Proof.
  induction 1 as [|fuel' _ IH]; [apply refines_refl|].
  eapply refines_trans; [exact IH|apply fuel_step].
Qed.

(** Two budgets that both suffice give the same outcome. *)
Lemma fuel_irrelevant (fuel fuel' pos : nat) :
  expression rt tokens fuel pos <> NoFuel ->
  expression rt tokens fuel' pos <> NoFuel ->
  expression rt tokens fuel pos = expression rt tokens fuel' pos.
Proof.
  intros H H'; destruct (Nat.le_ge_cases fuel fuel') as [L|L].
  - symmetry; now apply fuel_mono.
  - now apply fuel_mono.
Qed.

End CalculateFacts.

(** *** An outcome depends on the tokens up to the final cursor only *)

Section Prefix.
Variable rt : Runtime.
Variables tokens tokens' : list Token.

(** [tokens'] has the tokens of [tokens] below [q], and at [q] the
    same token or none. *)
Definition agree (q : nat) : Prop :=
  (forall i, (i < q)%nat -> nth_error tokens' i = nth_error tokens i)
  /\ (nth_error tokens' q = nth_error tokens q
      \/ nth_error tokens' q = None).

Lemma agree_le (p q : nat) : (p <= q)%nat -> agree q -> agree p.
Proof.
  intros H [A B]; split; [intros; apply A; lia|].
  destruct (Nat.eq_dec p q) as [->|]; auto.
  left; apply A; lia.
Qed.

Arguments agree_le {p q} _ _.

(** [m'] over [tokens'] does what [m] does over [tokens]. *)
Definition sim {A : Type} (m m' : M nat A) : Prop :=
  forall pos : nat,
    match m pos with
    | Ok _ q | Raise _ q => (pos <= q)%nat /\ (agree q -> m' pos = m pos)
    | NoFuel => True
    end.

Lemma sim_ret {A : Type} (a : A) : sim (ret a) (ret a).
Proof. intros pos; simpl; auto. Qed.

Lemma sim_lift {A : Type} (r : result A) : sim (lift r) (lift r).
Proof. intros pos; destruct r; simpl; auto. Qed.

Lemma sim_bind {A B : Type} (m m' : M nat A) (k k' : A -> M nat B) :
  sim m m' -> (forall a, sim (k a) (k' a)) -> sim (bind m k) (bind m' k').
Proof.
  intros Hm Hk pos; unfold bind.
  specialize (Hm pos); destruct (m pos) as [a p|e p|]; auto.
  - specialize (Hk a p); destruct (k a p) as [b q|e q|]; auto;
      destruct Hm as [L1 E1], Hk as [L2 E2];
      (split; [lia|]); intros G;
      rewrite (E1 (agree_le L2 G)); auto.
  - destruct Hm as [L1 E1]; split; auto.
    intros G; now rewrite (E1 G).
Qed.

(** Where the cursor ends decides what [tokens'] holds at a
    position the run has looked at. *)
Lemma agree_seen (pos q : nat) :
  (pos <= q)%nat -> agree q ->
  nth_error tokens' pos = nth_error tokens pos
  \/ (pos = q /\ nth_error tokens' pos = None).
Proof.
  intros L [A B]; destruct (Nat.eq_dec pos q) as [->|N].
  - destruct B; auto.
  - left; apply A; lia.
Qed.

Ltac seen pos q :=
  let S := fresh "S" in
  destruct (agree_seen pos q) as [S|[? S]]; [lia|assumption| |];
  try lia; rewrite S.

Lemma sim_read {B : Type} (k k' : Token -> M nat B) :
  (forall token, sim (k token) (k' token)) ->
  sim (token <- tokens_at_pos tokens ;; pos_increment ;; k token)
      (token <- tokens_at_pos tokens' ;; pos_increment ;; k' token).
Proof.
  intros Hk pos; rewrite !read_eq.
  destruct (nth_error tokens pos) as [token|] eqn:E.
  - specialize (Hk token (pos + 1)%nat).
    destruct (k token (pos + 1)%nat) as [b q|e q|]; auto;
      destruct Hk as [L1 E1]; (split; [lia|]); intros G;
      seen pos q; rewrite E; auto.
  - split; auto.
    intros G; seen pos pos; rewrite ?E; auto.
Qed.

Lemma sim_next_inc {B : Type} (types : list TokenType)
      (k1 k1' k2 k2' : M nat B) :
  sim k1 k1' -> sim k2 k2' ->
  sim (c <- next_type_in tokens types ;;
       if c : bool then pos_increment ;; k1 else k2)
      (c <- next_type_in tokens' types ;;
       if c : bool then pos_increment ;; k1' else k2').
Proof.
  intros H1 H2 pos; rewrite !next_inc_eq; unfold peek_in.
  destruct (nth_error tokens pos) as [token|] eqn:E;
    [destruct (type_in token types) eqn:T|].
  - specialize (H1 (pos + 1)%nat).
    destruct (k1 (pos + 1)%nat) as [b q|e q|]; auto;
      destruct H1 as [L1 E1]; (split; [lia|]); intros G;
      seen pos q; rewrite E, T; auto.
  - specialize (H2 pos).
    destruct (k2 pos) as [b q|e q|]; auto;
      destruct H2 as [L1 E1]; (split; [lia|]); intros G;
      seen pos q; rewrite ?E, ?T; auto.
  - specialize (H2 pos).
    destruct (k2 pos) as [b q|e q|]; auto;
      destruct H2 as [L1 E1]; (split; [lia|]); intros G;
      seen pos q; rewrite ?E; auto.
Qed.

Lemma sim_next_read {B : Type} (types : list TokenType)
      (k1 k1' : Token -> M nat B) (k2 k2' : M nat B) :
  (forall token, sim (k1 token) (k1' token)) -> sim k2 k2' ->
  sim (c <- next_type_in tokens types ;;
       if c : bool
       then token <- tokens_at_pos tokens ;; pos_increment ;; k1 token
       else k2)
      (c <- next_type_in tokens' types ;;
       if c : bool
       then token <- tokens_at_pos tokens' ;; pos_increment ;; k1' token
       else k2').
Proof.
  intros H1 H2 pos; rewrite !next_read_eq.
  destruct (nth_error tokens pos) as [token|] eqn:E;
    [destruct (type_in token types) eqn:T|].
  - specialize (H1 token (pos + 1)%nat).
    destruct (k1 token (pos + 1)%nat) as [b q|e q|]; auto;
      destruct H1 as [L1 E1]; (split; [lia|]); intros G;
      seen pos q; rewrite E, T; auto.
  - specialize (H2 pos).
    destruct (k2 pos) as [b q|e q|]; auto;
      destruct H2 as [L1 E1]; (split; [lia|]); intros G;
      seen pos q; rewrite ?E, ?T; auto.
  - specialize (H2 pos).
    destruct (k2 pos) as [b q|e q|]; auto;
      destruct H2 as [L1 E1]; (split; [lia|]); intros G;
      seen pos q; rewrite ?E; auto.
Qed.

Ltac sim_step :=
  first
    [ apply sim_ret
    | apply sim_lift
    | apply sim_read; intros ?
    | apply sim_next_inc
    | apply sim_next_read; [intros ?|]
    | apply sim_bind; [|intros ?]
    | match goal with
      | |- sim (if ?c then _ else _) _ => destruct c
      | |- sim (match Token.type ?t with _ => _ end) _ =>
          destruct (Token.type t)
      end ].

Lemma sim_all (fuel : nat) :
  sim (expression rt tokens fuel) (expression rt tokens' fuel)
  /\ sim (term rt tokens fuel) (term rt tokens' fuel)
  /\ (forall left, sim (term_loop rt tokens fuel left)
                       (term_loop rt tokens' fuel left))
  /\ sim (factor rt tokens fuel) (factor rt tokens' fuel)
  /\ (forall left, sim (factor_loop rt tokens fuel left)
                       (factor_loop rt tokens' fuel left))
  /\ sim (power rt tokens fuel) (power rt tokens' fuel)
  /\ sim (primary rt tokens fuel) (primary rt tokens' fuel).
Proof.
  induction fuel as [|fuel (IHe & IHt & IHtl & IHf & IHfl & IHp & IHpr)].
  { repeat split; intros; intros pos; exact I. }
  repeat split; intros;
    rewrite ?expression_S, ?term_S, ?term_loop_S, ?factor_S,
      ?factor_loop_S, ?power_S, ?primary_S; unfold call;
    repeat first
      [ apply IHe | apply IHt | apply IHtl | apply IHf | apply IHfl
      | apply IHp | apply IHpr | sim_step ].
Qed.

End Prefix.

(** The value of the tokens is the value of what the cursor passed:
    given the same tokens below the final cursor, and there the same
    token or the end, [calculate] gives the same outcome. *)
Lemma calculate_agree (rt : Runtime) (tokens tokens' : list Token)
      (o : outcome nat value) (q : nat) :
  calculate rt tokens = o ->
  (exists v, o = Ok v q) \/ (exists e, o = Raise e q) ->
  agree tokens tokens' q ->
  calculate rt tokens' = o.
Proof.
  intros C F G; unfold calculate in *.
  pose proof (sim_all rt tokens tokens' (calculate_fuel tokens)) as (S & _).
  specialize (S 0%nat); rewrite C in S.
  assert (E : expression rt tokens' (calculate_fuel tokens) 0%nat = o)
    by (destruct F as [[v ->]|[e ->]]; now apply S).
  rewrite <- E; apply fuel_irrelevant.
  - pose proof (calculate_total rt tokens') as T; unfold calculate in T.
    intros N; now rewrite N in T.
  - rewrite E; destruct F as [[v ->]|[e ->]]; discriminate.
Qed.

(** An outcome found with some fuel is the outcome of [calculate]. *)
Lemma calculate_by (rt : Runtime) (tokens : list Token) (fuel : nat)
      (o : outcome nat value) :
  expression rt tokens fuel 0%nat = o -> o <> NoFuel ->
  calculate rt tokens = o.
Proof.
  intros E N; subst o; unfold calculate; apply fuel_irrelevant; auto.
  pose proof (calculate_total rt tokens) as T; unfold calculate in T.
  intros F; now rewrite F in T.
Qed.

(** *** What a rule takes from the tokens *)

(** The rules of the grammar, the two loops among them. *)
Inductive rule : Set :=
  | Expression | Term | TermLoop | Factor | FactorLoop | Power | Primary.

(** How a rule ends: it returns a value or it raises an exception. *)
Inductive ending : Set := Returns | Raises.

(** The token is the name of a function that [primary] calls. *)
Definition calls (token : Token) : bool :=
  TokenType_eqb (Token.type token) IDENTIFIER
  && ((Token.value token =? "sin") || (Token.value token =? "cos")).

Section Consumes.
Variable tokens : list Token.

(** [consumes r p q e]: the rule [r], started with the cursor at [p],
    takes the tokens at [p], [p + 1], ... up to [q], each one once and
    in this order, and ends in the way [e] with the cursor at [q].
    A token that a rule takes moves the cursor by one: the operator of
    a loop, the token that [primary] reads, the two parentheses.  A
    token that a rule looks at and leaves (the one that ends a loop,
    the one found in the place of a parenthesis) does not. *)
Inductive consumes : rule -> nat -> nat -> ending -> Prop :=
  | expression_is_term p q e :
      consumes Term p q e -> consumes Expression p q e
  | term_operand_raises p q :
      consumes Factor p q Raises -> consumes Term p q Raises
  | term_operand_returns p q1 q e :
      consumes Factor p q1 Returns -> consumes TermLoop q1 q e ->
      consumes Term p q e
  | term_loop_ends p :
      peek_in tokens [PLUS; MINUS] p = false ->
      consumes TermLoop p p Returns
  | term_loop_operand_raises p q :
      peek_in tokens [PLUS; MINUS] p = true ->
      consumes Factor (p + 1) q Raises ->
      consumes TermLoop p q Raises
  | term_loop_operator_raises p q :
      peek_in tokens [PLUS; MINUS] p = true ->
      consumes Factor (p + 1) q Returns ->
      consumes TermLoop p q Raises
  | term_loop_goes_on p q1 q e :
      peek_in tokens [PLUS; MINUS] p = true ->
      consumes Factor (p + 1) q1 Returns ->
      consumes TermLoop q1 q e ->
      consumes TermLoop p q e
  | factor_operand_raises p q :
      consumes Power p q Raises -> consumes Factor p q Raises
  | factor_operand_returns p q1 q e :
      consumes Power p q1 Returns -> consumes FactorLoop q1 q e ->
      consumes Factor p q e
  | factor_loop_ends p :
      peek_in tokens [MULTIPLY; DIVIDE; MODULO] p = false ->
      consumes FactorLoop p p Returns
  | factor_loop_operand_raises p q :
      peek_in tokens [MULTIPLY; DIVIDE; MODULO] p = true ->
      consumes Power (p + 1) q Raises ->
      consumes FactorLoop p q Raises
  | factor_loop_operator_raises p q :
      peek_in tokens [MULTIPLY; DIVIDE; MODULO] p = true ->
      consumes Power (p + 1) q Returns ->
      consumes FactorLoop p q Raises
  | factor_loop_goes_on p q1 q e :
      peek_in tokens [MULTIPLY; DIVIDE; MODULO] p = true ->
      consumes Power (p + 1) q1 Returns ->
      consumes FactorLoop q1 q e ->
      consumes FactorLoop p q e
  | power_base_raises p q :
      consumes Primary p q Raises -> consumes Power p q Raises
  | power_ends p q :
      consumes Primary p q Returns ->
      peek_in tokens [POWER] q = false ->
      consumes Power p q Returns
  | power_exponent p q1 q e :
      consumes Primary p q1 Returns ->
      peek_in tokens [POWER] q1 = true ->
      consumes Power (q1 + 1) q e ->
      consumes Power p q e
  | power_operator_raises p q1 q :
      consumes Primary p q1 Returns ->
      peek_in tokens [POWER] q1 = true ->
      consumes Power (q1 + 1) q Returns ->
      consumes Power p q Raises
  | primary_no_token p :
      nth_error tokens p = None ->
      consumes Primary p p Raises
  | primary_literal p token e :
      nth_error tokens p = Some token ->
      In (Token.type token) [INTEGER; FLOAT] ->
      consumes Primary p (p + 1) e
  | primary_one_token p token :
      nth_error tokens p = Some token ->
      ~ In (Token.type token) [INTEGER; FLOAT; LEFT_PAREN] ->
      (calls token = true -> peek_in tokens [LEFT_PAREN] (p + 1) = false) ->
      consumes Primary p (p + 1) Returns
  | primary_group_raises p token q :
      nth_error tokens p = Some token ->
      Token.type token = LEFT_PAREN ->
      consumes Expression (p + 1) q Raises ->
      consumes Primary p q Raises
  | primary_group_closed p token q :
      nth_error tokens p = Some token ->
      Token.type token = LEFT_PAREN ->
      consumes Expression (p + 1) q Returns ->
      peek_in tokens [RIGHT_PAREN] q = true ->
      consumes Primary p (q + 1) Returns
  | primary_group_open p token q :
      nth_error tokens p = Some token ->
      Token.type token = LEFT_PAREN ->
      consumes Expression (p + 1) q Returns ->
      peek_in tokens [RIGHT_PAREN] q = false ->
      consumes Primary p q Returns
  | primary_call_raises p token q :
      nth_error tokens p = Some token ->
      calls token = true ->
      peek_in tokens [LEFT_PAREN] (p + 1) = true ->
      consumes Expression (p + 1 + 1) q Raises ->
      consumes Primary p q Raises
  | primary_call_closed p token q e :
      nth_error tokens p = Some token ->
      calls token = true ->
      peek_in tokens [LEFT_PAREN] (p + 1) = true ->
      consumes Expression (p + 1 + 1) q Returns ->
      peek_in tokens [RIGHT_PAREN] q = true ->
      consumes Primary p (q + 1) e
  | primary_call_open p token q :
      nth_error tokens p = Some token ->
      calls token = true ->
      peek_in tokens [LEFT_PAREN] (p + 1) = true ->
      consumes Expression (p + 1 + 1) q Returns ->
      peek_in tokens [RIGHT_PAREN] q = false ->
      consumes Primary p q Returns.

(** The outcome [o] of the rule [r] started at [p] is one that takes the
    tokens from [p] to its final cursor. *)
Definition takes {A : Type} (r : rule) (p : nat) (o : outcome nat A) : Prop :=
  match o with
  | Ok _ q => consumes r p q Returns
  | Raise _ q => consumes r p q Raises
  | NoFuel => True
  end.

Variable rt : Runtime.

Lemma takes_lift_literal (r : result value) (p : nat) (token : Token) :
  nth_error tokens p = Some token ->
  In (Token.type token) [INTEGER; FLOAT] ->
  takes Primary p (lift r (p + 1)%nat).
Proof. intros N T; destruct r; cbn; eapply primary_literal; eauto. Qed.

Lemma takes_one_token (p : nat) (token : Token) :
  nth_error tokens p = Some token ->
  ~ In (Token.type token) [INTEGER; FLOAT; LEFT_PAREN] ->
  (calls token = true -> peek_in tokens [LEFT_PAREN] (p + 1) = false) ->
  takes Primary p (ret (VInt 0) (p + 1)%nat : outcome nat value).
Proof. intros N T C; cbn; eapply primary_one_token; eauto. Qed.

(** A loop of [term] or [factor], given what its operand rule and the
    loop with less fuel do. *)
Lemma takes_loop (loop operand : rule) (types : list TokenType)
      (run_operand : M nat value) (run_loop : value -> M nat value)
      (apply : Token -> value -> value -> result value) (left : value)
      (p : nat) :
  (forall p, takes operand p (run_operand p)) ->
  (forall left p, takes loop p (run_loop left p)) ->
  (forall p, peek_in tokens types p = false -> consumes loop p p Returns) ->
  (forall p q, peek_in tokens types p = true ->
               consumes operand (p + 1) q Raises ->
               consumes loop p q Raises) ->
  (forall p q, peek_in tokens types p = true ->
               consumes operand (p + 1) q Returns ->
               consumes loop p q Raises) ->
  (forall p q1 q e, peek_in tokens types p = true ->
                    consumes operand (p + 1) q1 Returns ->
                    consumes loop q1 q e ->
                    consumes loop p q e) ->
  takes loop p
    ((continue <- next_type_in tokens types ;;
      if continue : bool then
        op <- tokens_at_pos tokens ;;
        pos_increment ;;
        right <- run_operand ;;
        left' <- lift (apply op left right) ;;
        run_loop left'
      else ret left) p).
Proof.
  intros Ho Hl Ends Raises1 Raises2 Goes.
  rewrite next_read_eq.
  assert (Stop : peek_in tokens types p = false ->
                 takes loop p (ret left p : outcome nat value))
    by (intros K; cbn; now apply Ends).
  destruct (nth_error tokens p) as [op|] eqn:N;
    [|apply Stop; unfold peek_in; now rewrite N].
  destruct (type_in op types) eqn:T;
    [|apply Stop; unfold peek_in; now rewrite N].
  assert (K : peek_in tokens types p = true)
    by (unfold peek_in; now rewrite N).
  unfold bind at 1.
  specialize (Ho (p + 1)%nat).
  destruct (run_operand (p + 1)%nat) as [right q1|e q1|]; cbn [takes] in *;
    [|now apply Raises1|exact I].
  unfold bind at 1.
  destruct (apply op left right) as [left'|e]; cbn [lift takes];
    [|now apply Raises2].
  specialize (Hl left' q1).
  destruct (run_loop left' q1) as [v q|e q|]; cbn [takes] in *;
    [eapply Goes; eauto|eapply Goes; eauto|exact I].
Qed.

(** The end of a group or of a call: the closing parenthesis is taken
    where there is one. *)
Lemma takes_close (p q : nat) (arg : value) (k : value -> M nat value) :
  (peek_in tokens [RIGHT_PAREN] q = true ->
   takes Primary p (k arg (q + 1)%nat)) ->
  (peek_in tokens [RIGHT_PAREN] q = false ->
   consumes Primary p q Returns) ->
  takes Primary p
    ((is_close <- next_type_in tokens [RIGHT_PAREN] ;;
      if is_close : bool then pos_increment ;; k arg else ret (VInt 0)) q).
Proof.
  intros Closed Open; rewrite next_inc_eq.
  destruct (peek_in tokens [RIGHT_PAREN] q); [now apply Closed|].
  cbn; now apply Open.
Qed.

Lemma calc_takes (fuel : nat) :
  (forall p, takes Expression p (expression rt tokens fuel p))
  /\ (forall p, takes Term p (term rt tokens fuel p))
  /\ (forall left p, takes TermLoop p (term_loop rt tokens fuel left p))
  /\ (forall p, takes Factor p (factor rt tokens fuel p))
  /\ (forall left p, takes FactorLoop p (factor_loop rt tokens fuel left p))
  /\ (forall p, takes Power p (power rt tokens fuel p))
  /\ (forall p, takes Primary p (primary rt tokens fuel p)).
Proof.
  induction fuel as [|fuel (IHe & IHt & IHtl & IHf & IHfl & IHp & IHpr)].
  { repeat split; intros; exact I. }
  split; [|split; [|split; [|split; [|split; [|split]]]]].
  - intros p; rewrite expression_S; specialize (IHt p).
    destruct (term rt tokens fuel p); cbn [takes] in *; auto;
      now apply expression_is_term.
  - intros p; rewrite term_S; unfold bind.
    specialize (IHf p).
    destruct (factor rt tokens fuel p) as [left q1|e q1|]; cbn [takes] in *;
      [|now apply term_operand_raises|exact I].
    specialize (IHtl left q1).
    destruct (term_loop rt tokens fuel left q1); cbn [takes] in *; auto;
      eapply term_operand_returns; eauto.
  - intros left p; rewrite term_loop_S.
    apply (takes_loop TermLoop Factor [PLUS; MINUS]
             (factor rt tokens fuel) (term_loop rt tokens fuel)
             (fun op left right =>
                match Token.type op with
                | PLUS => arith rt Add left right
                | MINUS => arith rt Sub left right
                | _ => Val left
                end)); auto.
    + apply term_loop_ends.
    + apply term_loop_operand_raises.
    + apply term_loop_operator_raises.
    + apply term_loop_goes_on.
  - intros p; rewrite factor_S; unfold bind.
    specialize (IHp p).
    destruct (power rt tokens fuel p) as [left q1|e q1|]; cbn [takes] in *;
      [|now apply factor_operand_raises|exact I].
    specialize (IHfl left q1).
    destruct (factor_loop rt tokens fuel left q1); cbn [takes] in *; auto;
      eapply factor_operand_returns; eauto.
  - intros left p; rewrite factor_loop_S.
    apply (takes_loop FactorLoop Power [MULTIPLY; DIVIDE; MODULO]
             (power rt tokens fuel) (factor_loop rt tokens fuel)
             (fun op left right =>
                match Token.type op with
                | MULTIPLY => arith rt Mul left right
                | DIVIDE => arith rt Div left right
                | MODULO => arith rt Mod left right
                | _ => Val left
                end)); auto.
    + apply factor_loop_ends.
    + apply factor_loop_operand_raises.
    + apply factor_loop_operator_raises.
    + apply factor_loop_goes_on.
  - intros p; rewrite power_S; unfold bind at 1.
    specialize (IHpr p).
    destruct (primary rt tokens fuel p) as [left q1|e q1|]; cbn [takes] in *;
      [|now apply power_base_raises|exact I].
    rewrite next_inc_eq.
    destruct (peek_in tokens [POWER] q1) eqn:K;
      [|cbn; now apply power_ends].
    unfold bind; specialize (IHp (q1 + 1)%nat).
    destruct (power rt tokens fuel (q1 + 1)%nat) as [right q|e q|];
      cbn [takes] in *; [|eapply power_exponent; eauto|exact I].
    destruct (arith rt Pow left right); cbn [lift takes].
    + eapply power_exponent; eauto.
    + eapply power_operator_raises; eauto.
  - intros p; rewrite primary_S, read_eq.
    destruct (nth_error tokens p) as [token|] eqn:N;
      [|cbn; now apply primary_no_token].
    assert (Call : forall func : value -> result value,
               calls token = true ->
               takes Primary p
                 (call rt tokens fuel func (p + 1)%nat)).
    { intros func C; unfold call; rewrite next_inc_eq.
      destruct (peek_in tokens [LEFT_PAREN] (p + 1)) eqn:K.
      - unfold bind at 1; specialize (IHe (p + 1 + 1)%nat).
        destruct (expression rt tokens fuel (p + 1 + 1)%nat) as [arg q|e q|];
          cbn [takes] in *; [|eapply primary_call_raises; eauto|exact I].
        apply (takes_close p q arg (fun arg => lift (func arg))).
        + intros R; destruct (func arg); cbn [lift takes];
            eapply primary_call_closed; eauto.
        + intros R; eapply primary_call_open; eauto.
      - cbn; eapply primary_one_token; eauto.
        unfold calls in C; apply andb_true_iff in C; destruct C as [C _].
        destruct (Token.type token); try discriminate.
        cbn; intuition discriminate. }
    assert (One : ~ In (Token.type token) [INTEGER; FLOAT; LEFT_PAREN] ->
                  calls token = false ->
                  takes Primary p
                    (ret (VInt 0) (p + 1)%nat : outcome nat value)).
    { intros T C; apply takes_one_token with token; auto.
      rewrite C; discriminate. }
    destruct (Token.type token) eqn:T;
      try (apply One;
           [cbn; intuition discriminate
           |unfold calls; rewrite T; reflexivity]).
    + apply takes_lift_literal with token; auto; rewrite T; cbn; auto.
    + apply takes_lift_literal with token; auto; rewrite T; cbn; auto.
    + destruct (Token.value token =? "sin") eqn:S;
        [apply Call; unfold calls; now rewrite T, S|].
      destruct (Token.value token =? "cos") eqn:C;
        [apply Call; unfold calls; now rewrite T, S, C|].
      apply One; [cbn; intuition discriminate|].
      unfold calls; now rewrite T, S, C.
    + unfold bind at 1; specialize (IHe (p + 1)%nat).
      destruct (expression rt tokens fuel (p + 1)%nat) as [result q|e q|];
        cbn [takes] in *; [|eapply primary_group_raises; eauto|exact I].
      apply (takes_close p q result ret).
      * intros R; cbn; eapply primary_group_closed; eauto.
      * intros R; eapply primary_group_open; eauto.
Qed.

End Consumes.

(** *** Tokens after a complete expression *)

(** The kinds that the evaluator tests for with the cursor after an
    expression: the six operators, which continue it, and the two
    parentheses, which a call or a group waits for. *)
Definition continuing : list TokenType :=
  [PLUS; MINUS; MULTIPLY; DIVIDE; MODULO; POWER; LEFT_PAREN; RIGHT_PAREN].

Section Extension.
Variable rt : Runtime.
Variables tokens rest : list Token.

(** The first of the tokens [rest], if any, is of no kind that the
    evaluator tests for. *)
Hypothesis ignored :
  forall next, hd_error rest = Some next -> type_in next continuing = false.

(** The kinds [types] are among those that the evaluator tests for. *)
Definition tested (types : list TokenType) : Prop :=
  forall next, type_in next continuing = false -> type_in next types = false.

Ltac tested_kinds :=
  let next := fresh "next" in
  let H := fresh "H" in
  intros next H; unfold type_in, continuing in *;
  destruct (Token.type next); cbn in *; congruence.

Lemma peek_in_more (types : list TokenType) (pos : nat) :
  tested types -> (pos <= List.length tokens)%nat ->
  peek_in (tokens ++ rest) types pos = peek_in tokens types pos.
Proof.
  intros T L; unfold peek_in.
  destruct (Nat.eq_dec pos (List.length tokens)) as [->|N].
  - rewrite nth_error_app2, Nat.sub_diag by lia.
    rewrite (proj2 (nth_error_None tokens _) (Nat.le_refl _)).
    destruct rest as [|next rest']; [reflexivity|].
    apply T, ignored; reflexivity.
  - now rewrite nth_error_app1 by lia.
Qed.

(** What [m] returns over [tokens], started within them, [m'] returns
    over [tokens ++ rest]. *)
Definition extended {A : Type} (m m' : M nat A) : Prop :=
  forall pos : nat,
    (pos <= List.length tokens)%nat ->
    forall a q, m pos = Ok a q ->
                (q <= List.length tokens)%nat /\ m' pos = Ok a q.

Lemma extended_ret {A : Type} (a : A) : extended (ret a) (ret a).
Proof. intros pos L b q [= <- <-]; auto. Qed.

Lemma extended_lift {A : Type} (r : result A) : extended (lift r) (lift r).
Proof. intros pos L b q H; destruct r; inversion H; subst; auto. Qed.

Lemma extended_bind {A B : Type} (m m' : M nat A) (k k' : A -> M nat B) :
  extended m m' -> (forall a, extended (k a) (k' a)) ->
  extended (bind m k) (bind m' k').
Proof.
  intros Hm Hk pos L b q; unfold bind.
  destruct (m pos) as [a p|e p|] eqn:E; try discriminate.
  destruct (Hm pos L a p E) as [L' ->]; now apply Hk.
Qed.

Lemma extended_read {B : Type} (k k' : Token -> M nat B) :
  (forall token, extended (k token) (k' token)) ->
  extended (token <- tokens_at_pos tokens ;; pos_increment ;; k token)
           (token <- tokens_at_pos (tokens ++ rest) ;; pos_increment ;;
            k' token).
Proof.
  intros Hk pos L b q; rewrite !read_eq.
  destruct (nth_error tokens pos) as [token|] eqn:E; [|discriminate].
  assert (pos < List.length tokens)%nat
    by (apply nth_error_Some; congruence).
  rewrite nth_error_app1, E by lia.
  apply Hk; lia.
Qed.

Lemma extended_next_inc {B : Type} (types : list TokenType)
      (k1 k1' k2 k2' : M nat B) :
  tested types -> extended k1 k1' -> extended k2 k2' ->
  extended (c <- next_type_in tokens types ;;
            if c : bool then pos_increment ;; k1 else k2)
           (c <- next_type_in (tokens ++ rest) types ;;
            if c : bool then pos_increment ;; k1' else k2').
Proof.
  intros T H1 H2 pos L b q; rewrite !next_inc_eq, peek_in_more by auto.
  destruct (peek_in tokens types pos) eqn:K; [|now apply H2].
  apply H1.
  unfold peek_in in K.
  destruct (nth_error tokens pos) eqn:E; [|discriminate].
  assert (pos < List.length tokens)%nat
    by (apply nth_error_Some; congruence).
  lia.
Qed.

Lemma extended_next_read {B : Type} (types : list TokenType)
      (k1 k1' : Token -> M nat B) (k2 k2' : M nat B) :
  tested types ->
  (forall token, extended (k1 token) (k1' token)) -> extended k2 k2' ->
  extended (c <- next_type_in tokens types ;;
            if c : bool
            then token <- tokens_at_pos tokens ;; pos_increment ;; k1 token
            else k2)
           (c <- next_type_in (tokens ++ rest) types ;;
            if c : bool
            then token <- tokens_at_pos (tokens ++ rest) ;; pos_increment ;;
                 k1' token
            else k2').
Proof.
  intros T H1 H2 pos L b q; rewrite !next_read_eq.
  pose proof (peek_in_more types pos T L) as P; unfold peek_in in P.
  destruct (nth_error tokens pos) as [token|] eqn:E.
  - assert (pos < List.length tokens)%nat
      by (apply nth_error_Some; congruence).
    rewrite nth_error_app1, E by lia.
    destruct (type_in token types); [apply H1; lia|now apply H2].
  - destruct (nth_error (tokens ++ rest) pos) as [next|];
      [rewrite P|]; now apply H2.
Qed.

Ltac extended_step :=
  first
    [ apply extended_ret
    | apply extended_lift
    | apply extended_read; intros ?
    | apply extended_next_inc; [tested_kinds| |]
    | apply extended_next_read; [tested_kinds|intros ?|]
    | apply extended_bind; [|intros ?]
    | match goal with
      | |- extended (match ?c with _ => _ end) _ => destruct c
      end ].

Lemma extended_all (fuel : nat) :
  extended (expression rt tokens fuel) (expression rt (tokens ++ rest) fuel)
  /\ extended (term rt tokens fuel) (term rt (tokens ++ rest) fuel)
  /\ (forall left, extended (term_loop rt tokens fuel left)
                            (term_loop rt (tokens ++ rest) fuel left))
  /\ extended (factor rt tokens fuel) (factor rt (tokens ++ rest) fuel)
  /\ (forall left, extended (factor_loop rt tokens fuel left)
                            (factor_loop rt (tokens ++ rest) fuel left))
  /\ extended (power rt tokens fuel) (power rt (tokens ++ rest) fuel)
  /\ extended (primary rt tokens fuel) (primary rt (tokens ++ rest) fuel).
Proof.
  induction fuel as [|fuel (IHe & IHt & IHtl & IHf & IHfl & IHp & IHpr)].
  { split; [|split; [|split; [|split; [|split; [|split]]]]];
      intros; intros pos L a q H; discriminate. }
  split; [|split; [|split; [|split; [|split; [|split]]]]]; intros;
    rewrite ?expression_S, ?term_S, ?term_loop_S, ?factor_S,
      ?factor_loop_S, ?power_S, ?primary_S; unfold call;
    repeat first
      [ apply IHe | apply IHt | apply IHtl | apply IHf | apply IHfl
      | apply IHp | apply IHpr | extended_step ].
Qed.

End Extension.

(** A value found over [tokens] is the value of [tokens ++ rest], when
    what follows is of no kind that the evaluator tests for. *)
Lemma calculate_extended (rt : Runtime) (tokens rest : list Token)
      (v : value) (q : nat) :
  (forall next, hd_error rest = Some next ->
                type_in next continuing = false) ->
  calculate rt tokens = Ok v q ->
  calculate rt (tokens ++ rest) = Ok v q.
Proof.
  intros I C; unfold calculate in C.
  destruct (extended_all rt tokens rest I (calculate_fuel tokens)) as (E & _).
  destruct (E 0%nat (Nat.le_0_l _) v q C) as [_ E'].
  now apply calculate_by with (fuel := calculate_fuel tokens).
Qed.

(** *** What [primary] does with a token that starts no primary *)

Lemma primary_identifier_default (rt : Runtime) (tokens : list Token)
      (fuel pos : nat) (token : Token) :
  nth_error tokens pos = Some token ->
  Token.type token = IDENTIFIER ->
  Token.value token <> "sin" -> Token.value token <> "cos" ->
  primary rt tokens (S fuel) pos = Ok (VInt 0) (pos + 1)%nat.
Proof.
  intros N T S C; apply String.eqb_neq in S, C.
  now rewrite primary_S, read_eq, N, T, S, C.
Qed.

Lemma primary_other_default (rt : Runtime) (tokens : list Token)
      (fuel pos : nat) (token : Token) :
  nth_error tokens pos = Some token ->
  ~ In (Token.type token) [INTEGER; FLOAT; IDENTIFIER; LEFT_PAREN] ->
  primary rt tokens (S fuel) pos = Ok (VInt 0) (pos + 1)%nat.
Proof.
  intros N T; rewrite primary_S, read_eq, N.
  destruct (Token.type token); try reflexivity;
    exfalso; apply T; simpl; auto.
Qed.

(** *** Three integer operands and two operators *)

(** [token] is an INTEGER token whose lexeme [int] reads as [z]. *)
Definition operand (rt : Runtime) (token : Token) (z : Z) : Prop :=
  Token.type token = INTEGER
  /\ py_int (int_max_str_digits rt) (Token.value token) = Val z.

(** One step of evaluation: the left-hand side is brought to the first
    place where it waits for a fact about its operands. *)
Ltac run :=
  match goal with
  | |- ?l = _ =>
      let l' :=
        eval lazy head beta iota zeta delta -[py_int Z.eqb Z.ltb] in l in
      change l with l'
  end;
  cbn [Token.value].

Lemma three_operands (rt : Runtime) (ta o1 tb o2 tc : Token) (a b c : Z) :
  operand rt ta a -> operand rt tb b -> operand rt tc c ->
  (Token.type o1 = PLUS -> Token.type o2 = MULTIPLY ->
   calculate rt [ta; o1; tb; o2; tc] = Ok (VInt (a + b * c)) 5%nat)
  /\ (Token.type o1 = MULTIPLY -> Token.type o2 = PLUS ->
      calculate rt [ta; o1; tb; o2; tc] = Ok (VInt (a * b + c)) 5%nat)
  /\ (Token.type o1 = MINUS -> Token.type o2 = MINUS ->
      calculate rt [ta; o1; tb; o2; tc] = Ok (VInt (a - b - c)) 5%nat)
  /\ (Token.type o1 = MULTIPLY -> Token.type o2 = MODULO -> c <> 0 ->
      calculate rt [ta; o1; tb; o2; tc] = Ok (VInt ((a * b) mod c)) 5%nat)
  /\ (Token.type o1 = POWER -> Token.type o2 = POWER -> 0 <= b -> 0 <= c ->
      calculate rt [ta; o1; tb; o2; tc] = Ok (VInt (a ^ (b ^ c))) 5%nat)
  /\ (Token.type o1 = MULTIPLY -> Token.type o2 = POWER -> 0 <= c ->
      calculate rt [ta; o1; tb; o2; tc] = Ok (VInt (a * b ^ c)) 5%nat).
Proof.
  destruct ta as [tya va la ca], tb as [tyb vb lb cb], tc as [tyc vc lc cc],
    o1 as [ty1 v1 l1 c1], o2 as [ty2 v2 l2 c2].
  unfold operand; cbn [Token.type Token.value].
  intros [-> Ha] [-> Hb] [-> Hc].
  repeat split; intros -> ->; intros;
    run; rewrite Ha; run; rewrite Hb; run; rewrite Hc; run.
  - reflexivity.
  - reflexivity.
  - reflexivity.
  - rewrite (proj2 (Z.eqb_neq c 0)) by assumption; reflexivity.
  - rewrite (proj2 (Z.ltb_ge c 0)) by assumption; run.
    rewrite (proj2 (Z.ltb_ge (b ^ c) 0)) by (apply Z.pow_nonneg; assumption).
    reflexivity.
  - rewrite (proj2 (Z.ltb_ge c 0)) by assumption; reflexivity.
Qed.

Lemma zero_divisor (rt : Runtime) (ta op tb : Token) (a : Z) :
  operand rt ta a -> operand rt tb 0 ->
  Token.type op = DIVIDE \/ Token.type op = MODULO ->
  calculate rt [ta; op; tb] = Raise ZeroDivisionError 3%nat.
Proof.
  destruct ta as [tya va la ca], tb as [tyb vb lb cb], op as [ty v l c].
  unfold operand; cbn [Token.type Token.value].
  intros [-> Ha] [-> Hb] [-> | ->];
    run; rewrite Ha; run; rewrite Hb; run; reflexivity.
Qed.

(** ** Examples *)

(** The kinds and lexemes of a scan. *)
Definition kinds (o : outcome Lexer.t (list Token))
  : option (list (TokenType * string)) :=
  match o with
  | Ok tokens _ =>
      Some (map (fun token => (Token.type token, Token.value token)) tokens)
  | _ => None
  end.

Example scan_forever :
  kinds (tokenize "forever") = Some [(IDENTIFIER, "forever"); (EOF, "EOF")].
Proof. reflexivity. Qed.

Example scan_numbers :
  kinds (tokenize "3 3.14 3.14.5")
  = Some [(INTEGER, "3"); (FLOAT, "3.14"); (FLOAT, "3.14"); (FLOAT, ".5");
          (EOF, "EOF")].
Proof. reflexivity. Qed.

Example scan_comment :
  tokenize ("1 # comment" ++ NL ++ "2")
  = Ok [Token.mk INTEGER "1" 1 1; Token.mk INTEGER "2" 2 1;
        Token.mk EOF "EOF" 2 (-1)]
       (Lexer.mk ("1 # comment" ++ NL ++ "2") 13 2 2
          [Token.mk INTEGER "1" 1 1; Token.mk INTEGER "2" 2 1;
           Token.mk EOF "EOF" 2 (-1)]).
Proof. reflexivity. Qed.

Example content_comment :
  content ("1 # comment" ++ NL ++ "2") = "12".
Proof. reflexivity. Qed.

Example int_literals :
  py_int 4300 "12" = Val 12 /\ py_int 4300 " -1_000 " = Val (-1000)
  /\ py_int 4300 "007" = Val 7 /\ py_int 4300 "1__0" = Exc ValueError
  /\ py_int 4300 "- 1" = Exc ValueError /\ py_int 4300 "" = Exc ValueError.
Proof. repeat split. Qed.

Example true_division :
  int_true_divide 5 2 = Val 2.5%float
  /\ int_true_divide 1 3 = Val (1 / 3)%float
  /\ int_true_divide 0 (-5) = Val (-0)%float
  /\ int_true_divide (10 ^ 400) 3 = Exc OverflowError
  /\ int_true_divide (10 ^ 400) (10 ^ 399) = Val 10%float.
Proof. repeat split; vm_compute; reflexivity. Qed.

Example operand_two : operand bare_runtime (Token.mk INTEGER "2" 1 1) 2.
Proof. split; reflexivity. Qed.

(** * The statements of the specification *)

(** C1 (as amended).  Where a primary is expected and the current token
    is an identifier other than [sin] and [cos], or a token of a kind
    that starts no primary (any kind but INTEGER, FLOAT, IDENTIFIER and
    LEFT_PAREN), [primary] signals no failure: it steps over that one
    token and returns the integer 0. *)
Theorem primary_default_zero (rt : Runtime) (tokens : list Token)
        (fuel pos : nat) (token : Token) :
  nth_error tokens pos = Some token ->
  (Token.type token = IDENTIFIER
   /\ Token.value token <> "sin" /\ Token.value token <> "cos")
  \/ ~ In (Token.type token) [INTEGER; FLOAT; IDENTIFIER; LEFT_PAREN] ->
  primary rt tokens (S fuel) pos = Ok (VInt 0) (pos + 1)%nat.
Proof.
  intros N [(T & S & C)|T].
  - now apply primary_identifier_default with token.
  - now apply primary_other_default with token.
Qed.

Lemma primary_default_zero_witness :
  nth_error [Token.mk IDENTIFIER "foo" 1 1; Token.mk LEFT_PAREN "(" 1 4;
             Token.mk INTEGER "1" 1 5; Token.mk RIGHT_PAREN ")" 1 6] 0%nat
  = Some (Token.mk IDENTIFIER "foo" 1 1)
  /\ primary bare_runtime
       [Token.mk IDENTIFIER "foo" 1 1; Token.mk LEFT_PAREN "(" 1 4;
        Token.mk INTEGER "1" 1 5; Token.mk RIGHT_PAREN ")" 1 6] 1%nat 0%nat
     = Ok (VInt 0) 1%nat.
Proof.
  split; [reflexivity|].
  apply (primary_default_zero bare_runtime _ 0%nat 0%nat
           (Token.mk IDENTIFIER "foo" 1 1)); [reflexivity|].
  left; repeat split; discriminate.
Defined.

(** C1 (as stated) fails on the tokens of [foo(1)]: the evaluation
    returns 0 and raises nothing. *)
Lemma unknown_function_evaluates_to_zero :
  evaluate bare_runtime "foo(1)" = Ok (VInt 0) 1%nat
  /\ ~ (exists e p, evaluate bare_runtime "foo(1)" = Raise e p).
Proof.
  assert (E : evaluate bare_runtime "foo(1)" = Ok (VInt 0) 1%nat)
    by (vm_compute; reflexivity).
  split; [exact E|].
  intros (e & p & H); rewrite E in H; discriminate.
Qed.

(** C2 (as amended).  Every rule of the grammar takes the tokens
    between its start and its final cursor one after another, with one
    step of the cursor for each token taken and none for a token that
    is only looked at ([consumes]); it ends (by a value or by an
    exception) with the cursor at or after its start and not past the
    end of the sequence, and so does the whole evaluation, which always
    ends.  When [primary] must read a token with the cursor at the end
    (the tokens of [2 +], an empty sequence), the read raises
    [IndexError], which reaches the caller.  A closing parenthesis that
    is missing after the expression of a group or of a call, at the end
    of the input or before another token, raises nothing: that group or
    call has the value 0, so that [(2] evaluates to 0 and [1 + (2]
    to 1. *)
Theorem cursor_within_tokens (rt : Runtime) (tokens : list Token) :
  (forall pos, pos_increment pos = Ok tt (pos + 1)%nat)
  /\ (forall fuel pos left,
        takes tokens Expression pos (expression rt tokens fuel pos)
        /\ takes tokens Term pos (term rt tokens fuel pos)
        /\ takes tokens TermLoop pos (term_loop rt tokens fuel left pos)
        /\ takes tokens Factor pos (factor rt tokens fuel pos)
        /\ takes tokens FactorLoop pos (factor_loop rt tokens fuel left pos)
        /\ takes tokens Power pos (power rt tokens fuel pos)
        /\ takes tokens Primary pos (primary rt tokens fuel pos))
  /\ (forall fuel pos left,
        (pos <= List.length tokens)%nat ->
        ends_within tokens pos (expression rt tokens fuel pos)
        /\ ends_within tokens pos (term rt tokens fuel pos)
        /\ ends_within tokens pos (term_loop rt tokens fuel left pos)
        /\ ends_within tokens pos (factor rt tokens fuel pos)
        /\ ends_within tokens pos (factor_loop rt tokens fuel left pos)
        /\ ends_within tokens pos (power rt tokens fuel pos)
        /\ ends_within tokens pos (primary rt tokens fuel pos))
  /\ match calculate rt tokens with
     | Ok _ p | Raise _ p => (p <= List.length tokens)%nat
     | NoFuel => False
     end
  /\ (forall fuel,
        primary rt tokens (S fuel) (List.length tokens)
        = Raise IndexError (List.length tokens))
  /\ (forall fuel pos token v q,
        nth_error tokens pos = Some token ->
        Token.type token = LEFT_PAREN ->
        expression rt tokens fuel (pos + 1)%nat = Ok v q ->
        peek_in tokens [RIGHT_PAREN] q = false ->
        primary rt tokens (S fuel) pos = Ok (VInt 0) q)
  /\ (forall fuel pos token v q,
        nth_error tokens pos = Some token ->
        calls token = true ->
        peek_in tokens [LEFT_PAREN] (pos + 1) = true ->
        expression rt tokens fuel (pos + 1 + 1)%nat = Ok v q ->
        peek_in tokens [RIGHT_PAREN] q = false ->
        primary rt tokens (S fuel) pos = Ok (VInt 0) q)
  /\ calculate rt [] = Raise IndexError 0%nat
  /\ evaluate rt "2 +" = Raise IndexError 2%nat
  /\ evaluate rt "(2" = Ok (VInt 0) 2%nat
  /\ evaluate rt "1 + (2" = Ok (VInt 1) 4%nat.
Proof.
  split; [reflexivity|].
  split.
  { intros fuel pos left.
    destruct (calc_takes tokens rt fuel)
      as (He & Ht & Htl & Hf & Hfl & Hp & Hpr).
    repeat split; auto. }
  split.
  { intros fuel pos left H.
    destruct (calc_within rt tokens fuel)
      as (He & Ht & Htl & Hf & Hfl & Hp & Hpr).
    repeat split; (apply He || apply Ht || apply Htl || apply Hf
                   || apply Hfl || apply Hp || apply Hpr); exact H. }
  split; [apply calculate_total|].
  split.
  { intros fuel; rewrite primary_S, read_eq.
    now rewrite (proj2 (nth_error_None tokens _) (Nat.le_refl _)). }
  split.
  { intros fuel pos token v q N T E K.
    rewrite primary_S, read_eq, N, T; unfold bind at 1; rewrite E.
    now rewrite next_inc_eq, K. }
  split.
  { intros fuel pos token v q N C O E K.
    unfold calls in C; apply andb_true_iff in C; destruct C as [T C].
    assert (T' : Token.type token = IDENTIFIER)
      by (destruct (Token.type token); try discriminate; reflexivity).
    assert (G : forall func : value -> result value,
               call rt tokens fuel func (pos + 1)%nat = Ok (VInt 0) q).
    { intros func; unfold call; rewrite next_inc_eq, O.
      unfold bind at 1; rewrite E.
      now rewrite next_inc_eq, K. }
    rewrite primary_S, read_eq, N, T'.
    destruct (Token.value token =? "sin"); [apply G|].
    apply orb_true_iff in C; destruct C as [C|C]; [discriminate|].
    rewrite C; apply G. }
  repeat split; vm_compute; reflexivity.
Qed.

(** C2 (as stated) fails on the tokens of [(2]: the rule for a
    parenthesized primary needs a closing parenthesis past the last
    token, and the evaluation returns 0 instead of failing. *)
Lemma missing_parenthesis_not_signalled :
  evaluate bare_runtime "(2" = Ok (VInt 0) 2%nat
  /\ ~ (exists e p, evaluate bare_runtime "(2" = Raise e p).
Proof.
  assert (E : evaluate bare_runtime "(2" = Ok (VInt 0) 2%nat)
    by (vm_compute; reflexivity).
  split; [exact E|].
  intros (e & p & H); rewrite E in H; discriminate.
Qed.

(** C3.  Scanning the empty string gives one token, of kind EOF, on
    line 1; its recorded column is -2 (the column 1 less the length of
    the substituted name "EOF"), not 1. *)
Theorem tokenize_empty :
  tokenize ""
  = Ok [Token.mk EOF "EOF" 1 (-2)]
       (Lexer.mk "" 0 1 1 [Token.mk EOF "EOF" 1 (-2)]).
Proof. reflexivity. Qed.

(** C4.  For every source, the lexemes of the tokens before the final
    EOF token, concatenated in order, are the characters of the source
    that are neither white space nor part of a comment, in order. *)
Theorem lexemes_are_content (source : string) :
  exists tokens final,
    tokenize source = Ok tokens final
    /\ lexemes (strip_last tokens) = content source.
Proof.
  destruct (LexerFacts.scan_tokens_spec source)
    as (new & l & k & final & T & _ & C).
  exists (new ++ [Token.mk EOF "EOF" l (k - 3)])%list, final.
  split; [exact T|].
  unfold strip_last; now rewrite removelast_last.
Qed.

(** C5.  For every source the scan ends (each step on unread input
    succeeds and moves the cursor forward, within the source), and the
    sequence returned ends with an EOF token, the only one in it. *)
Theorem tokenize_ends_with_eof (source : string) :
  (exists tokens final front eof,
      tokenize source = Ok tokens final
      /\ tokens = (front ++ [eof])%list
      /\ Token.type eof = EOF
      /\ List.length
           (filter (fun token => TokenType_eqb (Token.type token) EOF) tokens)
         = 1%nat)
  /\ (forall self : Lexer.t,
        Lexer.is_at_end self = true
        \/ exists self',
            Lexer.scan_token self = Ok tt self'
            /\ (Lexer.position self < Lexer.position self'
                <= String.length (Lexer.source self'))%nat).
Proof.
  split.
  - destruct (LexerFacts.scan_tokens_spec source)
      as (new & l & k & final & T & F & _).
    exists (new ++ [Token.mk EOF "EOF" l (k - 3)])%list, final, new,
      (Token.mk EOF "EOF" l (k - 3)).
    repeat split; auto.
    rewrite filter_app, length_app; simpl.
    replace (filter _ new) with (@nil Token); [reflexivity|].
    symmetry; clear T; induction F as [|token new [H _] _ IH]; auto.
    simpl; rewrite <- IH.
    destruct (Token.type token); try reflexivity; now contradiction H.
  - intros self; rewrite LexerFacts.is_at_end_rest.
    destruct (LexerFacts.rest self) as [|c r] eqn:E; auto.
    right.
    destruct (LexerFacts.scan_token_spec _ _ _ E)
      as (self' & w & new & T & (S1 & P1 & T1 & R1) & _).
    exists self'; split; [exact T|].
    pose proof (f_equal String.length R1) as Q.
    rewrite length_append in Q; unfold LexerFacts.rest in Q.
    rewrite !length_drop, S1 in *; simpl in *.
    pose proof (LexerFacts.rest_bound self) as B.
    rewrite E in B; specialize (B ltac:(discriminate)); lia.
Qed.

(** C6.  The four levels of the grammar, with addition and subtraction
    and multiplication, division and modulo grouping to the left, and
    exponentiation to the right: the three expressions of the
    specification, four more that tell the groupings apart, and the
    same for any three integer literals. *)
Theorem precedence_and_associativity (rt : Runtime) :
  evaluate rt "2 + 3 * 4 - 5 / 2" = Ok (VFloat 11.5) 9%nat
  /\ evaluate rt "2 ^ 3 ^ 2" = Ok (VInt 512) 5%nat
  /\ evaluate rt "(2 + 3) * 4" = Ok (VInt 20) 7%nat
  /\ evaluate rt "8 - 3 - 2" = Ok (VInt 3) 5%nat
  /\ evaluate rt "2 * 7 % 4" = Ok (VInt 2) 5%nat
  /\ evaluate rt "7 - 2 * 3" = Ok (VInt 1) 5%nat
  /\ evaluate rt "2 * 3 ^ 2" = Ok (VInt 18) 5%nat
  /\ (forall (ta o1 tb o2 tc : Token) (a b c : Z),
        operand rt ta a -> operand rt tb b -> operand rt tc c ->
        (Token.type o1 = PLUS -> Token.type o2 = MULTIPLY ->
         calculate rt [ta; o1; tb; o2; tc] = Ok (VInt (a + b * c)) 5%nat)
        /\ (Token.type o1 = MULTIPLY -> Token.type o2 = PLUS ->
            calculate rt [ta; o1; tb; o2; tc] = Ok (VInt (a * b + c)) 5%nat)
        /\ (Token.type o1 = MINUS -> Token.type o2 = MINUS ->
            calculate rt [ta; o1; tb; o2; tc] = Ok (VInt (a - b - c)) 5%nat)
        /\ (Token.type o1 = MULTIPLY -> Token.type o2 = MODULO -> c <> 0 ->
            calculate rt [ta; o1; tb; o2; tc]
            = Ok (VInt ((a * b) mod c)) 5%nat)
        /\ (Token.type o1 = POWER -> Token.type o2 = POWER ->
            0 <= b -> 0 <= c ->
            calculate rt [ta; o1; tb; o2; tc]
            = Ok (VInt (a ^ (b ^ c))) 5%nat)
        /\ (Token.type o1 = MULTIPLY -> Token.type o2 = POWER -> 0 <= c ->
            calculate rt [ta; o1; tb; o2; tc]
            = Ok (VInt (a * b ^ c)) 5%nat)).
Proof.
  do 7 (split; [vm_compute; reflexivity|]).
  intros; now apply three_operands.
Qed.

(** C7.  A division or a modulo by zero raises [ZeroDivisionError],
    Python's arithmetic error, for [2 / 0] as for any integer literal
    divided by a literal zero, and nothing in the evaluator replaces it
    by a value: whatever the operation of [factor] raises is the
    outcome of the loop, and of the evaluation. *)
Theorem division_by_zero_raises (rt : Runtime) :
  evaluate rt "2 / 0" = Raise ZeroDivisionError 3%nat
  /\ evaluate rt "2 % 0" = Raise ZeroDivisionError 3%nat
  /\ evaluate rt "1 + 2 / (3 - 3)" = Raise ZeroDivisionError 9%nat
  /\ (forall a, arith rt Div (VInt a) (VInt 0) = Exc ZeroDivisionError)
  /\ (forall a, arith rt Mod (VInt a) (VInt 0) = Exc ZeroDivisionError)
  /\ (forall x, arith rt Div (VFloat x) (VInt 0) = Exc ZeroDivisionError)
  /\ (forall x, arith rt Mod (VFloat x) (VInt 0) = Exc ZeroDivisionError)
  /\ (forall x, arith rt Div (VFloat x) (VFloat 0) = Exc ZeroDivisionError)
  /\ (forall x, arith rt Mod (VFloat x) (VFloat 0) = Exc ZeroDivisionError)
  /\ (forall (ta op tb : Token) (a : Z),
        operand rt ta a -> operand rt tb 0 ->
        Token.type op = DIVIDE \/ Token.type op = MODULO ->
        calculate rt [ta; op; tb] = Raise ZeroDivisionError 3%nat)
  /\ (forall tokens fuel left pos op right p e,
        nth_error tokens pos = Some op ->
        power rt tokens fuel (pos + 1)%nat = Ok right p ->
        (Token.type op = DIVIDE /\ arith rt Div left right = Exc e)
        \/ (Token.type op = MODULO /\ arith rt Mod left right = Exc e) ->
        factor_loop rt tokens (S fuel) left pos = Raise e p).
Proof.
  do 9 (split; [intros; vm_compute; reflexivity|]).
  split; [intros; now apply zero_divisor with a|].
  intros tokens fuel left pos op right p e N P H.
  rewrite factor_loop_S, next_read_eq, N.
  destruct H as [[T A]|[T A]]; unfold type_in; rewrite T;
    cbn [existsb TokenType_eqb orb]; unfold bind; rewrite P;
    cbv beta iota; rewrite A; reflexivity.
Qed.


(** C9.  The names of [built_in_functions] other than [sin] and [cos]
    get no treatment of their own: as for any identifier that is not
    [sin] or [cos], [primary] steps over the name and returns 0, and
    the expression [name(1)] evaluates to 0 with the cursor left
    before the parenthesis, as [foo(1)] does. *)
Theorem other_builtins_are_unrecognized (rt : Runtime) (name : string)
        (tokens : list Token) (fuel pos : nat) (l c : Z) :
  In name Lexer.built_in_functions ->
  name <> "sin" -> name <> "cos" ->
  nth_error tokens pos = Some (Token.mk IDENTIFIER name l c) ->
  primary rt tokens (S fuel) pos = Ok (VInt 0) (pos + 1)%nat
  /\ evaluate rt (name ++ "(1)") = Ok (VInt 0) 1%nat
  /\ evaluate rt (name ++ "(1)") = evaluate rt "foo(1)".
Proof.
  intros I S C N; split.
  - now apply primary_identifier_default
      with (token := Token.mk IDENTIFIER name l c).
  - simpl in I.
    destruct I as [<-|[<-|[<-|[<-|[<-|[<-|[]]]]]]];
      try (now contradiction S); try (now contradiction C);
      split; vm_compute; reflexivity.
Qed.

Lemma other_builtins_are_unrecognized_witness :
  In "tan" Lexer.built_in_functions
  /\ "tan" <> "sin" /\ "tan" <> "cos"
  /\ primary bare_runtime
       [Token.mk IDENTIFIER "tan" 1 1; Token.mk LEFT_PAREN "(" 1 4;
        Token.mk INTEGER "1" 1 5; Token.mk RIGHT_PAREN ")" 1 6] 1%nat 0%nat
     = Ok (VInt 0) 1%nat
  /\ evaluate bare_runtime "tan(1)" = Ok (VInt 0) 1%nat.
Proof.
  assert (I : In "tan" Lexer.built_in_functions) by (simpl; auto).
  assert (S : "tan" <> "sin") by discriminate.
  assert (C : "tan" <> "cos") by discriminate.
  repeat (split; [assumption|]).
  pose proof (other_builtins_are_unrecognized bare_runtime "tan"
                [Token.mk IDENTIFIER "tan" 1 1; Token.mk LEFT_PAREN "(" 1 4;
                 Token.mk INTEGER "1" 1 5; Token.mk RIGHT_PAREN ")" 1 6]
                0%nat 0%nat 1 1 I S C eq_refl) as (P & E & _).
  split; [exact P|exact E].
Defined.

(** C10 (as amended).  [calculate] does not ask that the tokens be
    used up: when the tokens [prefix] evaluate on their own to [v] and
    are used up, and the token that follows them, if any, is of no kind
    that the evaluator tests for there (an operator, which would
    continue the expression, or a parenthesis), the tokens
    [prefix ++ rest] evaluate to [v] with the cursor after [prefix],
    whatever [rest] holds: the tokens of [2 3] evaluate to 2. *)
Theorem trailing_tokens_ignored (rt : Runtime) (prefix rest : list Token)
        (v : value) :
  calculate rt prefix = Ok v (List.length prefix) ->
  (forall next, hd_error rest = Some next ->
                type_in next continuing = false) ->
  calculate rt (prefix ++ rest) = Ok v (List.length prefix).
Proof. intros C I; now apply calculate_extended. Qed.

Lemma trailing_tokens_ignored_witness :
  calculate bare_runtime
    ([Token.mk INTEGER "2" 1 1] ++ [Token.mk INTEGER "3" 1 3])
  = Ok (VInt 2) (List.length [Token.mk INTEGER "2" 1 1]).
Proof.
  apply (trailing_tokens_ignored bare_runtime
           [Token.mk INTEGER "2" 1 1] [Token.mk INTEGER "3" 1 3] (VInt 2)).
  - vm_compute; reflexivity.
  - intros next [= <-]; reflexivity.
Defined.

(** C10 (as stated) fails on the tokens of [2 + 3]: their proper prefix,
    the one token of [2], is a complete expression of value 2, and the
    evaluation goes on with the operator and returns 5. *)
Lemma trailing_operator_continues :
  calculate bare_runtime [Token.mk INTEGER "2" 1 1] = Ok (VInt 2) 1%nat
  /\ calculate bare_runtime
       ([Token.mk INTEGER "2" 1 1]
        ++ [Token.mk PLUS "+" 1 3; Token.mk INTEGER "3" 1 5])
     = Ok (VInt 5) 3%nat
  /\ evaluate bare_runtime "2" = Ok (VInt 2) 1%nat
  /\ evaluate bare_runtime "2 + 3" = Ok (VInt 5) 3%nat.
Proof. repeat split; vm_compute; reflexivity. Qed.


(** * Further properties *)

(** ** The lexer, step by step *)

Module Scan.
Import Lexer LexerFacts.

(** *** Lines and columns *)

(** The line and column after one more character. *)
Definition after_char (lc : Z * Z) (ch : ascii) : Z * Z :=
  if Ascii.eqb ch "010"%char then (fst lc + 1, 1) else (fst lc, snd lc + 1).

(** The line and column after the text [w]. *)
Fixpoint walk (lc : Z * Z) (w : string) : Z * Z :=
  match w with
  | EmptyString => lc
  | String ch w' => walk (after_char lc ch) w'
  end.

(** [self] after reading [w] and emitting [new]. *)
Definition moved (self : t) (w : string) (new : list Token) : t :=
  mk (source self) (position self + String.length w)
     (fst (walk (line self, column self) w))
     (snd (walk (line self, column self) w))
     (tokens self ++ new).

Lemma walk_app (lc : Z * Z) (a b : string) :
  walk lc (a ++ b) = walk (walk lc a) b.
Proof. revert lc; induction a; intros lc; simpl; auto. Qed.

Lemma walk_line (w : string) (lc : Z * Z) :
  all_chars not_nl w = true ->
  walk lc w = (fst lc, snd lc + Z.of_nat (String.length w)).
Proof.
  revert lc; induction w as [|c w IH]; intros lc H.
  - simpl; rewrite Z.add_0_r; now destruct lc.
  - cbn [all_chars] in H; apply andb_prop in H as [Hc Hw].
    cbn [walk]; rewrite IH by assumption.
    unfold after_char, not_nl in *; apply negb_true_iff in Hc; rewrite Hc.
    cbn [fst snd String.length]; f_equal; lia.
Qed.

Lemma moved_moved (self : t) (w1 w2 : string) (n1 n2 : list Token) :
  moved (moved self w1 n1) w2 n2 = moved self (w1 ++ w2) (n1 ++ n2).
Proof.
  unfold moved; cbn [source position line column tokens].
  rewrite walk_app, length_append, app_assoc, Nat.add_assoc.
  now rewrite <- surjective_pairing.
Qed.

Lemma moved_nil (self : t) : moved self "" [] = self.
Proof.
  destruct self; unfold moved; simpl.
  now rewrite Nat.add_0_r, app_nil_r.
Qed.

Lemma drop_drop (n m : nat) (s : string) :
  drop (n + m) s = drop m (drop n s).
Proof.
  revert s; induction n; intros s; simpl; auto.
  destruct s; auto. now destruct m.
Qed.

Lemma drop_app (w r : string) : drop (String.length w) (w ++ r) = r.
Proof. induction w; simpl; auto. Qed.

Lemma rest_moved (self : t) (w r : string) (new : list Token) :
  rest self = w ++ r -> rest (moved self w new) = r.
Proof.
  unfold rest, moved; cbn [source position]; intros E.
  now rewrite drop_drop, E, drop_app.
Qed.

Lemma moved_extends (self : t) (w r : string) (new : list Token) :
  rest self = w ++ r -> extends self (moved self w new) w new.
Proof.
  intros E; unfold extends; rewrite (rest_moved _ _ _ _ E).
  repeat split; auto.
Qed.

Lemma advance_exact (self : t) (c : ascii) (r : string) :
  rest self = String c r ->
  advance self = Ok (String c "") (moved self (String c "") []).
Proof.
  intros E; pose proof (index_rest _ _ _ E) as [I _].
  unfold advance, moved; rewrite I, app_nil_r.
  unfold NL; rewrite char_eqb; cbn [walk String.length]; unfold after_char.
  destruct (Ascii.eqb c "010"%char); reflexivity.
Qed.

(** *** The text a loop reads *)

(** The longest prefix of [s] made of characters that satisfy [p], and
    what follows it. *)
Fixpoint span (p : ascii -> bool) (s : string) : string * string :=
  match s with
  | EmptyString => (EmptyString, EmptyString)
  | String c s' =>
      if p c then (String c (fst (span p s')), snd (span p s'))
      else (EmptyString, s)
  end.

Definition ident_char (c : ascii) : bool :=
  isalnum_char c || Ascii.eqb c "_"%char.

(** What the loop of [number] accepts next, given [has_decimal]. *)
Definition number_char (has_decimal : bool) (c : ascii) : bool :=
  isdigit_char c || Ascii.eqb c "."%char && negb has_decimal.

(** The text the loop of [number] reads, what follows it, and the final
    [has_decimal]. *)
Fixpoint number_span (has_decimal : bool) (s : string)
  : string * string * bool :=
  match s with
  | EmptyString => (EmptyString, EmptyString, has_decimal)
  | String c s' =>
      if number_char has_decimal c then
        let res :=
          number_span (if Ascii.eqb c "."%char then true else has_decimal) s'
        in (String c (fst (fst res)), snd (fst res), snd res)
      else (EmptyString, s, has_decimal)
  end.

Lemma span_app (p : ascii -> bool) (s : string) :
  fst (span p s) ++ snd (span p s) = s.
Proof.
  induction s as [|c s IH]; simpl; auto.
  destruct (p c); simpl; congruence.
Qed.

Lemma span_all (p : ascii -> bool) (s : string) :
  all_chars p (fst (span p s)) = true.
Proof.
  induction s as [|c s IH]; simpl; auto.
  destruct (p c) eqn:E; simpl; auto. now rewrite E.
Qed.

Lemma number_span_app (d : bool) (s : string) :
  fst (fst (number_span d s)) ++ snd (fst (number_span d s)) = s.
Proof.
  revert d; induction s as [|c s IH]; intros d; simpl; auto.
  destruct (number_char d c); simpl; auto. now rewrite IH.
Qed.

Lemma comment_loop_exact (fuel : nat) (self : t) :
  (String.length (rest self) < fuel)%nat ->
  comment_loop fuel self
  = Ok tt (moved self (fst (span not_nl (rest self))) []).
Proof.
  revert self; induction fuel as [|fuel IH]; intros self H; [lia|].
  cbn [comment_loop].
  destruct (rest self) as [|c r] eqn:E; look E.
  - cbn [span fst]; now rewrite moved_nil.
  - cbn [span]; unfold not_nl at 1 2.
    destruct (Ascii.eqb c "010"%char) eqn:Hc; cbn [negb andb fst].
    + now rewrite moved_nil.
    + unfold bind; rewrite (advance_exact _ _ _ E).
      assert (R : rest (moved self (String c "") []) = r)
        by (apply rest_moved; now rewrite E).
      rewrite IH by (rewrite R; simpl in H; lia).
      now rewrite R, moved_moved.
Qed.

Lemma identifier_loop_exact (fuel : nat) (self : t) :
  (String.length (rest self) < fuel)%nat ->
  identifier_loop fuel self
  = Ok tt (moved self (fst (span ident_char (rest self))) []).
Proof.
  revert self; induction fuel as [|fuel IH]; intros self H; [lia|].
  cbn [identifier_loop].
  destruct (rest self) as [|c r] eqn:E; look E.
  - cbn [span fst]; now rewrite moved_nil.
  - cbn [span]; unfold ident_char at 1 2.
    destruct (isalnum_char c || Ascii.eqb c "_"%char) eqn:Hc; cbn [fst].
    + unfold bind; rewrite (advance_exact _ _ _ E).
      assert (R : rest (moved self (String c "") []) = r)
        by (apply rest_moved; now rewrite E).
      rewrite IH by (rewrite R; simpl in H; lia).
      now rewrite R, moved_moved.
    + now rewrite moved_nil.
Qed.

Lemma number_loop_exact (fuel : nat) (d : bool) (self : t) :
  (String.length (rest self) < fuel)%nat ->
  number_loop fuel d self
  = Ok (snd (number_span d (rest self)))
       (moved self (fst (fst (number_span d (rest self)))) []).
Proof.
  revert self d; induction fuel as [|fuel IH]; intros self d H; [lia|].
  cbn [number_loop].
  destruct (rest self) as [|c r] eqn:E; look E.
  - cbn [number_span fst snd]; now rewrite moved_nil.
  - cbn [number_span]; unfold number_char.
    destruct (isdigit_char c || Ascii.eqb c "."%char && negb d) eqn:Hc;
      cbn [fst snd].
    + unfold bind; rewrite (advance_exact _ _ _ E).
      assert (R : rest (moved self (String c "") []) = r)
        by (apply rest_moved; now rewrite E).
      rewrite IH by (rewrite R; simpl in H; lia).
      now rewrite R, moved_moved.
    + now rewrite moved_nil.
Qed.

(** *** One scanning step *)

(** The kind of a word: its keyword, or IDENTIFIER. *)
Definition word_type (w : string) : TokenType :=
  match lookup w keywords with
  | Some kw => kw
  | None => IDENTIFIER
  end.

Definition starts_with (p : ascii -> bool) (s : string) : bool :=
  match s with
  | String c _ => p c
  | EmptyString => false
  end.

(** One step on the text [String c r]: the kind of the token it emits,
    if any, the text it reads, and the text it leaves. *)
Definition scan1 (c : ascii) (r : string) : option TokenType * string * string :=
  if isspace_char c then (None, String c "", r)
  else if Ascii.eqb c "#"%char then
    (None, String c (fst (span not_nl r)), snd (span not_nl r))
  else
    match lookup (String c "") single_char_tokens with
    | Some ty => (Some ty, String c "", r)
    | None =>
        if isalpha_char c || Ascii.eqb c "_"%char then
          (Some (word_type (String c (fst (span ident_char r)))),
           String c (fst (span ident_char r)), snd (span ident_char r))
        else if isdigit_char c
                || Ascii.eqb c "."%char && starts_with isdigit_char r then
          let res := number_span (Ascii.eqb c "."%char) r in
          (Some (if snd res then FLOAT else INTEGER),
           String c (fst (fst res)), snd (fst res))
        else (Some UNKNOWN, String c "", r)
    end.

(** The token recorded for the kind [ty] once [w] is read from the line
    and column [lc]. *)
Definition emit (lc : Z * Z) (ty : option TokenType) (w : string)
  : list Token :=
  match ty with
  | None => []
  | Some ty =>
      [Token.mk ty w (fst (walk lc w))
                (snd (walk lc w) - Z.of_nat (String.length w))]
  end.

Lemma scan1_app (c : ascii) (r : string) :
  snd (fst (scan1 c r)) ++ snd (scan1 c r) = String c r.
Proof.
  unfold scan1.
  repeat match goal with
         | |- context [if ?b then _ else _] => destruct b
         | |- context [match ?o with Some _ => _ | None => _ end] =>
             destruct o
         end;
    cbn [fst snd append]; rewrite ?span_app, ?number_span_app; reflexivity.
Qed.

Lemma add_token_moved (ty : TokenType) (v w : string) (self : t) :
  v <> "" ->
  add_token ty v (moved self w [])
  = Ok tt (moved self w
             [Token.mk ty v (fst (walk (line self, column self) w))
                (snd (walk (line self, column self) w)
                 - Z.of_nat (String.length v))]).
Proof.
  intros Hv; unfold add_token, moved.
  apply String.eqb_neq in Hv; rewrite Hv.
  cbn [source position line column tokens]; now rewrite app_nil_r.
Qed.

Lemma walk_cons (lc : Z * Z) (c : ascii) (w : string) :
  walk (fst (walk lc (String c "")), snd (walk lc (String c ""))) w
  = walk lc (String c w).
Proof. cbn [walk]; now rewrite <- surjective_pairing. Qed.

(** A word or a number, after its first character [c0] is read: the
    state reached and the token emitted. *)
Lemma identifier_exact (self : t) (c0 : ascii) (r : string) :
  rest self = String c0 r ->
  identifier (moved self (String c0 "") [])
  = Ok tt (moved self (String c0 (fst (span ident_char r)))
             (emit (line self, column self)
                (Some (word_type (String c0 (fst (span ident_char r)))))
                (String c0 (fst (span ident_char r))))).
Proof.
  intros E.
  set (self1 := moved self (String c0 "") []).
  assert (R : rest self1 = r) by (apply rest_moved; now rewrite E).
  assert (P : position self1 = S (position self))
    by (unfold self1, moved; simpl; lia).
  assert (D : drop (position self) (source self1) = String c0 (rest self1))
    by (rewrite R; exact E).
  set (w := fst (span ident_char r)).
  assert (X : extends self1 (moved self1 w []) w []).
  { apply moved_extends with (r := snd (span ident_char r)).
    rewrite R; unfold w; now rewrite span_app. }
  unfold identifier, bind, gets.
  rewrite identifier_loop_exact by apply budget_enough.
  rewrite R; fold w.
  rewrite (lexeme_slice _ _ _ _ _ P D X).
  assert (N : String c0 w <> "") by discriminate.
  unfold word_type, emit.
  destruct (lookup (String c0 w) keywords);
    rewrite add_token_moved by exact N;
    unfold self1; rewrite moved_moved; cbn [append app];
    cbn [moved line column]; now rewrite !walk_cons.
Qed.

Lemma number_exact (first_char : string) (self : t) (c0 : ascii) (r : string) :
  rest self = String c0 r ->
  number first_char (moved self (String c0 "") [])
  = Ok tt (moved self
             (String c0 (fst (fst (number_span (first_char =? ".") r))))
             (emit (line self, column self)
                (Some (if snd (number_span (first_char =? ".") r)
                       then FLOAT else INTEGER))
                (String c0 (fst (fst (number_span (first_char =? ".") r)))))).
Proof.
  intros E.
  set (self1 := moved self (String c0 "") []).
  assert (R : rest self1 = r) by (apply rest_moved; now rewrite E).
  assert (P : position self1 = S (position self))
    by (unfold self1, moved; simpl; lia).
  assert (D : drop (position self) (source self1) = String c0 (rest self1))
    by (rewrite R; exact E).
  set (res := number_span (first_char =? ".") r).
  set (w := fst (fst res)).
  assert (X : extends self1 (moved self1 w []) w []).
  { apply moved_extends with (r := snd (fst res)).
    rewrite R; unfold w, res; now rewrite number_span_app. }
  unfold number, bind, gets.
  rewrite number_loop_exact by apply budget_enough.
  rewrite R; fold res; fold w.
  rewrite (lexeme_slice _ _ _ _ _ P D X).
  assert (N : String c0 w <> "") by discriminate.
  unfold emit.
  destruct (snd res);
    rewrite add_token_moved by exact N;
    unfold self1; rewrite moved_moved; cbn [append app];
    cbn [moved line column]; now rewrite !walk_cons.
Qed.

(** One call of [scan_token] on unread text does what [scan1] says. *)
Lemma scan_token_exact (self : t) (c : ascii) (r : string) :
  rest self = String c r ->
  scan_token self
  = Ok tt (moved self (snd (fst (scan1 c r)))
             (emit (line self, column self) (fst (fst (scan1 c r)))
                (snd (fst (scan1 c r))))).
Proof.
  intros E; unfold scan_token, scan1.
  unfold bind at 1; rewrite (advance_exact _ _ _ E).
  assert (R : rest (moved self (String c "") []) = r)
    by (apply rest_moved; now rewrite E).
  unfold isspace; rewrite str_pred_char.
  destruct (isspace_char c); [reflexivity|].
  change "#" with (String "#"%char ""); rewrite char_eqb.
  destruct (Ascii.eqb c "#"%char).
  { unfold bind, gets.
    rewrite comment_loop_exact by apply budget_enough.
    now rewrite R, moved_moved. }
  assert (N : String c "" <> "") by discriminate.
  destruct (lookup (String c "") single_char_tokens) as [ty|] eqn:K.
  { destruct (single_char_scanned _ _ K) as (_ & _ & N3).
    rewrite N3; unfold bind, ret.
    rewrite add_token_moved by exact N; reflexivity. }
  unfold isalpha; rewrite str_pred_char.
  change "_" with (String "_"%char ""); rewrite char_eqb.
  destruct (isalpha_char c || Ascii.eqb c "_"%char).
  { now apply identifier_exact. }
  unfold bind at 1, gets at 1.
  unfold isdigit at 1; rewrite str_pred_char.
  change "." with (String "."%char "") at 1; rewrite char_eqb.
  rewrite peek_rest, R.
  assert (Pk : isdigit match r with
                       | "" => ""
                       | String c1 _ => String c1 ""
                       end = starts_with isdigit_char r).
  { destruct r; [reflexivity|]. unfold isdigit; now rewrite str_pred_char. }
  rewrite Pk.
  destruct (isdigit_char c || Ascii.eqb c "."%char && starts_with isdigit_char r).
  { rewrite (number_exact _ _ _ _ E).
    change "." with (String "."%char ""); now rewrite char_eqb. }
  rewrite add_token_moved by exact N; reflexivity.
Qed.

(** *** The whole scan *)

(** The tokens of the text [s], read from the line and column [lc]. *)
Fixpoint scan_all (fuel : nat) (lc : Z * Z) (s : string) : list Token :=
  match fuel with
  | O => []
  | S fuel' =>
      match s with
      | EmptyString => []
      | String c r =>
          emit lc (fst (fst (scan1 c r))) (snd (fst (scan1 c r)))
          ++ scan_all fuel' (walk lc (snd (fst (scan1 c r)))) (snd (scan1 c r))
      end
  end.

Lemma scan1_read (c : ascii) (r : string) :
  exists w, snd (fst (scan1 c r)) = String c w.
Proof.
  unfold scan1.
  repeat match goal with
         | |- context [if ?b then _ else _] => destruct b
         | |- context [match ?o with Some _ => _ | None => _ end] =>
             destruct o
         end;
    cbn [fst snd]; eauto.
Qed.

Lemma scan1_shorter (c : ascii) (r : string) :
  (String.length (snd (scan1 c r)) <= String.length r)%nat.
Proof.
  pose proof (f_equal String.length (scan1_app c r)) as L.
  destruct (scan1_read c r) as [w E].
  rewrite length_append, E in L; simpl in L; lia.
Qed.

Lemma scan_loop_exact (fuel : nat) (self : t) :
  (String.length (rest self) < fuel)%nat ->
  scan_loop fuel self
  = Ok tt (moved self (rest self)
             (scan_all fuel (line self, column self) (rest self))).
Proof.
  revert self; induction fuel as [|fuel IH]; intros self H; [lia|].
  cbn [scan_loop scan_all]; rewrite is_at_end_rest.
  destruct (rest self) as [|c r] eqn:E; cbn [negb].
  - now rewrite moved_nil.
  - unfold bind; rewrite (scan_token_exact _ _ _ E).
    set (w := snd (fst (scan1 c r))).
    set (new := emit _ _ w).
    assert (R : rest (moved self w new) = snd (scan1 c r))
      by (apply rest_moved; rewrite E; unfold w; now rewrite scan1_app).
    rewrite IH.
    + rewrite R, moved_moved.
      replace (w ++ snd (scan1 c r)) with (String c r)
        by (unfold w; now rewrite scan1_app).
      cbn [moved line column]; now rewrite <- surjective_pairing.
    + rewrite R; pose proof (scan1_shorter c r); simpl in H; lia.
Qed.

(** More fuel than characters is all a scan needs. *)
Lemma scan_all_fuel (fuel fuel' : nat) (lc : Z * Z) (s : string) :
  (String.length s < fuel)%nat -> (String.length s < fuel')%nat ->
  scan_all fuel lc s = scan_all fuel' lc s.
Proof.
  revert fuel' lc s; induction fuel as [|fuel IH];
    intros [|fuel'] lc s H H'; try lia.
  destruct s as [|c r]; [reflexivity|].
  cbn [scan_all]; f_equal.
  pose proof (scan1_shorter c r); simpl in H, H'.
  apply IH; lia.
Qed.

(** The tokens and the final state of a scan of [src]. *)
Lemma tokenize_exact (src : string) :
  tokenize src
  = Ok (scan_all (S (String.length src)) (1, 1) src
        ++ [Token.mk EOF "EOF" (fst (walk (1, 1) src))
              (snd (walk (1, 1) src) - 3)])%list
       (moved (init src) src
          (scan_all (S (String.length src)) (1, 1) src
           ++ [Token.mk EOF "EOF" (fst (walk (1, 1) src))
                 (snd (walk (1, 1) src) - 3)])).
Proof.
  unfold tokenize, scan_tokens, bind, gets.
  assert (R : rest (init src) = src) by reflexivity.
  rewrite scan_loop_exact by apply budget_enough.
  rewrite R; unfold add_token; reflexivity.
Qed.

(** *** Lines and columns, read off the text *)

Definition is_lf (c : ascii) : bool := Ascii.eqb c "010"%char.

(** The number of line feeds of [s]. *)
Fixpoint count_lf (s : string) : Z :=
  match s with
  | EmptyString => 0
  | String c s' => (if is_lf c then 1 else 0) + count_lf s'
  end.

Fixpoint has_lf (s : string) : bool :=
  match s with
  | EmptyString => false
  | String c s' => is_lf c || has_lf s'
  end.

(** The text of [s] after its last line feed. *)
Fixpoint current_line (s : string) : string :=
  match s with
  | EmptyString => EmptyString
  | String c s' =>
      if has_lf s' then current_line s'
      else if is_lf c then s' else s
  end.

(** The line of the character that follows the text [s]: 1 for the
    first line. *)
Definition line_after (s : string) : Z := 1 + count_lf s.

(** The column of the character that follows the text [s]: 1 for the
    first of its line. *)
Definition column_after (s : string) : Z :=
  1 + Z.of_nat (String.length (current_line s)).

Lemma walk_from (s : string) (lc : Z * Z) :
  walk lc s
  = (fst lc + count_lf s,
     if has_lf s then column_after s
     else snd lc + Z.of_nat (String.length s)).
Proof.
  unfold column_after; revert lc; induction s as [|ch s IH]; intros [l c].
  - simpl; f_equal; lia.
  - cbn [walk]; rewrite IH; unfold after_char; fold (is_lf ch).
    cbn [count_lf has_lf current_line].
    destruct (is_lf ch), (has_lf s); cbn [fst snd orb String.length];
      f_equal; lia.
Qed.

Lemma walk_start (s : string) :
  walk (1, 1) s = (line_after s, column_after s).
Proof.
  rewrite walk_from; unfold line_after; cbn [fst snd]; f_equal.
  destruct (has_lf s) eqn:E; auto.
  unfold column_after; f_equal; f_equal; f_equal.
  clear - E; induction s as [|c s IH]; auto.
  cbn [has_lf] in E; apply orb_false_iff in E as [E1 E2].
  cbn [current_line]; now rewrite E1, E2.
Qed.

(** *** The form of a lexeme, and what follows it *)

Fixpoint count_char (c : ascii) (s : string) : nat :=
  match s with
  | EmptyString => O
  | String c' s' => (if Ascii.eqb c' c then 1 else 0) + count_char c s'
  end.

Definition float_char (c : ascii) : bool :=
  isdigit_char c || Ascii.eqb c "."%char.

Definition word_start (c : ascii) : bool :=
  isalpha_char c || Ascii.eqb c "_"%char.

(** The lexeme [w] has the form of a token of kind [ty]. *)
Definition well_formed (ty : TokenType) (w : string) : Prop :=
  match ty with
  | INTEGER => str_pred isdigit_char w = true
  | FLOAT =>
      all_chars float_char w = true
      /\ count_char "."%char w = 1%nat
      /\ starts_with isdigit_char w
         || starts_with isdigit_char (drop 1 w) = true
  | IDENTIFIER =>
      starts_with word_start w = true
      /\ all_chars ident_char w = true
      /\ lookup w keywords = None
  | FUNCTION | EXTERN | IF | THEN | ELSE | FOR | IN =>
      lookup w keywords = Some ty
  | UNKNOWN =>
      exists c, w = String c ""
                /\ kept c = true
                /\ lookup w single_char_tokens = None
                /\ word_start c = false
                /\ isdigit_char c = false
  | EOF | NOT_EQUAL => False
  | _ => lookup w single_char_tokens = Some ty
  end.

(** The text [next] that follows the lexeme [w] of a token of kind [ty]
    does not continue it. *)
Definition followed (ty : TokenType) (w next : string) : Prop :=
  match ty with
  | INTEGER => starts_with float_char next = false
  | FLOAT => starts_with isdigit_char next = false
  | IDENTIFIER | FUNCTION | EXTERN | IF | THEN | ELSE | FOR | IN =>
      starts_with ident_char next = false
  | UNKNOWN => w = "." -> starts_with isdigit_char next = false
  | _ => True
  end.

Lemma span_stop (p : ascii -> bool) (s : string) :
  starts_with p (snd (span p s)) = false.
Proof.
  induction s as [|c s IH]; simpl; auto.
  destruct (p c) eqn:E; simpl; auto.
Qed.

Lemma number_span_shape (d : bool) (s : string) :
  all_chars float_char (fst (fst (number_span d s))) = true
  /\ all_chars isdigit_char (fst (fst (number_span d s)))
     = negb (snd (number_span d s)) || d
  /\ count_char "."%char (fst (fst (number_span d s)))
     = (if snd (number_span d s) && negb d then 1 else 0)%nat
  /\ (d = true -> snd (number_span d s) = true)
  /\ starts_with (number_char (snd (number_span d s)))
       (snd (fst (number_span d s))) = false.
Proof.
  revert d; induction s as [|c s IH]; intros d.
  - cbn; repeat split; auto; destruct d; auto.
  - cbn [number_span].
    destruct (number_char d c) eqn:E'; pose proof E' as E;
      unfold number_char in E.
    + destruct (IH (if Ascii.eqb c "."%char then true else d))
        as (A & B & C & D & F).
      cbn [fst snd all_chars count_char]; rewrite A, B, C.
      unfold float_char at 1.
      destruct (Ascii.eqb c "."%char) eqn:Ec.
      * rewrite (D eq_refl) in *.
        assert (Hd : isdigit_char c = false)
          by (apply Ascii.eqb_eq in Ec; now subst c).
        rewrite Hd in *; cbn in E; apply negb_true_iff in E; subst d.
        repeat split; auto; discriminate.
      * rewrite orb_false_r in E; rewrite E.
        repeat split; auto.
    + cbn [fst snd all_chars count_char starts_with].
      rewrite E'; repeat split; auto; destruct d; auto.
Qed.

Lemma keywords_well_formed (w : string) (ty : TokenType) :
  lookup w keywords = Some ty -> well_formed ty w.
Proof.
  intros H; generalize H; unfold keywords at 1; cbn [lookup].
  repeat (match goal with
          | |- context [if w =? ?x then _ else _] =>
              destruct (w =? x); [intros [= <-]; exact H|]
          end).
  discriminate.
Qed.

Lemma single_char_well_formed (w : string) (ty : TokenType) :
  lookup w single_char_tokens = Some ty -> well_formed ty w.
Proof.
  intros H; generalize H; unfold single_char_tokens at 1; cbn [lookup].
  repeat (match goal with
          | |- context [if w =? ?x then _ else _] =>
              destruct (w =? x); [intros [= <-]; exact H|]
          end).
  discriminate.
Qed.

Lemma alpha_ident (c : ascii) : word_start c = true -> ident_char c = true.
Proof.
  unfold word_start, ident_char, isalnum_char.
  destruct (isalpha_char c), (Ascii.eqb c "_"%char); simpl; auto;
    try discriminate. intros _; apply orb_true_r.
Qed.

Lemma kept_not_nl (w : string) :
  all_chars kept w = true -> all_chars not_nl w = true.
Proof.
  induction w as [|c w IH]; simpl; auto.
  intros H; apply andb_prop in H as [Hc Hw]; rewrite IH by assumption.
  rewrite andb_true_r; unfold kept, not_nl in *.
  apply andb_prop in Hc as [Hs _]; apply negb_true_iff in Hs.
  destruct (Ascii.eqb c "010"%char) eqn:E; auto.
  apply Ascii.eqb_eq in E; subst c; discriminate Hs.
Qed.

Lemma all_chars_impl (p q : ascii -> bool) (w : string) :
  (forall c, p c = true -> q c = true) ->
  all_chars p w = true -> all_chars q w = true.
Proof.
  intros H; induction w as [|c w IH]; simpl; auto.
  intros A; apply andb_prop in A as [Hc Hw].
  now rewrite (H _ Hc), IH.
Qed.

(** What a step that emits a token has read, and what it has left. *)
Lemma scan1_token (c : ascii) (r : string) (ty : TokenType) :
  fst (fst (scan1 c r)) = Some ty ->
  all_chars kept (snd (fst (scan1 c r))) = true
  /\ well_formed ty (snd (fst (scan1 c r)))
  /\ followed ty (snd (fst (scan1 c r))) (snd (scan1 c r)).
Proof.
  unfold scan1.
  destruct (isspace_char c) eqn:Hs; [discriminate|].
  destruct (Ascii.eqb c "#"%char) eqn:Hh; [discriminate|].
  assert (Kc : kept c = true) by (unfold kept; now rewrite Hs, Hh).
  destruct (lookup (String c "") single_char_tokens) as [ty'|] eqn:K.
  { cbn [fst snd]; intros [= <-].
    pose proof (single_char_well_formed _ _ K) as W.
    split; [simpl; now rewrite Kc|]; split; [exact W|].
    destruct (single_char_scanned _ _ K) as (N1 & N2 & _).
    destruct ty'; try exact I; simpl in W; try discriminate W;
      revert K; clear; unfold single_char_tokens; cbn [lookup];
      repeat (match goal with
              | |- context [if ?a =? ?x then _ else _] =>
                  destruct (a =? x); [discriminate|]
              end); discriminate. }
  fold (word_start c).
  destruct (word_start c) eqn:Hw.
  { cbn [fst snd]; intros [= <-].
    set (w := fst (span ident_char r)).
    assert (Aw : all_chars ident_char w = true) by apply span_all.
    split; [|split].
    - simpl; rewrite Kc.
      apply (all_chars_impl ident_char); auto using alnum_kept.
    - unfold word_type.
      destruct (lookup (String c w) keywords) as [kw|] eqn:L.
      + now apply keywords_well_formed.
      + repeat split; auto.
        simpl; now rewrite (alpha_ident _ Hw), Aw.
    - pose proof (span_stop ident_char r) as St.
      unfold word_type.
      destruct (lookup (String c w) keywords) as [kw|] eqn:L; [|exact St].
      destruct (keywords_scanned _ _ L) as [N1 N2].
      pose proof (keywords_well_formed _ _ L) as W.
      destruct kw; try exact St; simpl in W; try (now contradiction);
        revert L; clear; unfold keywords; cbn [lookup];
        repeat (match goal with
                | |- context [if ?a =? ?x then _ else _] =>
                    destruct (a =? x); [discriminate|]
                end); discriminate. }
  destruct (isdigit_char c || Ascii.eqb c "."%char && starts_with isdigit_char r)
    eqn:Hd.
  { cbn [fst snd]; intros [= <-].
    destruct (number_span_shape (Ascii.eqb c "."%char) r)
      as (A & B & C & D & F).
    set (res := number_span (Ascii.eqb c "."%char) r) in *.
    assert (Fc : float_char c = true).
    { unfold float_char.
      destruct (isdigit_char c), (Ascii.eqb c "."%char); auto. }
    split; [|split].
    - simpl; rewrite Kc.
      apply (all_chars_impl float_char); auto using digit_kept.
    - destruct (snd res) eqn:Sd.
      + cbn [well_formed all_chars count_char starts_with drop].
        rewrite Fc, A, C.
        destruct (Ascii.eqb c "."%char) eqn:Ec.
        * assert (Hdg : isdigit_char c = false)
            by (apply Ascii.eqb_eq in Ec; now subst c).
          rewrite Hdg in *; cbn in Hd.
          repeat split; auto.
          cbn [orb]. unfold res.
          destruct r as [|c1 r1]; [discriminate Hd|].
          cbn [starts_with] in Hd; cbn [number_span].
          unfold number_char; rewrite Hd; cbn [orb fst starts_with].
          exact Hd.
        * cbn [andb] in Hd; rewrite orb_false_r in Hd; rewrite Hd.
          repeat split; auto.
      + cbn [well_formed str_pred all_chars].
        destruct (Ascii.eqb c "."%char) eqn:Ec;
          [discriminate (D eq_refl)|].
        cbn [andb] in Hd; rewrite orb_false_r in Hd; rewrite Hd, B.
        reflexivity.
    - destruct (snd res) eqn:Sd; cbn [followed];
        destruct (snd (fst res)) as [|c1 r1]; auto;
        cbn [starts_with] in *; unfold number_char in F; cbn [negb] in F.
      + now rewrite andb_false_r, orb_false_r in F.
      + now rewrite andb_true_r in F. }
  cbn [fst snd]; intros [= <-].
  split; [simpl; now rewrite Kc|]; split.
  - exists c; repeat split; auto.
    apply orb_false_iff in Hd as [Hd _]; exact Hd.
  - intros [= ->]; cbn in Hd.
    now destruct (starts_with isdigit_char r).
Qed.

(** *** Where the tokens are *)

(** The token [tok] lies in [src] at the offset [o]: the text there is
    its lexeme, and its line and column are those of that offset. *)
Definition at_offset (src : string) (tok : Token) (o : nat) : Prop :=
  slice src o (o + String.length (Token.value tok)) = Token.value tok
  /\ Token.line tok = line_after (String.substring 0 o src)
  /\ Token.column tok = column_after (String.substring 0 o src).

(** The tokens [toks] lie at the offsets [offs], in order and without
    overlap from [from] on, and each satisfies [Q] at its offset. *)
Fixpoint placed (Q : Token -> nat -> Prop) (from : nat)
         (toks : list Token) (offs : list nat) : Prop :=
  match toks, offs with
  | [], [] => True
  | tok :: toks', o :: offs' =>
      (from <= o)%nat /\ Q tok o
      /\ placed Q (o + String.length (Token.value tok)) toks' offs'
  | _, _ => False
  end.

Lemma placed_from (Q : Token -> nat -> Prop) (from from' : nat)
      (toks : list Token) (offs : list nat) :
  (from' <= from)%nat -> placed Q from toks offs -> placed Q from' toks offs.
Proof.
  destruct toks, offs; simpl; auto.
  intros L (H & R); split; auto; lia.
Qed.

Lemma placed_impl (Q Q' : Token -> nat -> Prop) (from : nat)
      (toks : list Token) (offs : list nat) :
  (forall tok o, Q tok o -> Q' tok o) ->
  placed Q from toks offs -> placed Q' from toks offs.
Proof.
  intros I; revert from offs; induction toks as [|tok toks IH];
    intros from [|o offs]; simpl; auto.
  intros (L & H & R); auto.
Qed.

Lemma placed_forall (Q : Token -> nat -> Prop) (from : nat)
      (toks : list Token) (offs : list nat) :
  placed Q from toks offs -> Forall (fun tok => exists o, Q tok o) toks.
Proof.
  revert from offs; induction toks as [|tok toks IH];
    intros from [|o offs]; simpl; auto; try contradiction.
  intros (L & H & R); constructor; eauto.
Qed.

(** What holds of a scanned token at its offset. *)
Definition scanned_at (src : string) (tok : Token) (o : nat) : Prop :=
  at_offset src tok o
  /\ well_formed (Token.type tok) (Token.value tok)
  /\ followed (Token.type tok) (Token.value tok)
       (drop (o + String.length (Token.value tok)) src).

Lemma scan_all_placed (src : string) (fuel : nat) (pre s : string) :
  src = pre ++ s -> (String.length s < fuel)%nat ->
  exists offs,
    placed (scanned_at src) (String.length pre)
      (scan_all fuel (walk (1, 1) pre) s) offs.
Proof.
  revert pre s; induction fuel as [|fuel IH]; intros pre s E H; [lia|].
  destruct s as [|c r]; [exists []; exact I|].
  cbn [scan_all].
  set (ty := fst (fst (scan1 c r))).
  set (w := snd (fst (scan1 c r))).
  set (r' := snd (scan1 c r)).
  assert (A : w ++ r' = String c r) by apply scan1_app.
  assert (E' : src = (pre ++ w) ++ r')
    by (now rewrite append_assoc, A).
  destruct (IH (pre ++ w) r' E') as [offs P].
  { pose proof (scan1_shorter c r) as Sh; fold r' in Sh; simpl in H; lia. }
  rewrite walk_app, length_append in P.
  destruct ty as [t|] eqn:T; cbn [emit app].
  - destruct (scan1_token c r t T) as (K & W & F); fold w r' in K, W, F.
    exists (String.length pre :: offs); cbn [placed Token.value].
    split; [lia|]; split; [|exact P].
    assert (D : drop (String.length pre) src = w ++ r')
      by (rewrite E, A; apply drop_app).
    assert (Wk : walk (walk (1, 1) pre) w
                 = (fst (walk (1, 1) pre),
                    snd (walk (1, 1) pre) + Z.of_nat (String.length w)))
      by (apply walk_line, kept_not_nl, K).
    assert (Pre : String.substring 0 (String.length pre) src = pre)
      by (rewrite E; apply substring_app).
    unfold scanned_at, at_offset; cbn [Token.type Token.value Token.line
      Token.column].
    rewrite Wk, Pre, (walk_start pre); cbn [fst snd].
    repeat split; auto; try lia.
    + apply slice_drop with (r := r'); auto; try lia.
      rewrite E, length_append; lia.
    + pose proof (f_equal (drop (String.length w)) D) as D'.
      rewrite <- drop_drop, drop_app in D'; now rewrite D'.
  - exists offs; eapply placed_from; [|exact P]; lia.
Qed.

(** X1.  Every token before the end marker lies in the source: at some
    offset the text of the source is its lexeme, its line is one more
    than the number of line feeds before that offset and its column one
    more than the number of characters between the last of them and
    the offset; the tokens follow one another without overlap. *)
Theorem tokens_are_located (source : string) :
  exists tokens final front eof offsets,
    tokenize source = Ok tokens final
    /\ tokens = (front ++ [eof])%list
    /\ placed (at_offset source) 0 front offsets.
Proof.
  destruct (scan_all_placed source (S (String.length source)) "" source)
    as [offs P]; auto.
  eexists _, _, _, _, offs; split; [apply tokenize_exact|].
  split; [reflexivity|].
  eapply placed_impl; [|exact P]; now intros tok o (H & _).
Qed.

(** X2.  The end marker is recorded on the last line of the source (one
    more than the number of its line feeds), three columns before the
    column that follows the last character. *)
Theorem eof_position (source : string) :
  exists tokens final front eof,
    tokenize source = Ok tokens final
    /\ tokens = (front ++ [eof])%list
    /\ Token.type eof = EOF
    /\ Token.value eof = "EOF"
    /\ Token.line eof = line_after source
    /\ Token.column eof = column_after source - 3.
Proof.
  eexists _, _, _, _; split; [apply tokenize_exact|].
  split; [reflexivity|]; cbn [Token.type Token.value Token.line Token.column].
  now rewrite walk_start.
Qed.

(** X3.  The kind of every token before the end marker fits its
    lexeme: an INTEGER is a non-empty run of digits, a FLOAT a run of
    digits with exactly one point, an IDENTIFIER a word that is no
    keyword, a keyword kind the lexeme of that keyword, an operator or
    punctuation kind the one character of that kind, and UNKNOWN a
    single character of no other class; none is EOF or NOT_EQUAL. *)
Theorem tokens_are_well_formed (source : string) :
  exists tokens final,
    tokenize source = Ok tokens final
    /\ Forall (fun tok => well_formed (Token.type tok) (Token.value tok))
         (strip_last tokens).
Proof.
  destruct (scan_all_placed source (S (String.length source)) "" source)
    as [offs P]; auto.
  eexists _, _; split; [apply tokenize_exact|].
  unfold strip_last; rewrite removelast_last.
  apply placed_forall in P.
  eapply Forall_impl; [|exact P]; now intros tok (o & _ & H & _).
Qed.

(** X4.  Tokens are as long as they can be: in the source, the
    character after a word is no letter, digit or underscore; the one
    after an INTEGER is no digit and no point, the one after a FLOAT no
    digit; and a point left as UNKNOWN is followed by no digit. *)
Theorem tokens_are_maximal (source : string) :
  exists tokens final front eof offsets,
    tokenize source = Ok tokens final
    /\ tokens = (front ++ [eof])%list
    /\ placed
         (fun tok o =>
            slice source o (o + String.length (Token.value tok))
            = Token.value tok
            /\ followed (Token.type tok) (Token.value tok)
                 (drop (o + String.length (Token.value tok)) source))
         0 front offsets.
Proof.
  destruct (scan_all_placed source (S (String.length source)) "" source)
    as [offs P]; auto.
  eexists _, _, _, _, offs; split; [apply tokenize_exact|].
  split; [reflexivity|].
  eapply placed_impl; [|exact P]; now intros tok o ((H & _) & _ & F).
Qed.

(** *** Line by line *)

(** The token [tok], [k] lines further down. *)
Definition down (k : Z) (tok : Token) : Token :=
  Token.mk (Token.type tok) (Token.value tok) (Token.line tok + k)
           (Token.column tok).

Lemma walk_down (w : string) (l c k : Z) :
  walk (l + k, c) w = (fst (walk (l, c) w) + k, snd (walk (l, c) w)).
Proof.
  revert l c; induction w as [|ch w IH]; intros l c; [reflexivity|].
  cbn [walk]; unfold after_char; cbn [fst snd].
  destruct (Ascii.eqb ch "010"%char); [|apply IH].
  replace (l + k + 1) with (l + 1 + k) by lia; apply IH.
Qed.

Lemma scan_all_down (fuel : nat) (l c k : Z) (s : string) :
  scan_all fuel (l + k, c) s = map (down k) (scan_all fuel (l, c) s).
Proof.
  revert l c s; induction fuel as [|fuel IH]; intros l c s; [reflexivity|].
  destruct s as [|ch r]; [reflexivity|].
  cbn [scan_all]; rewrite map_app, walk_down, IH.
  rewrite <- surjective_pairing; f_equal.
  destruct (fst (fst (scan1 ch r))); [|reflexivity].
  cbn [emit map]; rewrite walk_down; reflexivity.
Qed.

Lemma span_line (p : ascii -> bool) (r b : string) :
  p "010"%char = false ->
  span p (r ++ NL ++ b) = (fst (span p r), snd (span p r) ++ NL ++ b).
Proof.
  intros H; induction r as [|c r IH]; cbn [append span].
  - unfold NL; cbn [append span]; now rewrite H.
  - rewrite IH; destruct (p c); reflexivity.
Qed.

Lemma number_span_line (d : bool) (r b : string) :
  number_span d (r ++ NL ++ b)
  = (fst (fst (number_span d r)), snd (fst (number_span d r)) ++ NL ++ b,
     snd (number_span d r)).
Proof.
  revert d; induction r as [|c r IH]; intros d; cbn [append number_span].
  - unfold NL; cbn [append number_span]; unfold number_char.
    cbn; reflexivity.
  - rewrite IH; destruct (number_char d c); reflexivity.
Qed.

Lemma starts_with_line (r b : string) :
  starts_with isdigit_char (r ++ NL ++ b) = starts_with isdigit_char r.
Proof. destruct r; reflexivity. Qed.

(** A step does not look past the end of the line. *)
Lemma scan1_line (c : ascii) (r b : string) :
  scan1 c (r ++ NL ++ b)
  = (fst (fst (scan1 c r)), snd (fst (scan1 c r)),
     snd (scan1 c r) ++ NL ++ b).
Proof.
  unfold scan1.
  rewrite !span_line, number_span_line, starts_with_line by reflexivity.
  cbn [fst snd].
  repeat match goal with
         | |- context [if ?x then _ else _] => destruct x
         | |- context [match ?o with Some _ => _ | None => _ end] =>
             destruct o
         end; reflexivity.
Qed.

Lemma scan_all_line (fuel : nat) (lc : Z * Z) (a b : string) :
  (String.length (a ++ NL ++ b) < fuel)%nat ->
  scan_all fuel lc (a ++ NL ++ b)
  = (scan_all fuel lc a ++ scan_all fuel (fst (walk lc a) + 1, 1) b)%list.
Proof.
  revert lc a; induction fuel as [|fuel IH]; intros lc a H; [lia|].
  rewrite !length_append in H; cbn [NL String.length] in H.
  destruct a as [|c r].
  - change (scan_all (S fuel) lc ("" ++ NL ++ b))
      with (scan_all fuel (after_char lc "010"%char) b).
    change (scan_all (S fuel) lc "") with (@nil Token).
    cbn [app walk]; unfold after_char; cbn [Ascii.eqb fst snd].
    apply scan_all_fuel; simpl in H; lia.
  - pose proof (scan1_shorter c r) as Sh.
    rewrite (scan_all_fuel (S fuel) fuel _ b) by (simpl in H; lia).
    cbn [append scan_all]; rewrite scan1_line; cbn [fst snd].
    rewrite IH by (rewrite !length_append; cbn [NL String.length];
                   simpl in H; lia).
    rewrite <- app_assoc; f_equal; f_equal.
    now rewrite <- walk_app, scan1_app.
Qed.

(** X5.  Lines are scanned independently: the tokens of two texts
    joined by a line feed are the tokens of the first (without its end
    marker) followed by the tokens of the second, moved down by the
    number of lines of the first. *)
Theorem lines_are_scanned_independently (a b : string) :
  exists ta fa tb fb tab fab,
    tokenize a = Ok ta fa
    /\ tokenize b = Ok tb fb
    /\ tokenize (a ++ NL ++ b) = Ok tab fab
    /\ tab = (strip_last ta ++ map (down (line_after a)) tb)%list.
Proof.
  eexists _, _, _, _, _, _.
  split; [apply tokenize_exact|].
  split; [apply tokenize_exact|].
  split; [apply tokenize_exact|].
  unfold strip_last; rewrite removelast_last, map_app.
  rewrite scan_all_line by lia.
  rewrite <- app_assoc; f_equal.
  - apply scan_all_fuel; rewrite ?length_append; lia.
  - rewrite (walk_start a); cbn [fst].
    replace (line_after a + 1, 1) with (1 + line_after a, 1)
      by (f_equal; lia).
    rewrite scan_all_down; f_equal.
    + f_equal; apply scan_all_fuel; rewrite ?length_append; simpl; lia.
    + cbn [map down Token.type Token.value Token.line Token.column].
      rewrite walk_app, (walk_start a); unfold NL; cbn [append walk].
      unfold after_char; rewrite Ascii.eqb_refl; cbn [fst snd].
      replace (line_after a + 1, 1) with (1 + line_after a, 1)
        by (f_equal; lia).
      rewrite walk_down; reflexivity.
Qed.

(** *** Scanning the lexemes again *)

(** The kind and the lexeme of a token, without its place. *)
Definition kind_of (tok : Token) : TokenType * string :=
  (Token.type tok, Token.value tok).

(** The lexemes [ws], each followed by one space. *)
Fixpoint spaced (ws : list string) : string :=
  match ws with
  | [] => ""
  | w :: ws' => w ++ String " " (spaced ws')
  end.

Lemma span_sep (p : ascii -> bool) (r x : string) (ch : ascii) :
  p ch = false ->
  span p (fst (span p r) ++ String ch x) = (fst (span p r), String ch x).
Proof.
  intros H; induction r as [|c r IH]; cbn [span].
  - cbn [fst append span]; now rewrite H.
  - destruct (p c) eqn:E; cbn [fst append span].
    + now rewrite E, IH.
    + now rewrite H.
Qed.

Lemma number_span_sep (d : bool) (r x : string) :
  number_span d (fst (fst (number_span d r)) ++ String " " x)
  = (fst (fst (number_span d r)), String " " x, snd (number_span d r)).
Proof.
  revert d; induction r as [|c r IH]; intros d; cbn [number_span].
  - cbn [fst snd append number_span].
    replace (number_char d " ") with false by (now destruct d).
    reflexivity.
  - destruct (number_char d c) eqn:E; cbn [fst snd append number_span].
    + now rewrite E, IH.
    + replace (number_char d " ") with false by (now destruct d).
      reflexivity.
Qed.

Lemma number_span_starts (d : bool) (r y : string) :
  starts_with isdigit_char r = true ->
  starts_with isdigit_char (fst (fst (number_span d r)) ++ y) = true.
Proof.
  destruct r as [|c r]; [discriminate|].
  cbn [starts_with number_span]; unfold number_char; intros H.
  rewrite H; cbn [orb fst snd append starts_with]; exact H.
Qed.

(** A step that emits a token reads the same lexeme, and emits the same
    kind, when a space follows the lexeme. *)
Lemma scan1_sep (c : ascii) (r u x : string) (ty : TokenType) :
  fst (fst (scan1 c r)) = Some ty ->
  snd (fst (scan1 c r)) = String c u ->
  scan1 c (u ++ String " " x) = (Some ty, String c u, String " " x).
Proof.
  unfold scan1.
  destruct (isspace_char c); [discriminate|].
  destruct (Ascii.eqb c "#"%char); [discriminate|].
  destruct (lookup (String c "") single_char_tokens) as [ty'|].
  { cbn [fst snd]; intros [= ->] [= <-]; reflexivity. }
  destruct (isalpha_char c || Ascii.eqb c "_"%char).
  { cbn [fst snd]; intros [= <-] [= <-].
    now rewrite span_sep by reflexivity. }
  destruct (isdigit_char c) eqn:D; cbn [orb].
  { cbn [fst snd]; intros [= <-] [= <-].
    now rewrite number_span_sep. }
  destruct (Ascii.eqb c "."%char) eqn:P; cbn [andb].
  - destruct (starts_with isdigit_char r) eqn:Sd.
    + cbn [fst snd]; intros [= <-] [= <-].
      now rewrite number_span_sep, number_span_starts.
    + cbn [fst snd]; intros [= <-] [= <-]; reflexivity.
  - cbn [fst snd]; intros [= <-] [= <-]; reflexivity.
Qed.

Lemma kind_of_emit (lc lc' : Z * Z) (ty : option TokenType) (w : string) :
  map kind_of (emit lc' ty w) = map kind_of (emit lc ty w).
Proof. now destruct ty. Qed.

Lemma rescan (fuel : nat) :
  forall (fuel' : nat) (lc lc' : Z * Z) (s : string),
    (String.length s < fuel)%nat ->
    (String.length (spaced (map Token.value (scan_all fuel lc s))) < fuel')%nat ->
    map kind_of (scan_all fuel' lc' (spaced (map Token.value (scan_all fuel lc s))))
    = map kind_of (scan_all fuel lc s).
Proof.
  induction fuel as [|fuel IH]; intros fuel' lc lc' s H H'; [lia|].
  destruct s as [|c r].
  { destruct fuel'; reflexivity. }
  cbn [scan_all] in *.
  pose proof (scan1_shorter c r) as Sh.
  destruct (scan1_read c r) as [u U].
  destruct (fst (fst (scan1 c r))) as [ty|] eqn:K.
  - cbn [emit app map spaced Token.value] in *.
    rewrite U in *; cbn [append] in *.
    destruct fuel' as [|fuel']; [simpl in H'; lia|].
    cbn [scan_all]; rewrite (scan1_sep c r u _ ty K U); cbn [fst snd].
    cbn [emit app map kind_of Token.type Token.value]; f_equal.
    simpl in H'; rewrite length_append in H'; cbn [String.length] in H'.
    destruct fuel' as [|fuel']; [lia|].
    cbn [scan_all scan1]; cbn [isspace_char]; cbn.
    apply IH; simpl in H; lia.
  - cbn [emit app] in *; apply IH; [simpl in H; lia|exact H'].
Qed.

Lemma tokenize_spaced (source : string) :
  exists front eof final front' eof' final',
    tokenize source = Ok (front ++ [eof])%list final
    /\ tokenize (spaced (map Token.value front))
       = Ok (front' ++ [eof'])%list final'
    /\ map kind_of front' = map kind_of front
    /\ kind_of eof' = kind_of eof.
Proof.
  eexists _, _, _, _, _, _.
  split; [apply tokenize_exact|].
  split; [apply tokenize_exact|].
  split; [apply rescan; lia|reflexivity].
Qed.

(** X6.  Scanning is stable: the lexemes of a scan, written one after
    another with a space after each, scan to tokens of the same kinds
    with the same lexemes. *)
Theorem lexemes_scan_to_themselves (source : string) :
  exists tokens final tokens' final',
    tokenize source = Ok tokens final
    /\ tokenize (spaced (map Token.value (strip_last tokens)))
       = Ok tokens' final'
    /\ map kind_of tokens' = map kind_of tokens.
Proof.
  destruct (tokenize_spaced source)
    as (front & eof & final & front' & eof' & final' & T & T' & F & E).
  exists (front ++ [eof])%list, final, (front' ++ [eof'])%list, final'.
  split; [exact T|].
  unfold strip_last; rewrite removelast_last.
  split; [exact T'|].
  rewrite !map_app, F; cbn [map]; now rewrite E.
Qed.

End Scan.

(** ** The evaluator, from one token sequence to another *)

(** *** Kinds and lexemes decide, wherever the tokens lie *)

(** Two reads give tokens of the same kind and lexeme, or both fail. *)
Definition alike (o o' : option Token) : Prop :=
  match o, o' with
  | Some t, Some t' => Scan.kind_of t = Scan.kind_of t'
  | None, None => True
  | _, _ => False
  end.

(** The outcome [o], with its cursor [off] places further. *)
Definition moved_by {A : Type} (off : nat) (o : outcome nat A)
  : outcome nat A :=
  match o with
  | Ok a p => Ok a (off + p)%nat
  | Raise e p => Raise e (off + p)%nat
  | NoFuel => NoFuel
  end.

Section Shift.
Variable rt : Runtime.
Variables tokens tokens' : list Token.
Variable off : nat.

(** [tokens'] holds, [off] places further, what [tokens] holds. *)
Hypothesis same :
  forall i, alike (nth_error tokens i) (nth_error tokens' (off + i)).

(** [m'] over [tokens'] does, [off] places further, what [m] does over
    [tokens]. *)
Definition shifted {A : Type} (m m' : M nat A) : Prop :=
  forall pos : nat, m' (off + pos)%nat = moved_by off (m pos).

Lemma shifted_ret {A : Type} (a : A) : shifted (ret a) (ret a).
Proof. intros pos; reflexivity. Qed.

Lemma shifted_lift {A : Type} (r : result A) : shifted (lift r) (lift r).
Proof. intros pos; now destruct r. Qed.

Lemma shifted_bind {A B : Type} (m m' : M nat A) (k k' : A -> M nat B) :
  shifted m m' -> (forall a, shifted (k a) (k' a)) ->
  shifted (bind m k) (bind m' k').
Proof.
  intros Hm Hk pos; unfold bind; rewrite Hm.
  destruct (m pos) as [a p|e p|]; cbn [moved_by]; auto.
  apply Hk.
Qed.

Lemma type_in_alike (t t' : Token) (types : list TokenType) :
  Scan.kind_of t = Scan.kind_of t' -> type_in t' types = type_in t types.
Proof. unfold type_in; now intros [= -> _]. Qed.

Lemma peek_in_same (types : list TokenType) (pos : nat) :
  peek_in tokens' types (off + pos) = peek_in tokens types pos.
Proof.
  unfold peek_in; pose proof (same pos) as S; unfold alike in S.
  destruct (nth_error tokens pos), (nth_error tokens' (off + pos));
    try contradiction; auto using type_in_alike.
Qed.

Lemma shifted_read {B : Type} (k k' : Token -> M nat B) :
  (forall t t', Scan.kind_of t = Scan.kind_of t' -> shifted (k t) (k' t')) ->
  shifted (token <- tokens_at_pos tokens ;; pos_increment ;; k token)
          (token <- tokens_at_pos tokens' ;; pos_increment ;; k' token).
Proof.
  intros Hk pos; rewrite !read_eq.
  pose proof (same pos) as S; unfold alike in S.
  destruct (nth_error tokens pos), (nth_error tokens' (off + pos));
    try contradiction; [|reflexivity].
  replace (off + pos + 1)%nat with (off + (pos + 1))%nat by lia.
  now apply Hk.
Qed.

Lemma shifted_next_inc {B : Type} (types : list TokenType)
      (k1 k1' k2 k2' : M nat B) :
  shifted k1 k1' -> shifted k2 k2' ->
  shifted (c <- next_type_in tokens types ;;
           if c : bool then pos_increment ;; k1 else k2)
          (c <- next_type_in tokens' types ;;
           if c : bool then pos_increment ;; k1' else k2').
Proof.
  intros H1 H2 pos; rewrite !next_inc_eq, peek_in_same.
  destruct (peek_in tokens types pos); [|apply H2].
  replace (off + pos + 1)%nat with (off + (pos + 1))%nat by lia.
  apply H1.
Qed.

Lemma shifted_next_read {B : Type} (types : list TokenType)
      (k1 k1' : Token -> M nat B) (k2 k2' : M nat B) :
  (forall t t', Scan.kind_of t = Scan.kind_of t' ->
                shifted (k1 t) (k1' t')) ->
  shifted k2 k2' ->
  shifted (c <- next_type_in tokens types ;;
           if c : bool
           then token <- tokens_at_pos tokens ;; pos_increment ;; k1 token
           else k2)
          (c <- next_type_in tokens' types ;;
           if c : bool
           then token <- tokens_at_pos tokens' ;; pos_increment ;; k1' token
           else k2').
Proof.
  intros H1 H2 pos; rewrite !next_read_eq.
  pose proof (same pos) as S; unfold alike in S.
  destruct (nth_error tokens pos) as [t|],
    (nth_error tokens' (off + pos)) as [t'|]; try contradiction;
    [|apply H2].
  rewrite (type_in_alike t t' types S).
  destruct (type_in t types); [|apply H2].
  replace (off + pos + 1)%nat with (off + (pos + 1))%nat by lia.
  now apply H1.
Qed.

Ltac same_token :=
  let H := fresh "H" in
  intros [? ? ? ?] [? ? ? ?] H; injection H as <- <-;
  cbn [Token.type Token.value].

Ltac shifted_step :=
  first
    [ apply shifted_ret
    | apply shifted_lift
    | apply shifted_read; same_token
    | apply shifted_next_inc
    | apply shifted_next_read; [same_token|]
    | apply shifted_bind; [|intros ?]
    | match goal with
      | |- shifted (match ?c with _ => _ end) _ => destruct c
      end ].

Lemma shift_all (fuel : nat) :
  shifted (expression rt tokens fuel) (expression rt tokens' fuel)
  /\ shifted (term rt tokens fuel) (term rt tokens' fuel)
  /\ (forall left, shifted (term_loop rt tokens fuel left)
                           (term_loop rt tokens' fuel left))
  /\ shifted (factor rt tokens fuel) (factor rt tokens' fuel)
  /\ (forall left, shifted (factor_loop rt tokens fuel left)
                           (factor_loop rt tokens' fuel left))
  /\ shifted (power rt tokens fuel) (power rt tokens' fuel)
  /\ shifted (primary rt tokens fuel) (primary rt tokens' fuel).
Proof.
  induction fuel as [|fuel (IHe & IHt & IHtl & IHf & IHfl & IHp & IHpr)].
  { repeat split; intros; intros pos; reflexivity. }
  repeat split; intros;
    rewrite ?expression_S, ?term_S, ?term_loop_S, ?factor_S,
      ?factor_loop_S, ?power_S, ?primary_S; unfold call;
    repeat first
      [ apply IHe | apply IHt | apply IHtl | apply IHf | apply IHfl
      | apply IHp | apply IHpr | shifted_step ].
Qed.

End Shift.

Lemma moved_by_0 {A : Type} (o : outcome nat A) : moved_by 0 o = o.
Proof. now destruct o. Qed.

Lemma alike_map (tokens tokens' : list Token) (i : nat) :
  map Scan.kind_of tokens' = map Scan.kind_of tokens ->
  alike (nth_error tokens i) (nth_error tokens' i).
Proof.
  intros H; apply (f_equal (fun l => nth_error l i)) in H.
  rewrite !nth_error_map in H; unfold alike.
  destruct (nth_error tokens i), (nth_error tokens' i);
    cbn in H; first [exact I | congruence].
Qed.

Lemma calculate_alike (rt : Runtime) (tokens tokens' : list Token) :
  map Scan.kind_of tokens' = map Scan.kind_of tokens ->
  calculate rt tokens' = calculate rt tokens.
Proof.
  intros H; unfold calculate, calculate_fuel.
  replace (List.length tokens') with (List.length tokens)
    by (rewrite <- (length_map Scan.kind_of tokens), <- H;
        apply length_map).
  destruct (shift_all rt tokens tokens' 0
              (fun i => alike_map tokens tokens' i H)
              (5 * List.length tokens + 5)) as (S & _).
  rewrite <- (moved_by_0 (expression rt tokens _ _)); apply (S 0%nat).
Qed.

(** X7.  The evaluator reads the kinds and the lexemes of the tokens
    and nothing else: two token sequences with the same kinds and
    lexemes, whatever their lines and columns, have the same outcome. *)
Theorem positions_are_not_read (rt : Runtime) (tokens tokens' : list Token) :
  map Scan.kind_of tokens' = map Scan.kind_of tokens ->
  calculate rt tokens' = calculate rt tokens.
Proof. apply calculate_alike. Qed.

Lemma positions_are_not_read_witness :
  calculate bare_runtime
    [Token.mk INTEGER "2" 7 3; Token.mk PLUS "+" 8 1;
     Token.mk INTEGER "3" 9 40]
  = calculate bare_runtime
      [Token.mk INTEGER "2" 1 1; Token.mk PLUS "+" 1 3;
       Token.mk INTEGER "3" 1 5].
Proof.
  apply (positions_are_not_read bare_runtime
           [Token.mk INTEGER "2" 1 1; Token.mk PLUS "+" 1 3;
            Token.mk INTEGER "3" 1 5]
           [Token.mk INTEGER "2" 7 3; Token.mk PLUS "+" 8 1;
            Token.mk INTEGER "3" 9 40]).
  reflexivity.
Defined.

(** X8.  The layout of a source does not matter to its value: the
    lexemes of the source, written with one space after each, evaluate
    as the source does. *)
Theorem layout_is_not_read (rt : Runtime) (source : string) :
  exists tokens final,
    tokenize source = Ok tokens final
    /\ evaluate rt (Scan.spaced (map Token.value (strip_last tokens)))
       = evaluate rt source.
Proof.
  destruct (Scan.tokenize_spaced source)
    as (front & eof & final & front' & eof' & final' & T & T' & F & E).
  exists (front ++ [eof])%list, final; split; [exact T|].
  unfold evaluate, strip_last; rewrite T, !removelast_last, T'.
  rewrite removelast_last; now apply calculate_alike.
Qed.

(** *** A primary on its own *)

(** The kinds that continue an expression after a primary. *)
Definition operators : list TokenType :=
  [PLUS; MINUS; MULTIPLY; DIVIDE; MODULO; POWER].

Lemma peek_in_operators (tokens : list Token) (q : nat) :
  peek_in tokens operators q = false ->
  peek_in tokens [POWER] q = false
  /\ peek_in tokens [MULTIPLY; DIVIDE; MODULO] q = false
  /\ peek_in tokens [PLUS; MINUS] q = false.
Proof.
  unfold peek_in, type_in, operators.
  destruct (nth_error tokens q) as [token|]; [|auto].
  destruct (Token.type token); cbn; auto; discriminate.
Qed.

Lemma peek_in_end (tokens : list Token) (types : list TokenType) (q : nat) :
  (List.length tokens <= q)%nat -> peek_in tokens types q = false.
Proof.
  intros H; unfold peek_in.
  now rewrite (proj2 (nth_error_None tokens q) H).
Qed.

Lemma loop_ends (rt : Runtime) (tokens : list Token) (fuel q : nat)
      (left : value) :
  peek_in tokens operators q = false ->
  factor_loop rt tokens (S fuel) left q = Ok left q
  /\ term_loop rt tokens (S fuel) left q = Ok left q.
Proof.
  intros H; apply peek_in_operators in H; destruct H as (_ & F & T).
  rewrite factor_loop_S, term_loop_S, !next_read_eq.
  unfold peek_in in F, T.
  destruct (nth_error tokens q) as [token|]; [|auto].
  now rewrite F, T.
Qed.

(** A primary followed by no operator is the whole expression. *)
Lemma primary_alone (rt : Runtime) (tokens : list Token) (fuel pos : nat)
      (o : outcome nat value) :
  primary rt tokens fuel pos = o ->
  (forall v q, o = Ok v q -> peek_in tokens operators q = false) ->
  expression rt tokens (S (S (S (S fuel)))) pos = o.
Proof.
  intros P H.
  rewrite expression_S, term_S, factor_S, power_S.
  unfold bind at 1 2 3; rewrite P.
  destruct o as [v q|e q|]; auto.
  specialize (H v q eq_refl).
  rewrite next_inc_eq, (proj1 (peek_in_operators tokens q H)).
  cbn [ret].
  destruct fuel as [|fuel]; [discriminate|].
  destruct (loop_ends rt tokens (S fuel) q v H) as [-> _].
  now destruct (loop_ends rt tokens (S (S fuel)) q v H) as [_ ->].
Qed.

(** *** A group or a call around an expression *)

Lemma alike_refl (o : option Token) : alike o o.
Proof. now destruct o. Qed.

Lemma alike_after (pre tokens : list Token) (i : nat) :
  alike (nth_error tokens i) (nth_error (pre ++ tokens) (List.length pre + i)).
Proof.
  rewrite nth_error_app2 by lia.
  replace (List.length pre + i - List.length pre)%nat with i by lia.
  apply alike_refl.
Qed.

(** An argument that evaluates to [v] up to the closing parenthesis,
    read after the tokens [pre]: the rest [g] of the rule goes on with
    [v] after the parenthesis. *)
Lemma argument (rt : Runtime) (pre ts : list Token) (close : Token)
      (v : value) (fuel : nat) (g : value -> M nat value) :
  Token.type close = RIGHT_PAREN ->
  expression rt (ts ++ [close]) fuel 0%nat = Ok v (List.length ts) ->
  (arg <- expression rt (pre ++ ts ++ [close]) fuel ;;
   is_close <- next_type_in (pre ++ ts ++ [close]) [RIGHT_PAREN] ;;
   if is_close : bool then pos_increment ;; g arg else ret (VInt 0))
    (List.length pre)
  = g v (List.length pre + List.length ts + 1)%nat.
Proof.
  intros C E; unfold bind at 1.
  destruct (shift_all rt (ts ++ [close]) (pre ++ ts ++ [close])
              (List.length pre) (alike_after pre (ts ++ [close])) fuel)
    as (S & _).
  specialize (S 0%nat); rewrite E, Nat.add_0_r in S; rewrite S.
  cbn [moved_by]; rewrite next_inc_eq; unfold peek_in.
  rewrite nth_error_app2, Nat.add_comm, Nat.add_sub by lia.
  rewrite nth_error_app2, Nat.sub_diag by lia; cbn [nth_error].
  unfold type_in; rewrite C; cbn [existsb TokenType_eqb orb].
  f_equal; lia.
Qed.

(** In the model, which sets no limit to the depth of calls: when the
    tokens [ts] followed by a closing parenthesis evaluate to [v] with
    the cursor left on that parenthesis, the same tokens between
    parentheses evaluate to [v], with every token consumed. *)
Lemma enclosed (rt : Runtime) (open close : Token)
      (ts : list Token) (v : value) :
  Token.type open = LEFT_PAREN ->
  Token.type close = RIGHT_PAREN ->
  calculate rt (ts ++ [close]) = Ok v (List.length ts) ->
  calculate rt (open :: ts ++ [close]) = Ok v (List.length ts + 2)%nat.
Proof.
  intros O C E; unfold calculate in E.
  apply calculate_by
    with (fuel := S (S (S (S (S (calculate_fuel (ts ++ [close])))))));
    [|discriminate].
  apply primary_alone.
  - rewrite primary_S, read_eq; cbn [nth_error]; rewrite O.
    etransitivity; [exact (argument rt [open] ts close v _ ret C E)|].
    cbn [List.length]; unfold ret; f_equal; lia.
  - intros v' q [= _ <-]; apply peek_in_end.
    cbn [List.length]; rewrite length_app; cbn [List.length]; lia.
Qed.

(** In the same way, the identifier [sin] (or [cos]), an opening
    parenthesis, [ts] and the closing parenthesis evaluate to
    [math.sin(v)] (or [math.cos(v)]), value or exception. *)
Lemma applied (rt : Runtime) (name open close : Token)
      (ts : list Token) (v : value) :
  Token.type name = IDENTIFIER ->
  Token.type open = LEFT_PAREN ->
  Token.type close = RIGHT_PAREN ->
  calculate rt (ts ++ [close]) = Ok v (List.length ts) ->
  (Token.value name = "sin" ->
   calculate rt (name :: open :: ts ++ [close])
   = lift (math_sin rt v) (List.length ts + 3)%nat)
  /\ (Token.value name = "cos" ->
      calculate rt (name :: open :: ts ++ [close])
      = lift (math_cos rt v) (List.length ts + 3)%nat).
Proof.
  intros I O C E; unfold calculate in E.
  assert (P : forall func : value -> result value,
             call rt (name :: open :: ts ++ [close])
               (calculate_fuel (ts ++ [close])) func 1%nat
             = lift (func v) (List.length ts + 3)%nat).
  { intros func; unfold call; rewrite next_inc_eq; unfold peek_in.
    cbn [nth_error]; unfold type_in; rewrite O.
    cbn [existsb TokenType_eqb orb].
    etransitivity;
      [exact (argument rt [name; open] ts close v _
                (fun arg => lift (func arg)) C E)|].
    cbn [List.length]; f_equal; lia. }
  assert (Q : forall r : result value,
             lift r (List.length ts + 3)%nat <> (NoFuel : outcome nat value))
    by (intros [a|e]; discriminate).
  assert (K : forall (r : result value) v' q,
             lift r (List.length ts + 3)%nat = Ok v' q ->
             peek_in (name :: open :: ts ++ [close]) operators q = false).
  { intros r v' q H; apply peek_in_end.
    cbn [List.length]; rewrite length_app; cbn [List.length].
    destruct r; inversion H; lia. }
  split; intros V;
    (apply calculate_by
       with (fuel := S (S (S (S (S (calculate_fuel (ts ++ [close])))))));
     [|apply Q]);
    (apply primary_alone; [|apply K]);
    rewrite primary_S, read_eq; cbn [nth_error]; rewrite I, V;
    cbn [String.eqb Ascii.eqb Bool.eqb]; apply P.
Qed.

(** X11.  There is no unary sign: when the first token starts no
    primary (a MINUS or a PLUS, for one) and the token after it, if
    any, is no operator, the evaluation returns the integer 0 with the
    cursor after that first token; the tokens of [-5] evaluate to 0. *)
Theorem no_unary_sign (rt : Runtime) (sign : Token) (rest : list Token) :
  ~ In (Token.type sign) [INTEGER; FLOAT; IDENTIFIER; LEFT_PAREN] ->
  (forall next, hd_error rest = Some next ->
                type_in next operators = false) ->
  calculate rt (sign :: rest) = Ok (VInt 0) 1%nat.
Proof.
  intros S N.
  apply calculate_by with (fuel := 5%nat); [|discriminate].
  apply primary_alone.
  - now apply primary_other_default with sign.
  - intros v q [= _ <-]; unfold peek_in; cbn [nth_error].
    destruct rest as [|next rest]; [reflexivity|].
    now apply N.
Qed.

Lemma no_unary_sign_witness :
  calculate bare_runtime
    [Token.mk MINUS "-" 1 1; Token.mk INTEGER "5" 1 2]
  = Ok (VInt 0) 1%nat.
Proof.
  apply (no_unary_sign bare_runtime (Token.mk MINUS "-" 1 1)
           [Token.mk INTEGER "5" 1 2]).
  - cbn; intuition discriminate.
  - intros next [= <-]; reflexivity.
Defined.

(** ** From the source text to the value: integer literals *)

(** The digits [0] to [9]. *)
Definition ascii_digit (c : ascii) : bool := between 48 57 (N_of_ascii c).

(** The number that the decimal digits [s] write, after the digits that
    gave [acc]. *)
Fixpoint decimal_from (acc : Z) (s : string) : Z :=
  match s with
  | EmptyString => acc
  | String c s' => decimal_from (10 * acc + (Z.of_N (N_of_ascii c) - 48)) s'
  end.

Definition decimal (s : string) : Z := decimal_from 0 s.

(** The interpreter refuses an integer literal of [n] digits. *)
Definition over_limit (max_str_digits n : nat) : bool :=
  ((640 <? n) && (0 <? max_str_digits) && (max_str_digits <? n))%nat.

(** What a character that [str.isdigit] accepts is not. *)
Definition digit_only (c : ascii) : bool :=
  negb (isspace_char c) && negb (Ascii.eqb c "#"%char)
  && match lookup (String c "") Lexer.single_char_tokens with
     | None => true
     | Some _ => false
     end
  && negb (isalpha_char c || Ascii.eqb c "_"%char)
  && negb (Ascii.eqb c "."%char) && negb (int_space c)
  && negb (Ascii.eqb c "-"%char) && negb (Ascii.eqb c "+"%char).

Lemma digit_is_digit_only (c : ascii) :
  isdigit_char c = true -> digit_only c = true.
Proof.
  revert c.
  assert (H : forall c, implb (isdigit_char c) (digit_only c) = true)
    by (apply ascii_forall; vm_compute; reflexivity).
  intros c Hc; specialize (H c); rewrite Hc in H; exact H.
Qed.

Lemma digit_facts (c : ascii) :
  isdigit_char c = true ->
  isspace_char c = false
  /\ Ascii.eqb c "#"%char = false
  /\ lookup (String c "") Lexer.single_char_tokens = None
  /\ isalpha_char c || Ascii.eqb c "_"%char = false
  /\ Ascii.eqb c "."%char = false
  /\ int_space c = false
  /\ Ascii.eqb c "-"%char = false
  /\ Ascii.eqb c "+"%char = false.
Proof.
  intros H; apply digit_is_digit_only in H; unfold digit_only in H.
  repeat (apply andb_true_iff in H; destruct H as [H ?]).
  repeat match goal with
         | H : negb _ = true |- _ => apply negb_true_iff in H
         end.
  destruct (lookup (String c "") Lexer.single_char_tokens);
    [discriminate|].
  repeat split; assumption.
Qed.

Lemma ascii_digit_isdigit (c : ascii) :
  ascii_digit c = true -> isdigit_char c = true.
Proof. unfold ascii_digit, isdigit_char; now intros ->. Qed.

Lemma all_ascii_digit_isdigit (s : string) :
  all_chars ascii_digit s = true -> all_chars isdigit_char s = true.
Proof.
  induction s as [|c s IH]; cbn [all_chars]; auto.
  intros H; apply andb_true_iff in H; destruct H as [H1 H2].
  now rewrite (ascii_digit_isdigit c H1), IH.
Qed.

(** *** The scan of a run of digits *)

Lemma number_span_digits (r : string) :
  all_chars isdigit_char r = true ->
  Scan.number_span false r = (r, "", false).
Proof.
  induction r as [|c r IH]; cbn [all_chars Scan.number_span]; auto.
  intros H; apply andb_true_iff in H; destruct H as [H1 H2].
  destruct (digit_facts c H1) as (_ & _ & _ & _ & P & _).
  unfold Scan.number_char; rewrite H1, P, (IH H2); reflexivity.
Qed.

Lemma scan1_digits (c : ascii) (r : string) :
  isdigit_char c = true -> all_chars isdigit_char r = true ->
  Scan.scan1 c r = (Some INTEGER, String c r, "").
Proof.
  intros H1 H2.
  destruct (digit_facts c H1) as (S & C & L & A & P & _).
  unfold Scan.scan1; rewrite S, C, L, A, H1, P; cbn [orb].
  now rewrite (number_span_digits r H2).
Qed.

Lemma tokenize_literal (ds : string) :
  str_pred isdigit_char ds = true ->
  exists line column eof final,
    tokenize ds = Ok [Token.mk INTEGER ds line column; eof] final.
Proof.
  destruct ds as [|c r]; [discriminate|].
  cbn [str_pred all_chars]; intros H.
  apply andb_true_iff in H; destruct H as [H1 H2].
  eexists _, _, _, _; rewrite Scan.tokenize_exact.
  cbn [String.length Scan.scan_all].
  rewrite (scan1_digits c r H1 H2); cbn [fst snd Scan.emit app].
  reflexivity.
Qed.

(** *** [int] of a run of digits *)

Lemma int_digits_decimal (acc : Z) (s : string) :
  all_chars ascii_digit s = true ->
  int_digits acc s = Some (decimal_from acc s).
Proof.
  revert acc; induction s as [|c s IH]; intros acc; [reflexivity|].
  cbn [all_chars]; intros H.
  apply andb_true_iff in H; destruct H as [H1 H2].
  destruct (digit_facts c (ascii_digit_isdigit c H1))
    as (_ & _ & _ & A & _ & I & _).
  apply orb_false_iff in A; destruct A as [_ U].
  cbn [int_digits decimal_from]; rewrite U, I.
  unfold digit_of; unfold ascii_digit in H1; rewrite H1.
  now apply IH.
Qed.

Lemma count_digits_all (s : string) :
  all_chars ascii_digit s = true -> count_digits s = String.length s.
Proof.
  induction s as [|c s IH]; [reflexivity|].
  cbn [all_chars]; intros H.
  apply andb_true_iff in H; destruct H as [H1 H2].
  cbn [count_digits String.length]; unfold digit_of.
  unfold ascii_digit in H1; rewrite H1; now rewrite IH.
Qed.

Lemma py_int_decimal (max_str_digits : nat) (ds : string) :
  str_pred ascii_digit ds = true ->
  py_int max_str_digits ds
  = if over_limit max_str_digits (String.length ds)
    then Exc ValueError else Val (decimal ds).
Proof.
  destruct ds as [|c r]; [discriminate|].
  cbn [str_pred]; intros H.
  pose proof (count_digits_all _ H) as N.
  pose proof (int_digits_decimal 0 _ H) as D.
  cbn [all_chars] in H; apply andb_true_iff in H; destruct H as [H1 H2].
  destruct (digit_facts c (ascii_digit_isdigit c H1))
    as (_ & _ & _ & A & _ & I & M & P).
  apply orb_false_iff in A; destruct A as [_ U].
  unfold py_int; cbn [lstrip]; rewrite I, M, P, N.
  assert (E : int_unsigned (String c r) = Some (decimal (String c r))).
  { unfold int_unsigned, decimal; cbn [int_digits decimal_from] in *.
    rewrite U, I in D; unfold digit_of in *.
    unfold ascii_digit in H1; rewrite H1 in *; exact D. }
  rewrite E; reflexivity.
Qed.

Lemma int_digits_bad (acc : Z) (s : string) :
  all_chars isdigit_char s = true -> all_chars ascii_digit s = false ->
  int_digits acc s = None.
Proof.
  revert acc; induction s as [|c s IH]; intros acc; [discriminate|].
  cbn [all_chars]; intros H B.
  apply andb_true_iff in H; destruct H as [H1 H2].
  destruct (digit_facts c H1) as (_ & _ & _ & A & _ & I & _).
  apply orb_false_iff in A; destruct A as [_ U].
  cbn [int_digits]; rewrite U, I; unfold digit_of.
  unfold ascii_digit in B at 1.
  destruct (between 48 57 (N_of_ascii c)); [|reflexivity].
  now apply IH.
Qed.

Lemma py_int_bad (max_str_digits : nat) (ds : string) :
  str_pred isdigit_char ds = true -> all_chars ascii_digit ds = false ->
  py_int max_str_digits ds = Exc ValueError.
Proof.
  destruct ds as [|c r]; [discriminate|].
  cbn [str_pred]; intros H B.
  pose proof (int_digits_bad 0 _ H B) as D.
  cbn [all_chars] in H; apply andb_true_iff in H; destruct H as [H1 H2].
  destruct (digit_facts c H1) as (_ & _ & _ & A & _ & I & M & P).
  apply orb_false_iff in A; destruct A as [_ U].
  unfold py_int; cbn [lstrip]; rewrite I, M, P.
  assert (E : int_unsigned (String c r) = None).
  { unfold int_unsigned; cbn [int_digits] in D.
    rewrite U, I in D; unfold digit_of in *.
    destruct (between 48 57 (N_of_ascii c)); [exact D|reflexivity]. }
  now rewrite E.
Qed.

(** *** The evaluation of a run of digits *)

Lemma literal_evaluates (rt : Runtime) (ds : string) :
  str_pred isdigit_char ds = true ->
  evaluate rt ds
  = lift (rbind (py_int (int_max_str_digits rt) ds)
                (fun z => Val (VInt z))) 1%nat.
Proof.
  intros H; destruct (tokenize_literal ds H) as (l & c & eof & final & T).
  unfold evaluate; rewrite T; cbn [strip_last removelast].
  apply calculate_by with (fuel := 5%nat).
  - apply primary_alone.
    + rewrite primary_S, read_eq; reflexivity.
    + intros v q E; apply peek_in_end.
      destruct (py_int _ ds); inversion E; cbn; lia.
  - destruct (py_int _ ds); discriminate.
Qed.

(** X12.  A source made of the digits [0] to [9] alone evaluates to
    the number they write in base ten, with the one token consumed;
    unless the interpreter's limit on the digits of an integer
    literal refuses it, which is a [ValueError]. *)
Theorem digits_evaluate_to_their_number (rt : Runtime) (ds : string) :
  str_pred ascii_digit ds = true ->
  evaluate rt ds
  = if over_limit (int_max_str_digits rt) (String.length ds)
    then Raise ValueError 1%nat
    else Ok (VInt (decimal ds)) 1%nat.
Proof.
  intros H; rewrite literal_evaluates.
  - rewrite (py_int_decimal _ ds H).
    now destruct (over_limit _ _).
  - destruct ds; [discriminate|].
    now apply all_ascii_digit_isdigit.
Qed.

Lemma digits_evaluate_to_their_number_witness :
  evaluate bare_runtime "2024" = Ok (VInt 2024) 1%nat.
Proof.
  apply (digits_evaluate_to_their_number bare_runtime "2024").
  reflexivity.
Defined.

(** The superscript digits one, two and three, which [str.isdigit]
    accepts and [int] does not read. *)
Definition superscript_digit (c : ascii) : bool :=
  let n := N_of_ascii c in
  ((n =? 178) || (n =? 179) || (n =? 185))%N.

Lemma isdigit_char_cases (c : ascii) :
  isdigit_char c = ascii_digit c || superscript_digit c.
Proof.
  unfold isdigit_char, ascii_digit, superscript_digit; cbv zeta.
  now rewrite !orb_assoc.
Qed.

Lemma all_isdigit_cases (s : string) :
  all_chars isdigit_char s
  = all_chars (fun c => ascii_digit c || superscript_digit c) s.
Proof.
  induction s as [|c s IH]; [reflexivity|].
  cbn [all_chars]; now rewrite IH, isdigit_char_cases.
Qed.

(** X13.  The scanner takes for a digit what [int] does not read: a
    source made of the digits [0] to [9] and of the superscript digits
    one, two and three, with at least one of the latter, is scanned as
    one INTEGER token, and its evaluation raises a [ValueError]. *)
Theorem superscript_digits_raise (rt : Runtime) (ds : string) :
  all_chars (fun c => ascii_digit c || superscript_digit c) ds = true ->
  all_chars ascii_digit ds = false ->
  (exists line column eof final,
     tokenize ds = Ok [Token.mk INTEGER ds line column; eof] final)
  /\ evaluate rt ds = Raise ValueError 1%nat.
Proof.
  intros A B.
  assert (H : str_pred isdigit_char ds = true).
  { destruct ds as [|c r]; [discriminate|].
    cbn [str_pred]; now rewrite all_isdigit_cases. }
  split; [now apply tokenize_literal|].
  now rewrite literal_evaluates, (py_int_bad _ ds H B).
Qed.

Lemma superscript_digits_raise_witness :
  (exists line column eof final,
     tokenize (String "1" (String "178" ""))
     = Ok [Token.mk INTEGER (String "1" (String "178" "")) line column; eof]
          final)
  /\ evaluate bare_runtime (String "1" (String "178" ""))
     = Raise ValueError 1%nat.
Proof.
  apply (superscript_digits_raise bare_runtime
           (String "1" (String "178" ""))); reflexivity.
Defined.

(** ** Where an [IndexError] comes from *)

(** [r] is no [IndexError]. *)
Definition quiet {A : Type} (r : result A) : Prop := r <> Exc IndexError.

(** The interpreter and the library raise no [IndexError] on their
    own. *)
Definition no_index_error (rt : Runtime) : Prop :=
  (forall s, quiet (float_of_str rt s))
  /\ (forall x y, quiet (float_pow rt x y))
  /\ (forall op left right, quiet (complex_op rt op left right)).

Lemma quiet_rbind {A B : Type} (r : result A) (k : A -> result B) :
  quiet r -> (forall a, quiet (k a)) -> quiet (rbind r k).
Proof.
  intros Hr Hk; destruct r as [a|e]; cbn; auto.
  intros [= ->]; now apply Hr.
Qed.

Lemma quiet_py_int (max_str_digits : nat) (s : string) :
  quiet (py_int max_str_digits s).
Proof.
  unfold py_int, quiet; cbv zeta.
  repeat match goal with
         | |- context [match ?x with _ => _ end] => destruct x
         end; discriminate.
Qed.

Lemma quiet_float_of_int (z : Z) : quiet (float_of_int z).
Proof.
  unfold float_of_int, quiet; cbv zeta.
  destruct (is_infinity _); discriminate.
Qed.

Lemma quiet_int_true_divide (a b : Z) : quiet (int_true_divide a b).
Proof.
  unfold int_true_divide, quiet; cbv zeta.
  destruct (is_infinity _); discriminate.
Qed.

Lemma quiet_as_float (v : value) : quiet (as_float v).
Proof.
  destruct v; cbn; [apply quiet_float_of_int|discriminate|discriminate].
Qed.

Section Quiet.
Variable rt : Runtime.
Hypothesis library : no_index_error rt.

Lemma quiet_float_arith (op : binop) (x y : float) :
  quiet (float_arith rt op x y).
Proof.
  destruct library as (_ & P & _).
  destruct op; cbn; try discriminate; try apply P;
    destruct (y =? 0)%float; discriminate.
Qed.

Lemma quiet_int_arith (op : binop) (a b : Z) : quiet (int_arith rt op a b).
Proof.
  destruct library as (_ & P & _).
  destruct op; cbn; try discriminate.
  - destruct (b =? 0)%Z; [discriminate|].
    apply quiet_rbind; [apply quiet_int_true_divide|discriminate].
  - destruct (b =? 0)%Z; discriminate.
  - destruct (b <? 0)%Z; [|discriminate].
    apply quiet_rbind; [apply quiet_float_of_int|intros x].
    apply quiet_rbind; [apply quiet_float_of_int|intros y; apply P].
Qed.

Lemma quiet_arith (op : binop) (left right : value) :
  quiet (arith rt op left right).
Proof.
  destruct library as (_ & _ & C).
  unfold arith; destruct left, right;
    first [ apply quiet_int_arith | apply C
          | apply quiet_rbind; [apply quiet_as_float|intros x];
            apply quiet_rbind; [apply quiet_as_float|intros y];
            apply quiet_float_arith ].
Qed.

Lemma quiet_math_1 (func : float -> float) (arg : value) :
  quiet (math_1 func arg).
Proof.
  unfold math_1; apply quiet_rbind; [apply quiet_as_float|intros x].
  cbv zeta; repeat match goal with
                   | |- context [if ?c then _ else _] => destruct c
                   end; discriminate.
Qed.

Variable tokens : list Token.

(** [m], started within the tokens, ends within them, and raises an
    [IndexError] at their end only. *)
Definition tidy {A : Type} (m : M nat A) : Prop :=
  forall pos : nat,
    (pos <= List.length tokens)%nat ->
    match m pos with
    | Ok _ q => (q <= List.length tokens)%nat
    | Raise e q =>
        (q <= List.length tokens)%nat
        /\ (e = IndexError -> q = List.length tokens)
    | NoFuel => True
    end.

Lemma tidy_ret {A : Type} (a : A) : tidy (ret a).
Proof. intros pos H; exact H. Qed.

Lemma tidy_lift {A : Type} (r : result A) : quiet r -> tidy (lift r).
Proof.
  intros Q pos H; destruct r as [a|e]; cbn; auto.
  split; auto; intros ->; now destruct Q.
Qed.

Lemma tidy_bind {A B : Type} (m : M nat A) (k : A -> M nat B) :
  tidy m -> (forall a, tidy (k a)) -> tidy (bind m k).
Proof.
  intros Hm Hk pos H; unfold bind.
  specialize (Hm pos H); destruct (m pos) as [a p|e p|]; auto.
  apply Hk, Hm.
Qed.

Lemma tidy_next (types : list TokenType) : tidy (next_type_in tokens types).
Proof. intros pos H; rewrite next_type_in_eq; exact H. Qed.

Lemma tidy_read {B : Type} (k : Token -> M nat B) :
  (forall token, tidy (k token)) ->
  tidy (token <- tokens_at_pos tokens ;; pos_increment ;; k token).
Proof.
  intros Hk pos H; rewrite read_eq.
  destruct (nth_error tokens pos) as [token|] eqn:E.
  - apply Hk.
    assert (pos < List.length tokens)%nat
      by (apply nth_error_Some; congruence).
    lia.
  - apply nth_error_None in E; split; [exact H|intros _; lia].
Qed.

Lemma tidy_next_inc {B : Type} (types : list TokenType) (k1 k2 : M nat B) :
  tidy k1 -> tidy k2 ->
  tidy (c <- next_type_in tokens types ;;
        if c : bool then pos_increment ;; k1 else k2).
Proof.
  intros H1 H2 pos H; rewrite next_inc_eq; unfold peek_in.
  destruct (nth_error tokens pos) as [token|] eqn:E; [|now apply H2].
  destruct (type_in token types); [|now apply H2].
  apply H1.
  assert (pos < List.length tokens)%nat
    by (apply nth_error_Some; congruence).
  lia.
Qed.

Ltac quiet_step :=
  first
    [ apply quiet_arith
    | apply quiet_math_1
    | apply quiet_rbind; [|intros ?; discriminate];
      first [apply quiet_py_int | apply library]
    | match goal with
      | |- quiet (match Token.type ?t with _ => _ end) =>
          destruct (Token.type t);
          first [apply quiet_arith | discriminate]
      end ].

Ltac tidy_step :=
  first
    [ apply tidy_ret
    | apply tidy_lift; quiet_step
    | apply tidy_read; intros ?
    | apply tidy_next_inc
    | apply tidy_bind; [apply tidy_next|intros [|]]
    | apply tidy_bind; [|intros ?]
    | match goal with
      | |- tidy (if ?c then _ else _) => destruct c
      | |- tidy (match Token.type ?t with _ => _ end) =>
          destruct (Token.type t)
      end ].

Lemma calc_tidy (fuel : nat) :
  tidy (expression rt tokens fuel)
  /\ tidy (term rt tokens fuel)
  /\ (forall left, tidy (term_loop rt tokens fuel left))
  /\ tidy (factor rt tokens fuel)
  /\ (forall left, tidy (factor_loop rt tokens fuel left))
  /\ tidy (power rt tokens fuel)
  /\ tidy (primary rt tokens fuel).
Proof.
  induction fuel as [|fuel (IHe & IHt & IHtl & IHf & IHfl & IHp & IHpr)].
  { repeat split; intros; intros pos H; exact I. }
  repeat split; intros;
    rewrite ?expression_S, ?term_S, ?term_loop_S, ?factor_S,
      ?factor_loop_S, ?power_S, ?primary_S;
    unfold call, math_sin, math_cos;
    repeat first
      [ apply IHe | apply IHt | apply IHtl | apply IHf | apply IHfl
      | apply IHp | apply IHpr | tidy_step ].
Qed.

End Quiet.

(** X14.  An [IndexError] means that the tokens ran out: as the
    interpreter and the library raise none on their own, the evaluation
    raises an [IndexError] only with the cursor at the end of the
    tokens, where [primary] reads past the last one. *)
Theorem index_error_at_the_end (rt : Runtime) (tokens : list Token)
        (p : nat) :
  no_index_error rt ->
  calculate rt tokens = Raise IndexError p ->
  p = List.length tokens.
Proof.
  intros L C.
  destruct (calc_tidy rt L tokens (calculate_fuel tokens)) as (T & _).
  specialize (T 0%nat (Nat.le_0_l _)); unfold calculate in C.
  rewrite C in T; now apply T.
Qed.

Lemma index_error_at_the_end_witness :
  2%nat = List.length [Token.mk INTEGER "2" 1 1; Token.mk PLUS "+" 1 3].
Proof.
  apply (index_error_at_the_end bare_runtime
           [Token.mk INTEGER "2" 1 1; Token.mk PLUS "+" 1 3] 2%nat).
  - repeat split; intros; discriminate.
  - vm_compute; reflexivity.
Defined.

(** ** Sums of products of integer literals *)

(** An operator token, the literal after it, and the number that the
    literal writes. *)
Record link : Set := mk_link
  { link_op : Token;
    link_literal : Token;
    link_number : Z }.

(** The tokens of a chain of links, after its first literal. *)
Fixpoint chain (links : list link) : list Token :=
  match links with
  | [] => []
  | l :: links' => link_op l :: link_literal l :: chain links'
  end.

(** The kind of operator and the number of each link. *)
Definition terms (links : list link) : list (TokenType * Z) :=
  map (fun l => (Token.type (link_op l), link_number l)) links.

(** The usual value of a chain: the sum [sum] of the products before,
    then the product [prod] that is being read, taken with [sign],
    then the rest.  A MULTIPLY goes on with the product; a PLUS or a
    MINUS adds the product to the sum and starts another. *)
Fixpoint sum_of_products (sum sign prod : Z) (rest : list (TokenType * Z))
  : Z :=
  match rest with
  | [] => sum + sign * prod
  | (MULTIPLY, z) :: rest' => sum_of_products sum sign (prod * z) rest'
  | (MINUS, z) :: rest' => sum_of_products (sum + sign * prod) (-1) z rest'
  | (_, z) :: rest' => sum_of_products (sum + sign * prod) 1 z rest'
  end.

(** The value of a chain whose sum so far is [left]. *)
Definition sum_onwards (left : Z) (rest : list (TokenType * Z)) : Z :=
  match rest with
  | [] => left
  | (MINUS, z) :: rest' => sum_of_products left (-1) z rest'
  | (_, z) :: rest' => sum_of_products left 1 z rest'
  end.

(** The outcome [o] is a value that satisfies [P], if there was fuel
    for it. *)
Definition yields {A : Type} (o : outcome nat A) (P : A -> nat -> Prop)
  : Prop :=
  match o with
  | Ok a q => P a q
  | Raise _ _ => False
  | NoFuel => True
  end.

Lemma yields_impl {A : Type} (o : outcome nat A) (P Q : A -> nat -> Prop) :
  yields o P -> (forall a q, P a q -> Q a q) -> yields o Q.
Proof. destruct o; cbn; auto. Qed.

Lemma length_chain (links : list link) :
  List.length (chain links) = (2 * List.length links)%nat.
Proof.
  induction links as [|l links IH]; [reflexivity|].
  cbn [chain List.length]; lia.
Qed.

Section Chain.
Variable rt : Runtime.
Variable tokens : list Token.

(** Where the chain ends: no operator is there. *)
Variable finish : nat.
Hypothesis ended : peek_in tokens operators finish = false.

Definition good (l : link) : Prop :=
  In (Token.type (link_op l)) [PLUS; MINUS; MULTIPLY]
  /\ operand rt (link_literal l) (link_number l).

(** The links [links] are the tokens from the position [p] on. *)
Fixpoint spelled (p : nat) (links : list link) : Prop :=
  match links with
  | [] => True
  | l :: links' =>
      nth_error tokens p = Some (link_op l)
      /\ nth_error tokens (p + 1) = Some (link_literal l)
      /\ spelled (p + 1 + 1) links'
  end.

(** The links [links], from [p] on, reach the end of the chain. *)
Definition reaches (p : nat) (links : list link) : Prop :=
  finish = (p + 2 * List.length links)%nat.

Lemma reaches_next (p : nat) (l : link) (links : list link) :
  reaches p (l :: links) -> reaches (p + 1 + 1) links.
Proof. unfold reaches; cbn [List.length]; lia. Qed.

Definition no_multiply (links : list link) : Prop :=
  match links with
  | [] => True
  | l :: _ => Token.type (link_op l) <> MULTIPLY
  end.

Lemma peek_at_link (p : nat) (l : link) (links : list link)
      (types : list TokenType) :
  spelled p (l :: links) ->
  peek_in tokens types p = type_in (link_op l) types.
Proof. intros (N & _); unfold peek_in; now rewrite N. Qed.

Lemma spelled_no_power (p : nat) (links : list link) :
  spelled p links -> Forall good links -> reaches p links ->
  peek_in tokens [POWER] p = false.
Proof.
  destruct links as [|l links]; intros S G R.
  - unfold reaches in R; cbn [List.length] in R.
    replace p with finish by lia.
    apply (peek_in_operators tokens finish ended).
  - rewrite (peek_at_link p l links _ S).
    inversion G as [|? ? [I _] _]; subst.
    unfold type_in; cbn in I.
    destruct I as [<-|[<-|[<-|[]]]]; reflexivity.
Qed.

Lemma literal_primary (fuel p : nat) (t : Token) (z : Z) :
  nth_error tokens p = Some t -> operand rt t z ->
  primary rt tokens (S fuel) p = Ok (VInt z) (p + 1)%nat.
Proof.
  intros N [T I]; rewrite primary_S, read_eq, N, T, I; reflexivity.
Qed.

Lemma literal_power (fuel p : nat) (t : Token) (z : Z) :
  nth_error tokens p = Some t -> operand rt t z ->
  peek_in tokens [POWER] (p + 1) = false ->
  yields (power rt tokens fuel p)
         (fun v q => v = VInt z /\ q = (p + 1)%nat).
Proof.
  intros N O K; destruct fuel as [|[|fuel]]; [exact I|exact I|].
  rewrite power_S; unfold bind at 1.
  rewrite (literal_primary fuel p t z N O), next_inc_eq, K.
  now split.
Qed.

(** What the loop of [factor] leaves: a product [prod'], the links
    [links'] that remain, which start with no MULTIPLY, and the same
    value for the chain. *)
Definition product_read (prod : Z) (links : list link) (v : value) (q : nat)
  : Prop :=
  exists prod' links',
    v = VInt prod' /\ spelled q links' /\ Forall good links'
    /\ reaches q links' /\ no_multiply links'
    /\ forall sum sign,
         sum_of_products sum sign prod (terms links)
         = sum_of_products sum sign prod' (terms links').

Lemma product_loop (fuel : nat) :
  forall (links : list link) (p : nat) (prod : Z),
    spelled p links -> Forall good links -> reaches p links ->
    yields (factor_loop rt tokens fuel (VInt prod) p)
           (product_read prod links).
Proof.
  induction fuel as [|fuel IH]; intros links p prod Sp G R; [exact I|].
  rewrite factor_loop_S, next_read_eq.
  assert (Stay : peek_in tokens [MULTIPLY; DIVIDE; MODULO] p = false ->
                 no_multiply links ->
                 yields
                   (match nth_error tokens p with
                    | Some token =>
                        if type_in token [MULTIPLY; DIVIDE; MODULO]
                        then
                          (right <- power rt tokens fuel ;;
                           left <- lift
                                     (match Token.type token with
                                      | MULTIPLY =>
                                          arith rt Mul (VInt prod) right
                                      | DIVIDE =>
                                          arith rt Div (VInt prod) right
                                      | MODULO =>
                                          arith rt Mod (VInt prod) right
                                      | _ => Val (VInt prod)
                                      end) ;;
                           factor_loop rt tokens fuel left) (p + 1)%nat
                        else ret (VInt prod) p
                    | None => ret (VInt prod) p
                    end)
                   (product_read prod links)).
  { intros K M; unfold peek_in in K.
    assert (Y : yields (ret (VInt prod) p : outcome nat value)
                       (product_read prod links))
      by (exists prod, links; repeat split; auto).
    destruct (nth_error tokens p); [rewrite K|]; exact Y. }
  destruct links as [|l links].
  { apply Stay; [|exact I].
    unfold reaches in R; cbn [List.length] in R.
    replace p with finish by lia.
    apply (peek_in_operators tokens finish ended). }
  pose proof (peek_at_link p l links [MULTIPLY; DIVIDE; MODULO] Sp) as K.
  pose proof (reaches_next p l links R) as R'.
  destruct Sp as (N1 & N2 & Sp).
  inversion G as [|? ? [T O] G']; subst.
  unfold type_in in K.
  cbn in T; destruct T as [T|[T|[T|[]]]]; rewrite <- T in K;
    cbn [existsb TokenType_eqb orb] in K.
  - apply Stay; [exact K|]; cbn [no_multiply]; rewrite <- T; discriminate.
  - apply Stay; [exact K|]; cbn [no_multiply]; rewrite <- T; discriminate.
  - rewrite N1; unfold type_in; rewrite <- T.
    cbn [existsb TokenType_eqb orb].
    unfold bind at 1.
    pose proof (literal_power fuel (p + 1) _ _ N2 O
                  (spelled_no_power _ _ Sp G' R')) as P.
    destruct (power rt tokens fuel (p + 1)%nat) as [v q|e q|];
      cbn [yields] in P; [|contradiction|exact I].
    destruct P as [-> ->].
    unfold bind at 1; cbn [arith int_arith lift].
    eapply yields_impl;
      [apply (IH links _ (prod * link_number l) Sp G' R')|].
    intros v q (prod' & links' & -> & S' & G'' & R'' & M & E).
    exists prod', links'; repeat split; auto.
    intros sum sign; cbn [terms map sum_of_products].
    rewrite <- T; apply E.
Qed.

Lemma product_factor (fuel p : nat) (t : Token) (z : Z)
      (links : list link) :
  nth_error tokens p = Some t -> operand rt t z ->
  spelled (p + 1) links -> Forall good links -> reaches (p + 1) links ->
  yields (factor rt tokens fuel p) (product_read z links).
Proof.
  intros N O Sp G R; destruct fuel as [|fuel]; [exact I|].
  rewrite factor_S; unfold bind at 1.
  pose proof (literal_power fuel p t z N O
                (spelled_no_power _ _ Sp G R)) as P.
  destruct (power rt tokens fuel p) as [v q|e q|];
    cbn [yields] in P; [|contradiction|exact I].
  destruct P as [-> ->]; now apply product_loop.
Qed.

Lemma sum_of_products_onwards (sum sign prod : Z) (links : list link) :
  no_multiply links ->
  sum_of_products sum sign prod (terms links)
  = sum_onwards (sum + sign * prod) (terms links).
Proof.
  destruct links as [|l links]; cbn; auto.
  destruct (Token.type (link_op l)); auto; now intros [].
Qed.

(** What the loop of [term] leaves: the value of the chain, at its
    end. *)
Definition sum_read (left : Z) (links : list link) (v : value) (q : nat)
  : Prop :=
  v = VInt (sum_onwards left (terms links)) /\ q = finish.

Lemma sum_loop (fuel : nat) :
  forall (links : list link) (p : nat) (left : Z),
    spelled p links -> Forall good links -> reaches p links ->
    no_multiply links ->
    yields (term_loop rt tokens fuel (VInt left) p) (sum_read left links).
Proof.
  induction fuel as [|fuel IH]; intros links p left Sp G R M; [exact I|].
  rewrite term_loop_S, next_read_eq.
  destruct links as [|l links].
  { unfold reaches in R; cbn [List.length] in R.
    assert (p = finish) by lia; subst p.
    destruct (peek_in_operators tokens finish ended) as (_ & _ & K).
    unfold peek_in in K.
    destruct (nth_error tokens finish); [rewrite K|]; now split. }
  pose proof (reaches_next p l links R) as R'.
  destruct Sp as (N1 & N2 & Sp); rewrite N1.
  inversion G as [|? ? [T O] G']; subst.
  assert (Go : forall (b : binop) (sign : Z),
             sum_onwards left (terms (l :: links))
             = sum_of_products left sign (link_number l) (terms links) ->
             (forall x, arith rt b (VInt left) (VInt x)
                        = Val (VInt (left + sign * x))) ->
             yields
               ((right <- factor rt tokens fuel ;;
                 left' <- lift (arith rt b (VInt left) right) ;;
                 term_loop rt tokens fuel left') (p + 1)%nat)
               (sum_read left (l :: links))).
  { intros b sign V A; unfold bind at 1.
    pose proof (product_factor fuel (p + 1) _ _ links N2 O Sp G' R') as P.
    destruct (factor rt tokens fuel (p + 1)%nat) as [v q|e q|];
      cbn [yields] in P; [|contradiction|exact I].
    destruct P as (prod' & links' & -> & S' & G'' & R'' & M' & E).
    unfold bind at 1; rewrite A; cbn [lift].
    eapply yields_impl; [apply (IH links' q _ S' G'' R'' M')|].
    intros v q' [-> Q]; split; auto; f_equal.
    now rewrite V, E, sum_of_products_onwards. }
  unfold type_in.
  cbn in T; destruct T as [T|[T|[T|[]]]];
    [| |now destruct M]; rewrite <- T;
    cbn [existsb TokenType_eqb orb].
  - apply (Go Add 1).
    + cbn [terms map sum_onwards]; now rewrite <- T.
    + intros x; cbn [arith int_arith]; f_equal; f_equal; lia.
  - apply (Go Sub (-1)).
    + cbn [terms map sum_onwards]; now rewrite <- T.
    + intros x; cbn [arith int_arith]; f_equal; f_equal; lia.
Qed.

Lemma chain_expression (fuel p : nat) (t : Token) (z : Z)
      (links : list link) :
  nth_error tokens p = Some t -> operand rt t z ->
  spelled (p + 1) links -> Forall good links -> reaches (p + 1) links ->
  yields (expression rt tokens fuel p)
         (fun v q => v = VInt (sum_of_products 0 1 z (terms links))
                     /\ q = finish).
Proof.
  intros N O Sp G R; destruct fuel as [|[|fuel]]; [exact I|exact I|].
  rewrite expression_S, term_S; unfold bind at 1.
  pose proof (product_factor fuel p t z links N O Sp G R) as P.
  destruct (factor rt tokens fuel p) as [v q|e q|];
    cbn [yields] in P; [|contradiction|exact I].
  destruct P as (prod' & links' & -> & S' & G' & R' & M & E).
  eapply yields_impl; [apply (sum_loop fuel links' q _ S' G' R' M)|].
  intros v q' [-> Q]; split; auto; f_equal.
  rewrite E, sum_of_products_onwards by assumption.
  f_equal; lia.
Qed.

End Chain.

Lemma spelled_chain (pre rest : list Token) (links : list link) :
  spelled (pre ++ chain links ++ rest) (List.length pre) links.
Proof.
  revert pre; induction links as [|l links IH]; intros pre.
  - exact I.
  - cbn [chain spelled app]; repeat split.
    + now rewrite nth_error_app2, Nat.sub_diag by lia.
    + rewrite nth_error_app2 by lia.
      now replace (List.length pre + 1 - List.length pre)%nat with 1%nat
        by lia.
    + specialize (IH (pre ++ [link_op l; link_literal l])%list).
      rewrite <- app_assoc, length_app in IH; cbn [app List.length] in IH.
      now replace (List.length pre + 1 + 1)%nat
        with (List.length pre + 2)%nat by lia.
Qed.

Lemma peek_in_after (tokens rest : list Token) (types : list TokenType) :
  (forall next, hd_error rest = Some next -> type_in next types = false) ->
  peek_in (tokens ++ rest) types (List.length tokens) = false.
Proof.
  intros H; unfold peek_in.
  rewrite nth_error_app2, Nat.sub_diag by lia.
  destruct rest as [|next rest]; [reflexivity|].
  now apply H.
Qed.

(** A chain followed by no operator has its usual value, and the cursor
    is left after it. *)
Lemma chain_value (rt : Runtime) (first : Token) (z : Z)
      (links : list link) (rest : list Token) :
  operand rt first z ->
  Forall (good rt) links ->
  (forall next, hd_error rest = Some next ->
                type_in next operators = false) ->
  calculate rt ((first :: chain links) ++ rest)
  = Ok (VInt (sum_of_products 0 1 z (terms links)))
       (List.length (first :: chain links)).
Proof.
  intros O G N.
  pose proof (chain_expression rt ((first :: chain links) ++ rest)
                (List.length (first :: chain links))
                (peek_in_after _ rest operators N)
                (calculate_fuel ((first :: chain links) ++ rest))
                0 first z links eq_refl O
                (spelled_chain [first] rest links) G) as Y.
  pose proof (calculate_total rt ((first :: chain links) ++ rest)) as T.
  unfold calculate in *.
  destruct (expression rt ((first :: chain links) ++ rest) _ 0%nat)
    as [v q|e q|].
  - destruct Y as [-> ->]; [|reflexivity].
    unfold reaches; cbn [List.length]; rewrite length_chain; lia.
  - exfalso; apply Y.
    unfold reaches; cbn [List.length]; rewrite length_chain; lia.
  - contradiction.
Qed.

(** X15.  Sums of products, of any length: for an integer literal
    followed by any number of operators PLUS, MINUS and MULTIPLY, each
    with an integer literal after it, the evaluation consumes every
    token and returns the usual value: products first, each from left
    to right, then their sum and difference from left to right. *)
Theorem sums_of_products_are_computed (rt : Runtime) (first : Token)
        (z : Z) (links : list link) :
  operand rt first z ->
  Forall (good rt) links ->
  calculate rt (first :: chain links)
  = Ok (VInt (sum_of_products 0 1 z (terms links)))
       (List.length (first :: chain links)).
Proof.
  intros O G.
  rewrite <- (app_nil_r (first :: chain links)) at 1.
  apply chain_value; auto; discriminate.
Qed.

Lemma sums_of_products_are_computed_witness :
  calculate bare_runtime
    [Token.mk INTEGER "2" 1 1;
     Token.mk PLUS "+" 1 3; Token.mk INTEGER "3" 1 5;
     Token.mk MULTIPLY "*" 1 7; Token.mk INTEGER "4" 1 9;
     Token.mk MINUS "-" 1 11; Token.mk INTEGER "5" 1 13]
  = Ok (VInt 9) 7%nat.
Proof.
  apply (sums_of_products_are_computed bare_runtime
           (Token.mk INTEGER "2" 1 1) 2
           [mk_link (Token.mk PLUS "+" 1 3) (Token.mk INTEGER "3" 1 5) 3;
            mk_link (Token.mk MULTIPLY "*" 1 7) (Token.mk INTEGER "4" 1 9) 4;
            mk_link (Token.mk MINUS "-" 1 11) (Token.mk INTEGER "5" 1 13) 5]).
  - split; reflexivity.
  - constructor; [split; [left; reflexivity|split; reflexivity]|].
    constructor;
      [split; [right; right; left; reflexivity|split; reflexivity]|].
    constructor; [split; [right; left; reflexivity|split; reflexivity]|].
    constructor.
Defined.

(** ** Towers of powers *)




Section Tower.
Variable rt : Runtime.
Variable tokens : list Token.
Variable finish : nat.
Hypothesis ended : peek_in tokens operators finish = false.





End Tower.



(** ** A chain between parentheses *)

Lemma close_is_no_operator (close : Token) :
  Token.type close = RIGHT_PAREN ->
  forall next, hd_error [close] = Some next ->
               type_in next operators = false.
Proof. intros C next [= <-]; unfold type_in; now rewrite C. Qed.

(** X9.  Parentheses keep the value of a sum of products: an opening
    parenthesis, an integer literal followed by any number of operators
    PLUS, MINUS and MULTIPLY, each with an integer literal after it,
    and a closing parenthesis evaluate to the usual value of the chain,
    with every token consumed. *)
Theorem parentheses_keep_the_value (rt : Runtime) (open close first : Token)
        (z : Z) (links : list link) :
  Token.type open = LEFT_PAREN ->
  Token.type close = RIGHT_PAREN ->
  operand rt first z ->
  Forall (good rt) links ->
  calculate rt (open :: first :: chain links ++ [close])
  = Ok (VInt (sum_of_products 0 1 z (terms links)))
       (List.length (open :: first :: chain links ++ [close])).
Proof.
  intros O C F G.
  pose proof (enclosed rt open close (first :: chain links) _ O C
                (chain_value rt first z links [close] F G
                   (close_is_no_operator close C))) as E.
  cbn [app] in E; rewrite E; f_equal.
  cbn [List.length]; rewrite length_app; cbn [List.length]; lia.
Qed.

Lemma parentheses_keep_the_value_witness :
  calculate bare_runtime
    [Token.mk LEFT_PAREN "(" 1 1; Token.mk INTEGER "2" 1 2;
     Token.mk PLUS "+" 1 3; Token.mk INTEGER "3" 1 4;
     Token.mk RIGHT_PAREN ")" 1 5]
  = Ok (VInt 5) 5%nat.
Proof.
  apply (parentheses_keep_the_value bare_runtime
           (Token.mk LEFT_PAREN "(" 1 1) (Token.mk RIGHT_PAREN ")" 1 5)
           (Token.mk INTEGER "2" 1 2) 2
           [mk_link (Token.mk PLUS "+" 1 3) (Token.mk INTEGER "3" 1 4) 3]).
  - reflexivity.
  - reflexivity.
  - split; reflexivity.
  - constructor; [split; [left; reflexivity|split; reflexivity]|].
    constructor.
Defined.

(** A runtime for an example that reaches the library: its sine and
    its cosine are those of 0, and it knows no other. *)
Definition origin_runtime : Runtime :=
  {| int_max_str_digits := 4300;
     float_of_str := fun _ => Exc ValueError;
     libm_sin := fun x => if (x =? 0)%float then x else nan;
     libm_cos := fun x => if (x =? 0)%float then 1%float else nan;
     float_mod := fun _ _ => nan;
     float_pow := fun _ _ => Exc OverflowError;
     complex_op := fun _ _ _ => Exc TypeError |}.

(** X10.  A call applies the function to the value of a sum of
    products: the identifier [sin] (or [cos]), an opening parenthesis,
    an integer literal followed by any number of operators PLUS, MINUS
    and MULTIPLY, each with an integer literal after it, and a closing
    parenthesis evaluate to [math.sin] (or [math.cos]) of the usual
    value of the chain, value or exception, with every token
    consumed. *)
Theorem call_applies_the_function (rt : Runtime)
        (name open close first : Token) (z : Z) (links : list link) :
  Token.type name = IDENTIFIER ->
  Token.type open = LEFT_PAREN ->
  Token.type close = RIGHT_PAREN ->
  operand rt first z ->
  Forall (good rt) links ->
  (Token.value name = "sin" ->
   calculate rt (name :: open :: first :: chain links ++ [close])
   = lift (math_sin rt (VInt (sum_of_products 0 1 z (terms links))))
          (List.length (name :: open :: first :: chain links ++ [close])))
  /\ (Token.value name = "cos" ->
      calculate rt (name :: open :: first :: chain links ++ [close])
      = lift (math_cos rt (VInt (sum_of_products 0 1 z (terms links))))
             (List.length (name :: open :: first :: chain links ++ [close]))).
Proof.
  intros I O C F G.
  pose proof (applied rt name open close (first :: chain links) _ I O C
                (chain_value rt first z links [close] F G
                   (close_is_no_operator close C))) as [S K].
  assert (L : List.length (name :: open :: first :: chain links ++ [close])
              = (List.length (first :: chain links) + 3)%nat)
    by (cbn [List.length]; rewrite length_app; cbn [List.length]; lia).
  rewrite L; cbn [app] in S, K; split; assumption.
Qed.

Lemma call_applies_the_function_witness :
  calculate origin_runtime
    [Token.mk IDENTIFIER "cos" 1 1; Token.mk LEFT_PAREN "(" 1 4;
     Token.mk INTEGER "2" 1 5; Token.mk MINUS "-" 1 7;
     Token.mk INTEGER "2" 1 9; Token.mk RIGHT_PAREN ")" 1 10]
  = Ok (VFloat 1) 6%nat.
Proof.
  refine (eq_trans
            (proj2 (call_applies_the_function origin_runtime
                      (Token.mk IDENTIFIER "cos" 1 1)
                      (Token.mk LEFT_PAREN "(" 1 4)
                      (Token.mk RIGHT_PAREN ")" 1 10)
                      (Token.mk INTEGER "2" 1 5) 2
                      [mk_link (Token.mk MINUS "-" 1 7)
                               (Token.mk INTEGER "2" 1 9) 2]
                      eq_refl eq_refl eq_refl (conj eq_refl eq_refl) _)
                   eq_refl) _).
  - constructor; [split; [right; left; reflexivity|split; reflexivity]|].
    constructor.
  - vm_compute; reflexivity.
Defined.
